(** * CoworkerForceTimeGraph: a shallow embedding of the data pipeline

    The component [src/components/CoworkerForceTimeGraph.tsx] turns raw rows
    into typed records, filters them by month and by day, aggregates the
    active events into undirected links, credits the link totals to the
    persons, picks the node under the pointer and advances the selected day
    while playing.  Each of these steps is a pure function of the component
    state; they are transcribed here one by one, under the names they have in
    the source.

    Numbers.  The source computes on IEEE doubles, and two models of them are
    used.  Calendar fields, days and ids are integers: [JS.number] keeps the
    integer-valued doubles, as [Z], together with NaN and the two infinities;
    on them the operations the component applies (+ 1, <, <=, ===,
    Math.max) are exact.  Weights, link totals, degrees and coordinates are
    arbitrary doubles: [Double.t] keeps every finite double by its exact
    rational value, and [Double.add] rounds the exact sum to the nearest
    double, ties to even, as the engine does.  The two zeros are one value
    here; the component never tells them apart.  Math.hypot, whose value
    the language leaves to the engine, is a parameter of pickNode, and two
    engine functions are given for it.

    A raw cell is read by the grammar of numeric literals.  Text outside
    ASCII, a decimal literal of 20 digits or more (whose rounding the
    language leaves to the engine) and the id of a person that is no integer
    of magnitude at most 2^53 (whose printed form in a link key is not the
    digit string) are reported as [Beyond] rather than approximated. *)

From stdpp Require Import base strings pretty list gmap.
From Stdlib Require Import Ascii ZArith QArith Qabs Qround Qminmax Lia Lqa.

#[local] Close Scope Q_scope.
#[local] Open Scope Z_scope.

(** ** JavaScript values *)

Module JS.

(** A number that is a whole number when it is finite (a day, a month, a
    year, a count, an id): not-a-number, an infinity, or an integer. *)
Inductive number : Type :=
| NaN
| PosInf
| NegInf
| Fin (z : Z).

#[global] Instance number_eq_dec : EqDecision number.
Proof. solve_decision. Defined.

(** The values a raw row holds in a column ([any] in the source): the column
    is missing ([Undefined]), or holds null, a number (rows built by
    generateDemo) or text (rows read from a file). *)
Inductive any : Type :=
| Undefined
| Null
| Num (n : number)
| Str (s : string).

#[global] Instance any_eq_dec : EqDecision any.
Proof. solve_decision. Defined.

(** IEEE comparison: [None] when an operand is NaN. *)
Definition compare (a b : number) : option comparison :=
  match a, b with
  | NaN, _ | _, NaN => None
  | Fin x, Fin y => Some (x ?= y)
  | PosInf, PosInf | NegInf, NegInf => Some Eq
  | PosInf, _ | _, NegInf => Some Gt
  | NegInf, _ | _, PosInf => Some Lt
  end.

(** [a < b], [a <= b], [a > b], [a === b] on numbers. *)
Definition lt (a b : number) : bool :=
  match compare a b with Some Lt => true | _ => false end.
Definition le (a b : number) : bool :=
  match compare a b with Some Lt | Some Eq => true | _ => false end.
Definition gt (a b : number) : bool := lt b a.
Definition ge (a b : number) : bool := le b a.
Definition strict_eq (a b : number) : bool :=
  match compare a b with Some Eq => true | _ => false end.

(** [a + b]. *)
Definition add (a b : number) : number :=
  match a, b with
  | NaN, _ | _, NaN => NaN
  | PosInf, NegInf | NegInf, PosInf => NaN
  | PosInf, _ | _, PosInf => PosInf
  | NegInf, _ | _, NegInf => NegInf
  | Fin x, Fin y => Fin (x + y)
  end.

(** [Math.max(a, b)]: NaN when an operand is NaN. *)
Definition Math_max (a b : number) : number :=
  match compare a b with
  | None => NaN
  | Some Lt => b
  | Some _ => a
  end.

(** Truthiness of a number: NaN and 0 are falsy. *)
Definition truthy_number (n : number) : bool :=
  match n with NaN | Fin 0 => false | _ => true end.

(** Truthiness of a value. *)
Definition truthy (x : any) : bool :=
  match x with
  | Undefined | Null => false
  | Num n => truthy_number n
  | Str s => negb (bool_decide (s = ""))
  end.

(** [Number.prototype.toString()] in radix 10, also what a template literal
    does with a number. *)
Definition Number_toString (n : number) : string :=
  match n with
  | NaN => "NaN"
  | PosInf => "Infinity"
  | NegInf => "-Infinity"
  | Fin z => pretty z
  end.

(** [s.padStart(n, c)] for a one-character pad string [c]. *)
Definition padStart (n : nat) (c : ascii) (s : string) : string :=
  String.concat "" (replicate (n - String.length s)%nat (String c "")) +:+ s.

(** A normalised id: an integer or undefined (what toNum returns for an id
    cell).  [of_field] is the number it stands for in a comparison
    (undefined compares as NaN), and [String_of_field] what a template
    literal prints for it. *)
Definition of_field (o : option Z) : number :=
  match o with Some z => Fin z | None => NaN end.

Definition String_of_field (o : option Z) : string :=
  match o with Some z => Number_toString (Fin z) | None => "undefined" end.

(** [n || d] for a number [n] that may be undefined. *)
Definition number_or (o : option number) (d : number) : number :=
  match o with
  | Some n => if truthy_number n then n else d
  | None => d
  end.

End JS.

Export JS.

(** ** Doubles *)

Module Double.

(** A double: not-a-number, an infinity, or a finite double by its exact
    value, a fraction in lowest terms. *)
Inductive t : Type :=
| NaN
| PosInf
| NegInf
| Fin (q : Q).

#[global] Instance Q_eq_dec : EqDecision Q.
Proof. solve_decision. Defined.
#[global] Instance t_eq_dec : EqDecision t.
Proof. solve_decision. Defined.

(** The double of an integer that is one (every integer up to 2^53 in
    magnitude is). *)
Definition ofZ (z : Z) : t := Fin (inject_Z z).

(** floor (log2 (n / d)), for positive [n] and [d]. *)
Definition ilog2 (n d : Z) : Z :=
  let k := Z.log2 n - Z.log2 d in
  if 0 <=? k
  then (if d * 2 ^ k <=? n then k else k - 1)
  else (if d <=? n * 2 ^ (- k) then k else k - 1).

(** The integer nearest to n / d, the even one of two that are equally
    near, for [n >= 0] and [d > 0]. *)
Definition nearest_even (n d : Z) : Z :=
  let q := n / d in
  let r := n mod d in
  match 2 * r ?= d with
  | Lt => q
  | Gt => q + 1
  | Eq => if Z.even q then q else q + 1
  end.

(** m * 2^u, in lowest terms. *)
Definition scaled (m u : Z) : Q :=
  Qred (if 0 <=? u then Qmake (m * 2 ^ u) 1 else Qmake m (Z.to_pos (2 ^ (- u)))).

(** The double nearest to the rational [q] (roundTiesToEven): 53 bits of
    precision from the leading bit down, no bit below 2^-1074, an infinity
    from 2^1024 on. *)
Definition round (q : Q) : t :=
  let q := Qred q in
  let n := Z.abs (Qnum q) in
  let d := Zpos (Qden q) in
  if n =? 0 then Fin 0%Q else
  let e := ilog2 n d in
  let u := Z.max (e - 52) (-1074) in
  let m := if 0 <=? u then nearest_even n (d * 2 ^ u)
           else nearest_even (n * 2 ^ (- u)) d in
  if 2 ^ 53 * 2 ^ 971 <=? m * 2 ^ (Z.max u 0) then
    (if 0 <? Qnum q then PosInf else NegInf)
  else Fin (scaled (Z.sgn (Qnum q) * m) u).

(** IEEE comparison: [None] when an operand is NaN. *)
Definition compare (a b : t) : option comparison :=
  match a, b with
  | NaN, _ | _, NaN => None
  | Fin x, Fin y => Some (Qcompare x y)
  | PosInf, PosInf | NegInf, NegInf => Some Eq
  | PosInf, _ | _, NegInf => Some Gt
  | NegInf, _ | _, PosInf => Some Lt
  end.

(** [a < b] and [a <= b]. *)
Definition lt (a b : t) : bool :=
  match compare a b with Some Lt => true | _ => false end.
Definition le (a b : t) : bool :=
  match compare a b with Some Lt | Some Eq => true | _ => false end.

(** [-a], [a + b] and [a - b]. *)
Definition opp (a : t) : t :=
  match a with
  | NaN => NaN
  | PosInf => NegInf
  | NegInf => PosInf
  | Fin x => Fin (Qred (Qopp x))
  end.

Definition add (a b : t) : t :=
  match a, b with
  | NaN, _ | _, NaN => NaN
  | PosInf, NegInf | NegInf, PosInf => NaN
  | PosInf, _ | _, PosInf => PosInf
  | NegInf, _ | _, NegInf => NegInf
  | Fin x, Fin y => round (Qplus x y)
  end.

Definition sub (a b : t) : t := add a (opp b).

(** The sign of a double that is not NaN: -1, 0 or 1. *)
Definition sgn (a : t) : Z :=
  match a with
  | NaN => 0
  | PosInf => 1
  | NegInf => -1
  | Fin q => Z.sgn (Qnum q)
  end.

(** [a * b]: the product of an infinity and a zero is NaN. *)
Definition mul (a b : t) : t :=
  match a, b with
  | NaN, _ | _, NaN => NaN
  | Fin x, Fin y => round (Qmult x y)
  | _, _ =>
      match sgn a * sgn b with
      | 0 => NaN
      | Zpos _ => PosInf
      | Zneg _ => NegInf
      end
  end.

(** [Number.isFinite(a)]. *)
Definition isFinite (a : t) : bool :=
  match a with Fin _ => true | _ => false end.

(** Truthiness: NaN and 0 are falsy. *)
Definition truthy (a : t) : bool :=
  match a with
  | NaN => false
  | Fin q => negb (Qnum q =? 0)
  | _ => true
  end.

(** [o || d] for a number [o] that may be undefined. *)
Definition or_else (o : option t) (d : t) : t :=
  match o with
  | Some a => if truthy a then a else d
  | None => d
  end.

(** The double a number of the integer model stands for, if it is one. *)
Definition ofNumber (n : number) : option t :=
  match n with
  | JS.NaN => Some NaN
  | JS.PosInf => Some PosInf
  | JS.NegInf => Some NegInf
  | JS.Fin z => if bool_decide (round (inject_Z z) = ofZ z) then Some (ofZ z) else None
  end.

(** The integer a finite double is, if it is one. *)
Definition toZ (a : t) : option Z :=
  match a with
  | Fin q => if bool_decide (Qden (Qred q) = 1%positive) then Some (Qnum (Qred q)) else None
  | _ => None
  end.

End Double.

Abbreviation double := Double.t.

(** ** Numeric coercion

    [Within v]: the source computes [v].  [Beyond]: the value leaves what
    the model keeps (see the header); nothing is claimed there. *)
Inductive modelled (A : Type) : Type :=
| Within (a : A)
| Beyond.
Arguments Within {A} a.
Arguments Beyond {A}.

#[global] Instance modelled_ret : MRet modelled := fun A a => Within a.
#[global] Instance modelled_bind : MBind modelled := fun A B f m =>
  match m with Within a => f a | Beyond => Beyond end.
#[global] Instance modelled_fmap : FMap modelled := fun A B f m =>
  match m with Within a => Within (f a) | Beyond => Beyond end.


Module StringNumericLiteral.

(** StrWhiteSpaceChar, within ASCII: TAB, LF, VT, FF, CR, SP. *)
Definition white (c : ascii) : bool :=
  let n := nat_of_ascii c in
  ((9 <=? n) && (n <=? 13))%nat || (n =? 32)%nat.

(** The value of a decimal digit. *)
Definition digit (c : ascii) : option Z :=
  let n := nat_of_ascii c in
  if ((48 <=? n) && (n <=? 57))%nat then Some (Z.of_nat n - 48) else None.

(** The value of a digit in radix [b] (2, 8 or 16): 0-9, a-f, A-F, when it
    is below [b]. *)
Definition radix_digit (b : Z) (c : ascii) : option Z :=
  let n := nat_of_ascii c in
  let v := if ((48 <=? n) && (n <=? 57))%nat then Some (Z.of_nat n - 48)
           else if ((97 <=? n) && (n <=? 102))%nat then Some (Z.of_nat n - 87)
           else if ((65 <=? n) && (n <=? 70))%nat then Some (Z.of_nat n - 55)
           else None in
  match v with
  | Some d => if d <? b then Some d else None
  | None => None
  end.

(** A character of ASCII (a byte below 128). *)
Definition is_ascii (c : ascii) : bool := (nat_of_ascii c <? 128)%nat.

(** Every character of [s] satisfies [p]. *)
Fixpoint forall_chars (p : ascii -> bool) (s : string) : bool :=
  match s with
  | EmptyString => true
  | String c s' => p c && forall_chars p s'
  end.

(** [s] without its leading white space. *)
Fixpoint trim_start (s : string) : string :=
  match s with
  | String c s' => if white c then trim_start s' else s
  | EmptyString => s
  end.

(** [s] without its leading and trailing white space. *)
Definition trim (s : string) : string :=
  String.rev (trim_start (String.rev (trim_start s))).

(** DecimalDigits, read left to right; [None] when a character is no digit. *)
Fixpoint digits (acc : Z) (s : string) : option Z :=
  match s with
  | EmptyString => Some acc
  | String c s' =>
      match digit c with
      | Some d => digits (10 * acc + d) s'
      | None => None
      end
  end.

(** The digits of radix [b], read left to right. *)
Fixpoint radix_digits (b : Z) (acc : Z) (s : string) : option Z :=
  match s with
  | EmptyString => Some acc
  | String c s' =>
      match radix_digit b c with
      | Some d => radix_digits b (b * acc + d) s'
      | None => None
      end
  end.

(** The longest run of decimal digits [s] starts with, and what follows. *)
Fixpoint span_digits (s : string) : string * string :=
  match s with
  | EmptyString => (EmptyString, EmptyString)
  | String c s' =>
      match digit c with
      | Some _ => let (ds, r) := span_digits s' in (String c ds, r)
      | None => (EmptyString, s)
      end
  end.

(** SignedInteger: + DecimalDigits, - DecimalDigits or DecimalDigits, with
    at least one digit. *)
Definition signed_digits (s : string) : option Z :=
  match s with
  | EmptyString => None
  | String c r =>
      if bool_decide (c = "+"%char) && negb (bool_decide (r = ""))
      then digits 0 r
      else if bool_decide (c = "-"%char) && negb (bool_decide (r = ""))
      then Z.opp <$> digits 0 r
      else digits 0 s
  end.

(** What a literal denotes: an infinity, or the decimal [m * 10^e]. *)
Inductive literal : Type :=
| Infinity
| Decimal (m e : Z).

(** ExponentPart, or nothing: e or E and a SignedInteger. *)
Definition ExponentPart_opt (s : string) : option Z :=
  match s with
  | EmptyString => Some 0
  | String c r =>
      if bool_decide (c = "e"%char) || bool_decide (c = "E"%char)
      then signed_digits r else None
  end.

(** StrUnsignedDecimalLiteral: Infinity, or digits with an optional point
    and an optional exponent, with a digit before or after the point. *)
Definition StrUnsignedDecimalLiteral (s : string) : option literal :=
  if bool_decide (s = "Infinity") then Some Infinity else
  let (ip, r1) := span_digits s in
  let (fp, r2) := match r1 with
                  | String "."%char r => span_digits r
                  | _ => (EmptyString, r1)
                  end in
  if bool_decide (ip = "") && bool_decide (fp = "") then None else
  match digits 0 (ip +:+ fp), ExponentPart_opt r2 with
  | Some m, Some e => Some (Decimal m (e - Z.of_nat (String.length fp)))
  | _, _ => None
  end.

(** NonDecimalIntegerLiteral: 0x, 0o or 0b (in either case) and at least
    one digit of the radix; no sign. *)
Definition NonDecimalIntegerLiteral (s : string) : option Z :=
  match s with
  | String "0"%char (String c r) =>
      if bool_decide (r = "") then None
      else if bool_decide (c = "x"%char) || bool_decide (c = "X"%char)
      then radix_digits 16 0 r
      else if bool_decide (c = "o"%char) || bool_decide (c = "O"%char)
      then radix_digits 8 0 r
      else if bool_decide (c = "b"%char) || bool_decide (c = "B"%char)
      then radix_digits 2 0 r
      else None
  | _ => None
  end.

(** The rational m * 10^e. *)
Definition decimal (m e : Z) : Q :=
  if 0 <=? e then inject_Z (m * 10 ^ e) else Qmake m (Z.to_pos (10 ^ (- e))).

(** The number of an unsigned decimal literal, negated when [neg]: rounded
    to the nearest double when it has fewer than 20 digits. *)
Definition RoundMVResult (neg : bool) (l : option literal) : modelled double :=
  match l with
  | None => Within Double.NaN
  | Some Infinity => Within (if neg then Double.NegInf else Double.PosInf)
  | Some (Decimal m e) =>
      if 10 ^ 20 <=? m then Beyond
      else Within (Double.round (decimal (if neg then - m else m) e))
  end.

(** StringToNumber on ASCII text: white space around the literal is dropped;
    the empty literal is +0; a literal with a radix prefix is its integer;
    a decimal literal may carry a sign; text that is no literal is NaN. *)
Definition StringToNumber (s : string) : modelled double :=
  if negb (forall_chars is_ascii s) then Beyond else
  let t := trim s in
  match t with
  | EmptyString => Within (Double.ofZ 0)
  | String c r =>
      match NonDecimalIntegerLiteral t with
      | Some z => Within (Double.round (inject_Z z))
      | None =>
          if bool_decide (c = "+"%char) then RoundMVResult false (StrUnsignedDecimalLiteral r)
          else if bool_decide (c = "-"%char) then RoundMVResult true (StrUnsignedDecimalLiteral r)
          else RoundMVResult false (StrUnsignedDecimalLiteral t)
      end
  end.

End StringNumericLiteral.

(** [+x].  A number of a row built in code is the double it stands for. *)
Definition ToNumber (v : any) : modelled double :=
  match v with
  | Undefined => Within Double.NaN
  | Null => Within (Double.ofZ 0)
  | Num n => match Double.ofNumber n with Some a => Within a | None => Beyond end
  | Str s => StringNumericLiteral.StringToNumber s
  end.

(** [toNum(x)]: [+x] when it is finite, undefined otherwise. *)
Definition toNum (v : any) : modelled (option double) :=
  n ← ToNumber v;
  mret (if Double.isFinite n then Some n else None).

(** The id of a person, which the model keeps as an integer: undefined, or
    an integer of magnitude at most 2^53. *)
Definition integer (o : option double) : modelled (option Z) :=
  match o with
  | None => Within None
  | Some a =>
      match Double.toZ a with
      | Some z => if Z.abs z <=? 2 ^ 53 then Within (Some z) else Beyond
      | None => Beyond
      end
  end.

(** ** Dates

    A [Date] as the component reads it: through getFullYear, getMonth and
    getDate, which give the calendar fields in local time, and NaN on an
    invalid date (a timestamp text that did not parse). *)
Inductive Date : Type :=
| InvalidDate
| LocalDate (fullYear month date : Z).

#[global] Instance Date_eq_dec : EqDecision Date.
Proof. solve_decision. Defined.

(** [d.getFullYear()], [d.getMonth()] (0 for January) and [d.getDate()]. *)
Definition getFullYear (d : Date) : number :=
  match d with InvalidDate => NaN | LocalDate y _ _ => Fin y end.
Definition getMonth (d : Date) : number :=
  match d with InvalidDate => NaN | LocalDate _ m _ => Fin m end.
Definition getDate (d : Date) : number :=
  match d with InvalidDate => NaN | LocalDate _ _ dd => Fin dd end.

(** ** Records (NodeRec, EdgeEvent, LinkAgg)

    A numeric field holds what toNum returned: a finite number or undefined;
    the ids of persons are kept as integers, the other numbers as the
    doubles they are.  The text fields are copied from the row as they are.  The fields
    source and target of LinkAgg are [l_source] and [l_target] here. *)

Record NodeRec : Type := mkNode {
  id : option Z;
  name : any;
  role : any;
  team : any;
  location : any;
  email : any;
  degree : double;
  x : option double;
  y : option double
}.

Record EdgeEvent : Type := mkEdge {
  event_id : option double;
  source : option Z;
  target : option Z;
  timestamp : Date;
  event_type : any;
  duration_minutes : option double;
  project : any;
  weight : option double;
  note : any
}.

Record LinkAgg : Type := mkLink {
  l_source : option Z;
  l_target : option Z;
  total : double;
  events : list EdgeEvent
}.

#[global] Instance NodeRec_eq_dec : EqDecision NodeRec.
Proof. solve_decision. Defined.
#[global] Instance EdgeEvent_eq_dec : EqDecision EdgeEvent.
Proof. solve_decision. Defined.
#[global] Instance LinkAgg_eq_dec : EqDecision LinkAgg.
Proof. solve_decision. Defined.

(** ** fmtMonth and the month filter *)

(** [fmtMonth(d)]: the year as printed, a hyphen, the 1-based month padded
    to two characters. *)
Definition fmtMonth (d : Date) : string :=
  let y := getFullYear d in
  let m := padStart 2 "0"%char (Number_toString (JS.add (getMonth d) (Fin 1))) in
  Number_toString y +:+ "-" +:+ m.

(** [edgesAll.filter((e) => fmtMonth(e.timestamp) === monthKey)]. *)
Definition monthFilter (edgesAll : list EdgeEvent) (monthKey : string) : list EdgeEvent :=
  List.filter (fun e => bool_decide (fmtMonth (timestamp e) = monthKey)) edgesAll.

(** The label as the specification words it: a 4-digit year, a hyphen, a
    2-digit zero-padded month. *)
Definition monthLabel (d : Date) : string :=
  padStart 4 "0"%char (Number_toString (getFullYear d)) +:+ "-" +:+
  padStart 2 "0"%char (Number_toString (JS.add (getMonth d) (Fin 1))).

(** ** The active window *)

(** The loop that fills [activeEdges]: an event is pushed when its day of
    month is at most the cutoff (accumulate) or is the cutoff (single day). *)
Definition activeEdges (edges : list EdgeEvent) (cutoff : number) (accumulate : bool)
  : list EdgeEvent :=
  fold_left
    (fun acc e =>
       let d := getDate (timestamp e) in
       if (accumulate && JS.le d cutoff) || (negb accumulate && JS.strict_eq d cutoff)
       then acc ++ [e] else acc)
    edges [].

(** ** Link aggregation *)

(** [linkKey(a, b)]: the template literal with the smaller id first.  An
    undefined id compares as NaN, so the test fails and [b] comes first. *)
Definition linkKey (a b : option Z) : string :=
  if JS.lt (of_field a) (of_field b)
  then String_of_field a +:+ "|" +:+ String_of_field b
  else String_of_field b +:+ "|" +:+ String_of_field a.

(** A [Map] with string keys: entries in insertion order; [set] on a key
    that is present replaces the value where it stands. *)
Fixpoint Map_get {V : Type} (k : string) (m : list (string * V)) : option V :=
  match m with
  | [] => None
  | (k', v) :: m' => if decide (k = k') then Some v else Map_get k m'
  end.

Fixpoint Map_set {V : Type} (k : string) (v : V) (m : list (string * V)) : list (string * V) :=
  match m with
  | [] => [(k, v)]
  | (k', v') :: m' =>
      if decide (k = k') then (k, v) :: m' else (k', v') :: Map_set k v m'
  end.

(** [m.values()], in insertion order. *)
Definition Map_values {V : Type} (m : list (string * V)) : list V := map snd m.

(** What an event adds to its link: [e.weight || 1]. *)
Definition contribution (e : EdgeEvent) : double :=
  Double.or_else (weight e) (Double.ofZ 1).

(** One turn of the loop over [activeEdges]: fetch the link of the key or
    start one from the event's endpoints, add the contribution (a sum of
    doubles, rounded), push the event, store the link under the key. *)
Definition addEvent (linkMap : list (string * LinkAgg)) (e : EdgeEvent)
  : list (string * LinkAgg) :=
  let k := linkKey (source e) (target e) in
  let val :=
    match Map_get k linkMap with
    | Some v => v
    | None => mkLink (source e) (target e) (Double.ofZ 0) []
    end in
  let val :=
    mkLink (l_source val) (l_target val)
           (Double.add (total val) (Double.or_else (weight e) (Double.ofZ 1)))
           (events val ++ [e]) in
  Map_set k val linkMap.

(** [linkMap] after the loop over [activeEdges]. *)
Definition linkMapOf (activeEdges : list EdgeEvent) : list (string * LinkAgg) :=
  fold_left addEvent activeEdges [].

(** [Array.from(linkMap.values())]. *)
Definition linksOf (activeEdges : list EdgeEvent) : list LinkAgg :=
  Map_values (linkMapOf activeEdges).

(** ** Degrees *)

(** One turn of the loop over [links]: credit the total to the source, then
    to the target (reading the map again, so a link from a person to itself
    is credited twice). *)
Definition degStep (deg : gmap (option Z) double) (l : LinkAgg)
  : gmap (option Z) double :=
  let deg1 :=
    <[l_source l :=
        Double.add (Double.or_else (deg !! l_source l) (Double.ofZ 0)) (total l)]> deg in
  <[l_target l :=
      Double.add (Double.or_else (deg1 !! l_target l) (Double.ofZ 0)) (total l)]> deg1.

(** [deg] after the loop over [links]. *)
Definition degMap (links : list LinkAgg) : gmap (option Z) double :=
  fold_left degStep links ∅.

(** [{ ...n, degree: deg.get(n.id) || 0 }]. *)
Definition withDegree (deg : gmap (option Z) double) (n : NodeRec) : NodeRec :=
  mkNode (id n) (name n) (role n) (team n) (location n) (email n)
         (Double.or_else (deg !! id n) (Double.ofZ 0)) (x n) (y n).

(** [nodes.map((n) => ({ ...n, degree: deg.get(n.id) || 0 }))]. *)
Definition nodesWithDeg (nodes : list NodeRec) (links : list LinkAgg) : list NodeRec :=
  map (withDegree (degMap links)) nodes.

(** ** The memoised values [parsed] and [graph] *)

(** What [parsed] holds when it is not null. *)
Record Parsed : Type := mkParsed {
  nodes : list NodeRec;
  edges : list EdgeEvent;
  days : number
}.

(** What [graph] holds when it is not null: [{ nodes: nodesWithDeg, links }]. *)
Record Graph : Type := mkGraph {
  g_nodes : list NodeRec;
  g_links : list LinkAgg
}.

(** The memo [graph]: null without [parsed]; else the active events of the
    day, their links, and the persons with their degrees. *)
Definition graph (parsed : option Parsed) (day : number) (accumulate : bool)
  : option Graph :=
  match parsed with
  | None => None
  | Some p =>
      let active := activeEdges (edges p) day accumulate in
      let links := linksOf active in
      Some (mkGraph (nodesWithDeg (nodes p) links) links)
  end.

(** ** Raw rows and [parsed] *)

(** A row [d] of [nodesCSV]. *)
Module NodeRow.
Record t : Type := mk {
  id : any;
  name : any;
  role : any;
  team : any;
  location : any;
  email : any
}.
End NodeRow.

(** A row [d] of [edgesCSV].  [timestamp] holds [new Date(d.timestamp)], the
    date the engine makes of the cell. *)
Module EdgeRow.
Record t : Type := mk {
  event_id : any;
  source : any;
  target : any;
  timestamp : Date;
  event_type : any;
  duration_minutes : any;
  project : any;
  weight : any;
  note : any
}.
End EdgeRow.

(** The person record of a row: [id] through toNum, [degree] 0, no position
    yet. *)
Definition nodeOfRow (d : NodeRow.t) : modelled NodeRec :=
  i ← toNum (NodeRow.id d) ≫= integer;
  mret (mkNode i (NodeRow.name d) (NodeRow.role d) (NodeRow.team d)
               (NodeRow.location d) (NodeRow.email d) (Double.ofZ 0) None None).

(** The event record of a row: the five numeric cells through toNum, and
    [d.note || ''] for the note. *)
Definition edgeOfRow (d : EdgeRow.t) : modelled EdgeEvent :=
  i ← toNum (EdgeRow.event_id d);
  s ← toNum (EdgeRow.source d) ≫= integer;
  t ← toNum (EdgeRow.target d) ≫= integer;
  m ← toNum (EdgeRow.duration_minutes d);
  w ← toNum (EdgeRow.weight d);
  mret (mkEdge i s t (EdgeRow.timestamp d) (EdgeRow.event_type d) m
               (EdgeRow.project d) w
               (if truthy (EdgeRow.note d) then EdgeRow.note d else Str "")).

(** [d3.extent(values)], of the d3-array library: the least and the greatest
    of the values that compare with themselves (NaN is skipped), both
    undefined when there is none. *)
Definition d3_extent (values : list number) : option number * option number :=
  fold_left
    (fun ext value =>
       match ext with
       | (Some mn, Some mx) =>
           (if JS.gt mn value then Some value else Some mn,
            if JS.lt mx value then Some value else Some mx)
       | _ => if JS.ge value value then (Some value, Some value) else ext
       end)
    values (None, None).

(** The memo [parsed]: null until both row sets are there; then the
    records, the events of the month and the number of days to offer. *)
Definition parsed (nodesCSV : option (list NodeRow.t)) (edgesCSV : option (list EdgeRow.t))
    (monthKey : string) : modelled (option Parsed) :=
  match nodesCSV, edgesCSV with
  | Some nrows, Some erows =>
      ns ← mapM nodeOfRow nrows;
      edgesAll ← mapM edgeOfRow erows;
      let filtered := monthFilter edgesAll monthKey in
      let ext := d3_extent (map (fun e => getDate (timestamp e)) filtered) in
      let _days := Math_max (number_or (snd ext) (Fin 30)) (Fin 30) in
      mret (Some (mkParsed ns filtered _days))
  | _, _ => mret None
  end.

(** ** Playback *)

(** The updater handed to [setDay] on each tick of the interval. *)
Definition playbackTick (parsed : option Parsed) (daysInMonth : number) (d : number)
  : number :=
  match parsed with
  | None => d
  | Some p =>
      let next := JS.add d (Fin 1) in
      if JS.gt next (number_or (Some (days p)) daysInMonth) then Fin 1 else next
  end.

(** The effect that follows a new [parsed]: setDaysInMonth(parsed.days), and
    the day is clamped to it.  The result is the pair (daysInMonth, day). *)
Definition syncDays (parsed : option Parsed) (daysInMonth day : number)
  : number * number :=
  match parsed with
  | None => (daysInMonth, day)
  | Some p => (days p, if JS.gt day (days p) then days p else day)
  end.

(** The day after [n] ticks. *)
Fixpoint playback (n : nat) (parsed : option Parsed) (daysInMonth : number) (d : number)
  : number :=
  match n with
  | O => d
  | S n' => playback n' parsed daysInMonth (playbackTick parsed daysInMonth d)
  end.

(** ** Hover picking *)

Section Picking.

(** [Math.hypot(dx, dy)]: the language asks for an approximation of the
    square root of dx^2 + dy^2 and leaves the value to the engine, so the
    function is a parameter here. *)
Variable Math_hypot : double -> double -> double.

(** The distance from the pointer to a node as the loop computes it:
    [Math.hypot(x - (n.x ?? 0), y - (n.y ?? 0))]. *)
Definition pointerDistance (px py : double) (n : NodeRec) : double :=
  let dx := Double.sub px (default (Double.ofZ 0) (x n)) in
  let dy := Double.sub py (default (Double.ofZ 0) (y n)) in
  Math_hypot dx dy.

(** One turn of the loop of pickNode on the state [(best, bestD)]:
    [if (d < bestD) { bestD = d; best = n }]. *)
Definition pickStep (px py : double) (st : option NodeRec * double) (n : NodeRec)
  : option NodeRec * double :=
  let d := pointerDistance px py n in
  if Double.lt d (snd st) then (Some n, d) else st.

(** [pickNode(x, y, nodes)]: null on an empty list; else the loop from
    [best = null], [bestD = 20]. *)
Definition pickNode (px py : double) (nodes : list NodeRec) : option NodeRec :=
  match nodes with
  | [] => None
  | _ => fst (fold_left (pickStep px py) nodes (None, Double.ofZ 20))
  end.

End Picking.

(** The double nearest to the square root of [q], for [q >= 0]; Infinity
    from 2^1024 on. *)
Definition round_sqrt (q : Q) : double :=
  let q := Qred q in
  let n := Qnum q in
  let d := Zpos (Qden q) in
  if n <=? 0 then Double.ofZ 0 else
  let e := Double.ilog2 n d / 2 in
  let u := Z.max (e - 52) (-1074) in
  let a := if 0 <=? u then n else n * 4 ^ (- u) in
  let b := if 0 <=? u then d * 4 ^ u else d in
  let s := Z.sqrt (a / b) in
  let m := match 4 * a ?= (4 * s * s + 4 * s + 1) * b with
           | Lt => s
           | Gt => s + 1
           | Eq => if Z.even s then s else s + 1
           end in
  if 2 ^ 53 * 2 ^ 971 <=? m * 2 ^ (Z.max u 0) then Double.PosInf
  else Double.Fin (Double.scaled m u).

(** A Math.hypot that rounds to the nearest double, one engine function
    among those the statements on picking range over: an infinite argument
    gives Infinity, else a NaN argument gives NaN. *)
Definition hypotNearest (dx dy : double) : double :=
  match dx, dy with
  | Double.PosInf, _ | Double.NegInf, _ | _, Double.PosInf | _, Double.NegInf =>
      Double.PosInf
  | Double.NaN, _ | _, Double.NaN => Double.NaN
  | Double.Fin a, Double.Fin b =>
      round_sqrt (a * a + b * b)%Q
  end.


(** [Math.sqrt(a)] rounded to the nearest double. *)
Definition sqrtNearest (a : double) : double :=
  match a with
  | Double.NaN | Double.NegInf => Double.NaN
  | Double.PosInf => Double.PosInf
  | Double.Fin q => if Qle_bool 0 q then round_sqrt q else Double.NaN
  end.

(** One turn of the compensated summation of the squares: the state is
    [(sum, compensation)], [v] a magnitude and [mx] the largest one. *)
Definition kahanStep (mx : Q) (st : double * double) (v : Q) : double * double :=
  let n := Double.round (v / mx) in
  let summand := Double.sub (Double.mul n n) (snd st) in
  let preliminary := Double.add (fst st) summand in
  (preliminary, Double.sub (Double.sub preliminary (fst st)) summand).

(** A Math.hypot that divides the magnitudes by the largest of them, adds up
    the squares with compensation and multiplies the square root of the sum
    by the largest magnitude, as the V8 engine does: another engine
    function. *)
Definition hypotScaled (dx dy : double) : double :=
  match dx, dy with
  | Double.PosInf, _ | Double.NegInf, _ | _, Double.PosInf | _, Double.NegInf =>
      Double.PosInf
  | Double.NaN, _ | _, Double.NaN => Double.NaN
  | Double.Fin a, Double.Fin b =>
      let mx := Qmax (Qabs a) (Qabs b) in
      if Qeq_bool mx 0 then Double.ofZ 0 else
      let st := fold_left (kahanStep mx) [Qabs a; Qabs b] (Double.ofZ 0, Double.ofZ 0) in
      Double.mul (sqrtNearest (fst st)) (Double.Fin mx)
  end.
(** ** Demo data *)

(** An event row as generateDemo builds it.  [day], [hour] and [minute] are
    the arguments of [Date.UTC(2025, 8, day, hour, minute)], which
    [toISOString] prints into the timestamp cell. *)
Module DemoEdge.
Record t : Type := mk {
  event_id : Z;
  source : Z;
  target : Z;
  day : Z;
  hour : Z;
  minute : Z;
  event_type : any;
  duration_minutes : Z;
  project : string;
  weight : Z;
  note : string
}.
End DemoEdge.

(** The arrays [teams] and [types] of generateDemo. *)
Definition teams : list string :=
  ["Platform"; "Frontend"; "Backend"; "Mobile"; "Design"; "Data"; "Growth";
   "DevOps"; "Research"; "Security"].

Definition types : list string :=
  ["meeting"; "code_review"; "pair_programming"; "design_review";
   "async_message"; "doc_edit"; "presentation"].

(** [arr[i]]: undefined out of range. *)
Definition index (arr : list string) (i : Z) : any :=
  if i <? 0 then Undefined
  else match arr !! Z.to_nat i with Some s => Str s | None => Undefined end.

(** The person rows: [Array.from({ length: N }, (_, i) => ...)]. *)
Definition demoNode (i : Z) : NodeRow.t :=
  NodeRow.mk (Num (Fin (i + 1)))
             (Str ("User " +:+ Number_toString (Fin (i + 1))))
             (Str (if bool_decide (Z.rem i 5 = 0) then "Engineer" else "Designer"))
             (index teams (Z.rem i (Z.of_nat (length teams))))
             (Str "Remote")
             (Str ("user" +:+ Number_toString (Fin (i + 1)) +:+ "@example.com")).

(** The [N] person rows, for [i] from 0 to [N - 1]. *)
Definition demoNodes (N : nat) : list NodeRow.t :=
  map (fun i => demoNode (Z.of_nat i)) (seq 0 N).

Section Demo.

(** The random source [rnd = d3.randomLcg(0.42)]: a call returns a number in
    [0, 1) and moves the generator to its next state. *)
Variable RndState : Type.
Variable rnd : RndState -> Q * RndState.

(** [Math.floor(rnd() * n)]. *)
Definition floorRnd (n : Z) (st : RndState) : Z * RndState :=
  let (u, st') := rnd st in (Qfloor (u * inject_Z n), st').

(** The body of the loop [for (let k = 0; k < 1200; k++)]. *)
Definition demoEdge (N : Z) (k : Z) (st : RndState) : DemoEdge.t * RndState :=
  let (a0, st) := floorRnd N st in
  let a := a0 + 1 in
  let (b0, st) := floorRnd N st in
  let b := b0 + 1 in
  let b := if bool_decide (b = a) then Z.rem b N + 1 else b in
  let (d0, st) := floorRnd 30 st in
  let day := 1 + d0 in
  let (hour, st) := floorRnd 24 st in
  let (minute, st) := floorRnd 60 st in
  let (ty, st) := floorRnd (Z.of_nat (length types)) st in
  let (dur, st) := floorRnd 90 st in
  let (w, st) := floorRnd 3 st in
  (DemoEdge.mk (k + 1) a b day hour minute (index types ty) (15 + dur)
               "Demo" (1 + w) "", st).

(** [count] turns of the loop from [k]; the rows are pushed in order. *)
Fixpoint demoEdges (N : Z) (count : nat) (k : Z) (st : RndState) : list DemoEdge.t :=
  match count with
  | O => []
  | S count' =>
      let (e, st') := demoEdge N k st in
      e :: demoEdges N count' (k + 1) st'
  end.

(** generateDemo: the rows handed to setNodesCSV and setEdgesCSV. *)
Definition generateDemo (seed : RndState) : list NodeRow.t * list DemoEdge.t :=
  let N := 100%nat in
  (demoNodes N, demoEdges (Z.of_nat N) 1200 0 seed).

End Demo.

(** [z | 0]: the signed 32-bit integer congruent to [z]. *)
Definition toInt32 (z : Z) : Z := (z + 2 ^ 31) mod 2 ^ 32 - 2 ^ 31.

(** A 32-bit linear congruential generator of the kind d3.randomLcg builds:
    the state is a signed 32-bit integer, a call multiplies and adds modulo
    2^32 and returns the unsigned state over 2^32.  It is one random source
    among those the statements on the demo data range over. *)
Definition lcg (state : Z) : Q * Z :=
  let state' := toInt32 (1664525 * state + 1013904223) in
  (Qmake (state' mod 2 ^ 32) (2 ^ 32), state').

(** The seed 0.42: [0.42 * 2^32 | 0]. *)
Definition lcgSeed : Z := 1803886264.

(** ** Hover statistics *)

(** [hoverInfo]: the pointer position and the node under it. *)
Record HoverInfo : Type := mkHover {
  h_x : double;
  h_y : double;
  node : NodeRec
}.

(** What [hoverStats] holds when it is not null: the number of events and,
    per event type, the object [{ type, n }]. *)
Record HoverStats : Type := mkHoverStats {
  count : Z;
  byType : list (any * Z)
}.

(** [d3.rollup(values, (v) => v.length, key)], of the d3-array library, read
    through [Array.from]: the keys in the order they first occur, each with
    the number of values that have it. *)
Fixpoint rollupAdd (k : any) (groups : list (any * Z)) : list (any * Z) :=
  match groups with
  | [] => [(k, 1)]
  | (k', n) :: groups' =>
      if decide (k = k') then (k', n + 1) :: groups'
      else (k', n) :: rollupAdd k groups'
  end.

Definition d3_rollup_length {A : Type} (values : list A) (key : A -> any)
  : list (any * Z) :=
  fold_left (fun groups v => rollupAdd (key v) groups) values [].

(** The events kept by [parsed.edges.filter(...)] in hoverStats: those of
    the window that have the hovered id as source or as target. *)
Definition hoverEvents (edges : list EdgeEvent) (cutoff : number) (accumulate : bool)
    (i : option Z) : list EdgeEvent :=
  List.filter
    (fun e =>
       let d := getDate (timestamp e) in
       let hitsDay := if accumulate then JS.le d cutoff else JS.strict_eq d cutoff in
       hitsDay && (bool_decide (source e = i) || bool_decide (target e = i)))
    edges.

(** The memo [hoverStats]. *)
Definition hoverStats (hoverInfo : option HoverInfo) (graph : option Graph)
    (parsed : option Parsed) (day : number) (accumulate : bool) : option HoverStats :=
  match hoverInfo, graph, parsed with
  | Some h, Some _, Some p =>
      let evs := hoverEvents (edges p) day accumulate (id (node h)) in
      Some (mkHoverStats (Z.of_nat (length evs)) (d3_rollup_length evs event_type))
  | _, _, _ => None
  end.

(** ** Visual encoding *)

(** A square root, the real number [√square], kept by its square so that
    it is compared exactly; the size drawn is the double nearest to it. *)
Record distance : Type := Sqrt { square : Q }.

(** The distance of [r] pixels, [r >= 0]. *)
Definition pixels (r : Z) : distance := Sqrt (inject_Z (r * r)).

(** [a < b] on square roots. *)
Definition distance_lt (a b : distance) : bool :=
  match Qcompare (square a) (square b) with Lt => true | _ => false end.

(** The value of [Math.sqrt]: NaN on NaN and below 0, Infinity on Infinity,
    else the square root. *)
Inductive root : Type :=
| RootNaN
| RootInf
| Root (r : distance).

Definition Math_sqrt (a : double) : root :=
  match a with
  | Double.NaN | Double.NegInf => RootNaN
  | Double.PosInf => RootInf
  | Double.Fin q => if Qnum q <? 0 then RootNaN else Root (Sqrt q)
  end.

(** [2 + Math.min(10, r)] for a square root [r]: the number [2 + √capped],
    with [√capped] the lesser of 10 and [r]; NaN stays NaN. *)
Inductive radius : Type :=
| RadiusNaN
| TwoPlus (capped : distance).

(** [nodeRadius(n)]. *)
Definition nodeRadius (n : NodeRec) : radius :=
  match Math_sqrt (Double.or_else (Some (degree n)) (Double.ofZ 0)) with
  | RootNaN => RadiusNaN
  | RootInf => TwoPlus (pixels 10)
  | Root r => TwoPlus (if distance_lt r (pixels 10) then r else pixels 10)
  end.

(** The own properties of the object [map] of teamColor, and the names
    every object inherits from Object.prototype. *)
Definition teamColorMap : list (string * string) :=
  [("Platform", "#6aa9ff"); ("Frontend", "#9ae6ff"); ("Backend", "#a3ffa3");
   ("Mobile", "#ffd27d"); ("Design", "#f6a2ff"); ("Data", "#c6ffdf");
   ("Growth", "#ffc7c7"); ("DevOps", "#e0e3ff"); ("Research", "#f1ffc2");
   ("Security", "#ffd7f0")].

Definition Object_prototype_names : list string :=
  ["constructor"; "hasOwnProperty"; "isPrototypeOf"; "propertyIsEnumerable";
   "toLocaleString"; "toString"; "valueOf"; "__proto__"; "__defineGetter__";
   "__defineSetter__"; "__lookupGetter__"; "__lookupSetter__"].

(** The property key a value is turned into by [map[team]]. *)
Definition ToPropertyKey (v : any) : string :=
  match v with
  | Undefined => "undefined"
  | Null => "null"
  | Num n => Number_toString n
  | Str s => s
  end.

(** What teamColor returns: a colour, or the member of Object.prototype
    that the lookup reached (an object or a function, which is truthy). *)
Inductive teamColorResult : Type :=
| Colour (c : string)
| Inherited (member : string).

(** [teamColor(team)]: [map[team] || '#cbd5e1']. *)
Definition teamColor (team : any) : teamColorResult :=
  let k := ToPropertyKey team in
  match Map_get k teamColorMap with
  | Some c => Colour c
  | None =>
      if bool_decide (k ∈ Object_prototype_names) then Inherited k
      else Colour "#cbd5e1"
  end.

(** * Notions used in the statements *)

Import StringNumericLiteral.

(** An event of September of the year 999. *)
Definition yearNine : EdgeEvent :=
  mkEdge (Some (Double.ofZ 1)) (Some 1) (Some 2) (LocalDate 999 8 1) (Str "meeting")
         (Some (Double.ofZ 30)) (Str "Alpha") (Some (Double.ofZ 3)) (Str "").

(** The day of month of an event; an invalid timestamp has none. *)
Definition dayOfMonth (e : EdgeEvent) : option Z :=
  match timestamp e with
  | InvalidDate => None
  | LocalDate _ _ d => Some d
  end.

(** An event of September 2025 on day [d]. *)
Definition onDay (d : Z) : EdgeEvent :=
  mkEdge (Some (Double.ofZ d)) (Some 1) (Some 2) (LocalDate 2025 8 d) (Str "meeting")
         (Some (Double.ofZ 30)) (Str "Alpha") (Some (Double.ofZ 1)) (Str "").

(** The characters a printed integer is made of. *)
Definition numeral_char (c : ascii) : bool :=
  bool_decide (is_Some (digit c)) || bool_decide (c = "-"%char).

(** Any character but the bar that separates the two ids of a key. *)
Definition not_bar (c : ascii) : bool := negb (bool_decide (c = "|"%char)).

(** The pair a key is made of: the smaller id first when both are numbers. *)
Definition ordered (a b : option Z) : option Z * option Z :=
  if JS.lt (of_field a) (of_field b) then (a, b) else (b, a).

(** An event (or a link) joins the persons [a] and [b], whichever is the
    source. *)
Definition samePair (a b : Z) (s t : option Z) : bool :=
  bool_decide (s = Some a /\ t = Some b) || bool_decide (s = Some b /\ t = Some a).

(** The sum of a list of integers. *)
Definition sumZ (l : list Z) : Z := fold_right Z.add 0 l.

(** The sum of a list of doubles as a loop computes it: from 0, one rounded
    addition per element, in order. *)
Definition sumD (l : list double) : double := fold_left Double.add l (Double.ofZ 0).

(** The integer a contribution is, when it is one (0 otherwise), and the
    events whose contribution is an integer. *)
Definition units (e : EdgeEvent) : Z := default 0 (Double.toZ (contribution e)).

Definition whole (e : EdgeEvent) : Prop := contribution e = Double.ofZ (units e).

(** The magnitudes of the contributions of the events, added up. *)
Definition magnitude (es : list EdgeEvent) : Z := sumZ (map (fun e => Z.abs (units e)) es).

(** The key of the link an event goes to. *)
Definition keyOf (e : EdgeEvent) : string := linkKey (source e) (target e).

(** The link a key has after the events [es]: none when no event has the
    key, else the endpoints of the first such event, the sum of the
    contributions, added in the order of the events, and the events
    themselves. *)
Definition linkFor (k : string) (es : list EdgeEvent) : option LinkAgg :=
  match List.filter (fun e => bool_decide (keyOf e = k)) es with
  | [] => None
  | e0 :: r =>
      Some (mkLink (source e0) (target e0) (sumD (map contribution (e0 :: r))) (e0 :: r))
  end.

(** An event from person 3 to person 7, of weight 2. *)
Definition event37 : EdgeEvent :=
  mkEdge (Some (Double.ofZ 1)) (Some 3) (Some 7) (LocalDate 2025 8 1) (Str "meeting")
         (Some (Double.ofZ 30)) (Str "Alpha") (Some (Double.ofZ 2)) (Str "").

(** An event from person 7 to person 3, of weight 5. *)
Definition event73 : EdgeEvent :=
  mkEdge (Some (Double.ofZ 2)) (Some 7) (Some 3) (LocalDate 2025 8 1) (Str "code_review")
         (Some (Double.ofZ 15)) (Str "Alpha") (Some (Double.ofZ 5)) (Str "").

(** An event from person 3 to person 7 of weight 2^53, and one from person 7
    to person 3 of weight 1. *)
Definition heavy37 : EdgeEvent :=
  mkEdge (Some (Double.ofZ 1)) (Some 3) (Some 7) (LocalDate 2025 8 1) (Str "meeting")
         (Some (Double.ofZ 30)) (Str "Alpha") (Some (Double.ofZ (2 ^ 53))) (Str "").

Definition light73 : EdgeEvent :=
  mkEdge (Some (Double.ofZ 2)) (Some 7) (Some 3) (LocalDate 2025 8 1) (Str "code_review")
         (Some (Double.ofZ 15)) (Str "Alpha") (Some (Double.ofZ 1)) (Str "").

(** What the links credit to the person [p], in the order of the links:
    the total of a link once for each endpoint that is [p]. *)
Definition credits (p : option Z) (links : list LinkAgg) : list double :=
  flat_map (fun l => (if decide (l_source l = p) then [total l] else [])
                     ++ (if decide (l_target l = p) then [total l] else []))
           links.

(** [d || 0]. *)
Definition orZero (d : double) : double := Double.or_else (Some d) (Double.ofZ 0).

(** The sum of the totals of the links touching [p], as the loop over the
    links computes it: from 0, [(d || 0) + total] for each credit, and
    [d || 0] when the degree is read. *)
Definition incidentTotal (p : option Z) (links : list LinkAgg) : double :=
  orZero (fold_left (fun d t => Double.add (orZero d) t) (credits p links) (Double.ofZ 0)).

(** The exact total of the events of a link whose contributions are
    integers, and what the links credit to the person [p] then. *)
Definition totalZ (l : LinkAgg) : Z := sumZ (map units (events l)).

Definition creditsZ (p : option Z) (links : list LinkAgg) : list Z :=
  flat_map (fun l => (if decide (l_source l = p) then [totalZ l] else [])
                     ++ (if decide (l_target l = p) then [totalZ l] else []))
           links.

(** A person of id [i], before any degree is computed. *)
Definition person (i : Z) : NodeRec :=
  mkNode (Some i) (Str "User") (Str "Engineer") (Str "Platform") (Str "Remote")
         (Str "user@example.com") (Double.ofZ 0) None None.

(** A row of [edgesCSV] between persons 3 and 7 whose weight cell is [w]. *)
Definition rowOfWeight (w : any) : EdgeRow.t :=
  EdgeRow.mk (Str "1") (Str "3") (Str "7") (LocalDate 2025 8 1) (Str "meeting")
             (Str "30") (Str "Alpha") w Undefined.




(** What getDate returns: NaN or an integer. *)
Definition dateValue (v : number) : Prop := v = NaN \/ exists z, v = Fin z.

(** The distance the loop of pickNode computes for a node, written out on
    the coordinates: the engine's hypot of the two rounded differences. *)
Definition computed (hypot : double -> double -> double) (px py : double) (n : NodeRec)
  : double :=
  hypot (Double.sub px (match x n with Some a => a | None => Double.ofZ 0 end))
        (Double.sub py (match y n with Some b => b | None => Double.ofZ 0 end)).

(** The square of the straight-line distance from the pointer to a node,
    exact, when the coordinates are finite. *)
Definition squared (px py : double) (n : NodeRec) : option Q :=
  match px, py, default (Double.ofZ 0) (x n), default (Double.ofZ 0) (y n) with
  | Double.Fin a, Double.Fin b, Double.Fin c, Double.Fin d =>
      Some ((a - c) * (a - c) + (b - d) * (b - d))%Q
  | _, _, _, _ => None
  end.

(** The computed distance of a node is within the relative error [eps] of
    its straight-line distance [√s]. *)
Definition accurate (eps : Q) (hypot : double -> double -> double) (px py : double)
    (n : NodeRec) : Prop :=
  exists s h, squared px py n = Some s /\ computed hypot px py n = Double.Fin h
              /\ (0 <= h)%Q
              /\ ((1 - eps) * (1 - eps) * s <= h * h)%Q
              /\ (h * h <= (1 + eps) * (1 + eps) * s)%Q.

(** The state of the loop of pickNode after the nodes [seen]: no node yet
    and none of them nearer than 20, or the first of the nodes computed
    nearest, nearer than 20. *)
Definition pickInvariant (hypot : double -> double -> double) (px py : double)
    (seen : list NodeRec) (st : option NodeRec * double) : Prop :=
  match fst st with
  | None =>
      snd st = Double.ofZ 20
      /\ forall m, In m seen ->
           Double.lt (computed hypot px py m) (Double.ofZ 20) = false
  | Some n =>
      snd st = computed hypot px py n
      /\ Double.lt (computed hypot px py n) (Double.ofZ 20) = true
      /\ exists before after,
           seen = before ++ n :: after
           /\ (forall m, In m before ->
                 Double.le (computed hypot px py m) (computed hypot px py n) = false)
           /\ (forall m, In m after ->
                 Double.lt (computed hypot px py m) (computed hypot px py n) = false)
  end.

(** A node at the point (a, b), and no more. *)
Definition nodeAt (a b : Z) : NodeRec :=
  mkNode (Some 1) (Str "User") (Str "Engineer") (Str "Platform") (Str "Remote")
         (Str "user@example.com") (Double.ofZ 0) (Some (Double.ofZ a)) (Some (Double.ofZ b)).

(** A node at the doubles nearest to the rationals [a] and [b]. *)
Definition nodeNear (a b : Q) : NodeRec :=
  mkNode (Some 1) (Str "User") (Str "Engineer") (Str "Platform") (Str "Remote")
         (Str "user@example.com") (Double.ofZ 0) (Some (Double.round a))
         (Some (Double.round b)).

(** How many of the two endpoints of an event are the person [p]. *)
Definition endpointsAt (p : option Z) (e : EdgeEvent) : Z :=
  (if decide (source e = p) then 1 else 0) + (if decide (target e = p) then 1 else 0).

(** One turn of the loop of d3.extent. *)
Definition extentStep (ext : option number * option number) (value : number)
  : option number * option number :=
  match ext with
  | (Some mn, Some mx) =>
      (if JS.gt mn value then Some value else Some mn,
       if JS.lt mx value then Some value else Some mx)
  | _ => if JS.ge value value then (Some value, Some value) else ext
  end.

(** The count a group list holds for the key [k], if it has the key. *)
Fixpoint groupOf (k : any) (groups : list (any * Z)) : option Z :=
  match groups with
  | [] => None
  | (k', n) :: groups' => if decide (k = k') then Some n else groupOf k groups'
  end.

(** The event has the person [i] at one end. *)
Definition touches (i : option Z) (e : EdgeEvent) : bool :=
  bool_decide (source e = i \/ target e = i).

(** How many of the events are of type [k]. *)
Definition ofType (k : any) (es : list EdgeEvent) : Z :=
  Z.of_nat (length (List.filter (fun e => bool_decide (event_type e = k)) es)).

(** A dataset of three persons and three events of September 2025: the two
    events between persons 3 and 7 on day 1, and one between persons 1 and 2
    on day 4. *)
Definition threePersons : Parsed :=
  mkParsed [person 3; person 7; person 9] [event37; event73; onDay 4] (Fin 30).


(** The timestamp lies in the month of index [m] of the year [yr]. *)
Definition inMonth (yr m : Z) (e : EdgeEvent) : bool :=
  match timestamp e with
  | InvalidDate => false
  | LocalDate yr' m' _ => bool_decide (yr' = yr) && bool_decide (m' = m)
  end.

(** What getMonth returns on a valid date: an index from 0 to 11. *)
Definition monthInRange (d : Date) : Prop :=
  match d with
  | InvalidDate => True
  | LocalDate _ m _ => 0 <= m <= 11
  end.

(** Any character but white space. *)
Definition not_white (c : ascii) : bool := negb (white c).

(** A double whose rational is in lowest terms, as every result of a
    rounding is. *)
Definition lowest (a : double) : Prop :=
  match a with
  | Double.Fin q => Qred q = q
  | _ => True
  end.

(** Where a run of digits stops: at the end of the text, or before a
    character that is no digit. *)
Definition stops (r : string) : Prop :=
  match r with
  | EmptyString => True
  | String c _ => digit c = None
  end.
(** The grammar of numeric literals that StringToNumber reads
    (StringNumericLiteral of the language), on text without the white space
    around it. *)
Module Grammar.

Definition is_digit (c : ascii) : bool := bool_decide (is_Some (digit c)).

Definition is_radix_digit (b : Z) (c : ascii) : bool :=
  bool_decide (is_Some (radix_digit b c)).

(** DecimalDigits: one decimal digit or more. *)
Definition DecimalDigits (s : string) : Prop :=
  s <> "" /\ forall_chars is_digit s = true.

(** SignedInteger. *)
Inductive SignedInteger : string -> Prop :=
| SignedInteger_plain (ds : string) :
    DecimalDigits ds -> SignedInteger ds
| SignedInteger_plus (ds : string) :
    DecimalDigits ds -> SignedInteger (String "+" ds)
| SignedInteger_minus (ds : string) :
    DecimalDigits ds -> SignedInteger (String "-" ds).

(** ExponentPart, or nothing. *)
Inductive ExponentPart_opt : string -> Prop :=
| ExponentPart_none : ExponentPart_opt ""
| ExponentPart_some (c : ascii) (r : string) :
    c = "e"%char \/ c = "E"%char -> SignedInteger r -> ExponentPart_opt (String c r).

(** StrUnsignedDecimalLiteral. *)
Inductive StrUnsignedDecimalLiteral : string -> Prop :=
| Unsigned_Infinity : StrUnsignedDecimalLiteral "Infinity"
| Unsigned_point (ip fp ex : string) :
    DecimalDigits ip -> fp = "" \/ DecimalDigits fp -> ExponentPart_opt ex ->
    StrUnsignedDecimalLiteral (ip +:+ String "." (fp +:+ ex))
| Unsigned_fraction (fp ex : string) :
    DecimalDigits fp -> ExponentPart_opt ex ->
    StrUnsignedDecimalLiteral (String "." (fp +:+ ex))
| Unsigned_integer (ip ex : string) :
    DecimalDigits ip -> ExponentPart_opt ex ->
    StrUnsignedDecimalLiteral (ip +:+ ex).


(** NonDecimalIntegerLiteral: a radix prefix and one digit of the radix or
    more. *)
Inductive NonDecimalIntegerLiteral : string -> Prop :=
| NonDecimal_hex (c : ascii) (r : string) :
    c = "x"%char \/ c = "X"%char -> r <> "" -> forall_chars (is_radix_digit 16) r = true ->
    NonDecimalIntegerLiteral (String "0" (String c r))
| NonDecimal_octal (c : ascii) (r : string) :
    c = "o"%char \/ c = "O"%char -> r <> "" -> forall_chars (is_radix_digit 8) r = true ->
    NonDecimalIntegerLiteral (String "0" (String c r))
| NonDecimal_binary (c : ascii) (r : string) :
    c = "b"%char \/ c = "B"%char -> r <> "" -> forall_chars (is_radix_digit 2) r = true ->
    NonDecimalIntegerLiteral (String "0" (String c r)).


End Grammar.

(** * Properties *)

(** ** Rounding *)

Lemma nearest_even_exact (a d : Z) : 0 < d -> Double.nearest_even (a * d) d = a.
Proof.
  intros Hd. unfold Double.nearest_even.
  rewrite Z.div_mul, Z.mod_mul by lia.
  change (2 * 0) with 0. by destruct (Z.compare_spec 0 d); try lia.
Qed.

Lemma Qred_inject_Z (z : Z) : Qred (inject_Z z) = inject_Z z.
Proof.
  unfold Qred, inject_Z.
  pose proof (Z.ggcd_gcd z 1) as Hg.
  pose proof (Z.ggcd_correct_divisors z 1) as Hd.
  destruct (Z.ggcd z 1) as [g [a b]]. cbn [fst snd] in *.
  rewrite Z.gcd_1_r in Hg. subst g. destruct Hd as [Ha Hb].
  assert (a = z) as -> by lia. assert (b = 1) as -> by lia. done.
Qed.

Lemma scaled_exact (z u : Z) :
  u <= 0 -> Double.scaled (z * 2 ^ (- u)) u = inject_Z z.
Proof.
  intros Hu. unfold Double.scaled.
  rewrite <- (Qred_inject_Z z). apply Qred_complete.
  destruct (Z.leb_spec 0 u).
  - assert (u = 0) as -> by lia. simpl. unfold Qeq. simpl. lia.
  - unfold Qeq, inject_Z. cbn [Qnum Qden].
    rewrite Z2Pos.id by (apply Z.pow_pos_nonneg; lia). lia.
Qed.

(** An integer of magnitude at most 2^53 is a double: rounding keeps it. *)
Lemma round_ofZ (z : Z) :
  Z.abs z <= 2 ^ 53 -> Double.round (inject_Z z) = Double.ofZ z.
Proof.
  intros Hz. unfold Double.round, Double.ofZ. rewrite Qred_inject_Z.
  cbn [Qnum Qden inject_Z].
  destruct (Z.eqb_spec (Z.abs z) 0) as [H0|H0].
  { assert (z = 0) as -> by lia. done. }
  set (n := Z.abs z) in *.
  assert (0 < n) as Hn by lia.
  pose proof (Z.log2_spec n Hn) as [Hlo Hhi].
  pose proof (Z.log2_nonneg n) as Hk.
  assert (Z.log2 n <= 53) as Hk53.
  { destruct (Z.le_gt_cases (Z.log2 n) 53) as [|Hgt]; [done|].
    assert (2 ^ 54 <= 2 ^ Z.log2 n) by (apply Z.pow_le_mono_r; lia). lia. }
  unfold Double.ilog2. change (Z.log2 1) with 0. rewrite Z.sub_0_r.
  rewrite (proj2 (Z.leb_le 0 (Z.log2 n))) by done.
  rewrite Z.mul_1_l. rewrite (proj2 (Z.leb_le _ _) Hlo).
  rewrite Z.max_l by lia.
  set (k := Z.log2 n) in *.
  assert (2 ^ 53 < 2 ^ 53 * 2 ^ 971) as Hmax by (vm_compute; reflexivity).
  destruct (Z.leb_spec 0 (k - 52)) as [Hu|Hu].
  - assert (exists m, n = m * 2 ^ (k - 52)) as [m Hm].
    { assert (k = 52 \/ k = 53) as [->| ->] by lia.
      - exists n. change (2 ^ (52 - 52)) with 1. lia.
      - exists (2 ^ 52).
        assert (n = 2 ^ 53) as -> by (change (2 ^ 53) with 9007199254740992 in *; lia).
        reflexivity. }
    rewrite Z.mul_1_l.
    assert (Double.nearest_even n (2 ^ (k - 52)) = m) as ->.
    { rewrite Hm. apply nearest_even_exact. apply Z.pow_pos_nonneg; lia. }
    rewrite Z.max_l by lia. rewrite <- Hm.
    destruct (Z.leb_spec (2 ^ 53 * 2 ^ 971) n) as [Hbig|_]; [lia|].
    f_equal. unfold Double.scaled. rewrite (proj2 (Z.leb_le _ _) Hu).
    rewrite <- Z.mul_assoc, <- Hm.
    replace (Z.sgn z * n) with z by (unfold n; lia).
    apply Qred_inject_Z.
  - replace (n * 2 ^ (- (k - 52))) with ((n * 2 ^ (- (k - 52))) * 1) by lia.
    rewrite nearest_even_exact by lia.
    rewrite Z.max_r by lia. rewrite Z.mul_1_r.
    assert (n * 2 ^ (- (k - 52)) < 2 ^ 53) as Hlt.
    { replace 53 with ((k + 1) + (- (k - 52))) by lia.
      rewrite Z.pow_add_r by lia.
      apply Z.mul_lt_mono_pos_r; [apply Z.pow_pos_nonneg; lia|done]. }
    destruct (Z.leb_spec (2 ^ 53 * 2 ^ 971) (n * 2 ^ (- (k - 52)))) as [Hbig|_]; [lia|].
    f_equal. rewrite Z.mul_assoc.
    replace (Z.sgn z * n) with z by (unfold n; lia).
    apply scaled_exact. lia.
Qed.

(** Integers add exactly as long as the sum stays within 2^53. *)
Lemma add_ofZ (a b : Z) :
  Z.abs (a + b) <= 2 ^ 53 ->
  Double.add (Double.ofZ a) (Double.ofZ b) = Double.ofZ (a + b).
Proof.
  intros Hab. rewrite <- (round_ofZ (a + b)) by done.
  unfold Double.add, Double.ofZ, Double.round.
  rewrite (Qred_complete (inject_Z a + inject_Z b) (inject_Z (a + b))); [done|].
  by rewrite inject_Z_plus.
Qed.

Lemma toZ_ofZ (z : Z) : Double.toZ (Double.ofZ z) = Some z.
Proof. unfold Double.toZ, Double.ofZ. by rewrite Qred_inject_Z. Qed.

Lemma sumZ_app (l1 l2 : list Z) : sumZ (l1 ++ l2) = sumZ l1 + sumZ l2.
Proof. induction l1 as [|z l1 IH]; simpl; [done|]. rewrite IH. lia. Qed.

Lemma sumD_snoc (l : list double) (a : double) :
  sumD (l ++ [a]) = Double.add (sumD l) a.
Proof. unfold sumD. by rewrite fold_left_app. Qed.

(** A sum of integers is exact when their magnitudes add up to at most
    2^53. *)
Lemma sumD_exact (zs : list Z) :
  sumZ (map Z.abs zs) <= 2 ^ 53 ->
  sumD (map Double.ofZ zs) = Double.ofZ (sumZ zs)
  /\ Z.abs (sumZ zs) <= sumZ (map Z.abs zs).
Proof.
  induction zs as [|z zs IH] using rev_ind; [done|].
  rewrite !map_app, !sumZ_app. simpl. intros Hb.
  assert (0 <= sumZ (map Z.abs zs)) as Hpos.
  { clear. induction zs as [|y zs IH]; simpl; lia. }
  destruct IH as [IH Habs]; [lia|].
  split; [|lia].
  rewrite sumD_snoc, IH, add_ofZ by lia. f_equal. lia.
Qed.


(** ** Tools on lists and strings *)

Lemma fold_push_filter {A : Type} (p : A -> bool) (l acc : list A) :
  fold_left (fun acc e => if p e then acc ++ [e] else acc) l acc
  = acc ++ List.filter p l.
Proof.
  revert acc. induction l as [|e l IH]; intros acc; simpl.
  - by rewrite app_nil_r.
  - rewrite IH. destruct (p e); [by rewrite <- app_assoc|done].
Qed.

Lemma string_length_app (s1 s2 : string) :
  String.length (s1 +:+ s2) = (String.length s1 + String.length s2)%nat.
Proof. induction s1 as [|c s1 IH]; simpl; [done|by rewrite IH]. Qed.

Lemma padStart_full (n : nat) (c : ascii) (s : string) :
  (n <= String.length s)%nat -> padStart n c s = s.
Proof.
  intros Hn. unfold padStart.
  by replace (n - String.length s)%nat with 0%nat by lia.
Qed.

Lemma pretty_year_length (y : Z) :
  1000 <= y <= 9999 -> String.length (pretty y) = 4%nat.
Proof.
  intros Hy. destruct y as [|p|p]; try lia.
  unfold pretty, pretty_Z, pretty, pretty_positive, pretty, pretty_N.
  case_decide; [lia|].
  assert (N.div (N.div (N.div (N.div (N.pos p) 10) 10) 10) 10 = 0)%N as H0.
  { rewrite !N.Div0.div_div. apply N.div_small. lia. }
  rewrite pretty_N_go_step by lia.
  rewrite pretty_N_go_step by (apply N.div_str_pos; lia).
  rewrite pretty_N_go_step by (rewrite N.Div0.div_div; apply N.div_str_pos; lia).
  rewrite pretty_N_go_step by (rewrite !N.Div0.div_div; apply N.div_str_pos; lia).
  by rewrite H0, pretty_N_go_0.
Qed.

Lemma month_length (m : Z) :
  0 <= m <= 11 ->
  String.length (padStart 2 "0"%char (Number_toString (JS.add (Fin m) (Fin 1)))) = 2%nat.
Proof.
  intros Hm.
  assert (m = 0 \/ m = 1 \/ m = 2 \/ m = 3 \/ m = 4 \/ m = 5 \/ m = 6 \/ m = 7
          \/ m = 8 \/ m = 9 \/ m = 10 \/ m = 11) as Hcases by lia.
  repeat (destruct Hcases as [->|Hcases]; [reflexivity|]).
  by subst m.
Qed.

(** ** The month filter (C4) *)

(** C4 at an event of September of the year 999.  The label of the
    specification (and the YYYY-MM the source notes beside monthKey) is
    0999-09; fmtMonth prints the year as it is, 999-09, so the month filter
    drops the event for the key 0999-09 and keeps it for the key 999-09. *)
Lemma month_label_not_four_digits :
  monthLabel (timestamp yearNine) = "0999-09"
  /\ fmtMonth (timestamp yearNine) = "999-09"
  /\ monthFilter [yearNine] "0999-09" = []
  /\ monthFilter [yearNine] "999-09" = [yearNine].
Proof. repeat split; vm_compute; reflexivity. Qed.

(** What the month filter does: an event is kept exactly when fmtMonth of
    its timestamp equals the key; when the local year has four digits
    (1000..9999) and the month index is 0..11, that label is the 4-digit
    year, a hyphen and the 2-digit zero-padded month; an event of
    2025-09-01 matches 2025-09 and no other key. *)
Theorem month_filter_exact (edgesAll : list EdgeEvent) (M : string) (e : EdgeEvent) :
  (In e (monthFilter edgesAll M) <-> In e edgesAll /\ fmtMonth (timestamp e) = M)
  /\ (forall yr m d,
        timestamp e = LocalDate yr m d -> 1000 <= yr <= 9999 -> 0 <= m <= 11 ->
        fmtMonth (timestamp e) = monthLabel (timestamp e)
        /\ String.length (fmtMonth (timestamp e)) = 7%nat
        /\ (In e (monthFilter edgesAll M)
            <-> In e edgesAll /\ monthLabel (timestamp e) = M))
  /\ (forall d, timestamp e = LocalDate 2025 8 d ->
        (In e (monthFilter edgesAll M) <-> In e edgesAll /\ M = "2025-09")).
Proof.
  assert (In e (monthFilter edgesAll M)
          <-> In e edgesAll /\ fmtMonth (timestamp e) = M) as Hfilter.
  { unfold monthFilter. rewrite filter_In, bool_decide_eq_true. done. }
  split; [exact Hfilter|]. split.
  - intros yr m d Hts Hyr Hm.
    assert (fmtMonth (timestamp e) = monthLabel (timestamp e)) as Hlabel.
    { rewrite Hts. unfold fmtMonth, monthLabel; simpl.
      rewrite (padStart_full 4); [done|]. by rewrite pretty_year_length. }
    split; [exact Hlabel|]. split.
    + rewrite Hts. unfold fmtMonth. cbn [getFullYear getMonth Number_toString].
      rewrite !string_length_app, pretty_year_length by done.
      pose proof (month_length m Hm) as Hlen. cbn [JS.add] in Hlen.
      cbn [JS.add]. rewrite Hlen. done.
    + rewrite <- Hlabel. exact Hfilter.
  - intros d Hts. rewrite Hfilter, Hts.
    change (fmtMonth (LocalDate 2025 8 d)) with "2025-09".
    split; intros [Hin HM]; (split; [exact Hin|congruence]).
Qed.

(** [month_filter_exact] at an event of 2025-09-01. *)
Lemma month_filter_exact_witness :
  fmtMonth (LocalDate 2025 8 1) = monthLabel (LocalDate 2025 8 1)
  /\ String.length (fmtMonth (LocalDate 2025 8 1)) = 7%nat.
Proof.
  pose proof (month_filter_exact
                [mkEdge (Some (Double.ofZ 1)) (Some 1) (Some 2) (LocalDate 2025 8 1)
                        (Str "meeting") (Some (Double.ofZ 30)) (Str "Alpha") (Some (Double.ofZ 3)) (Str "")]
                "2025-09"
                (mkEdge (Some (Double.ofZ 1)) (Some 1) (Some 2) (LocalDate 2025 8 1)
                        (Str "meeting") (Some (Double.ofZ 30)) (Str "Alpha") (Some (Double.ofZ 3)) (Str "")))
    as (_ & H & _).
  destruct (H 2025 8 1) as (H1 & H2 & _); [reflexivity|lia|lia|].
  split; [exact H1|exact H2].
Defined.

(** ** The active window (C3) *)

Lemma activeEdges_accumulate (edges : list EdgeEvent) (cutoff : Z) :
  activeEdges edges (Fin cutoff) true
  = List.filter
      (fun e => match dayOfMonth e with Some d => d <=? cutoff | None => false end)
      edges.
Proof.
  unfold activeEdges.
  rewrite (fold_push_filter
             (fun e => (true && JS.le (getDate (timestamp e)) (Fin cutoff))
                       || (negb true && JS.strict_eq (getDate (timestamp e)) (Fin cutoff)))).
  simpl. apply filter_ext. intros e. unfold dayOfMonth.
  destruct (timestamp e) as [|yr m d]; [done|].
  unfold JS.le; simpl. rewrite orb_false_r.
  unfold Z.leb. by destruct (d ?= cutoff).
Qed.

Lemma activeEdges_single (edges : list EdgeEvent) (cutoff : Z) :
  activeEdges edges (Fin cutoff) false
  = List.filter
      (fun e => match dayOfMonth e with Some d => d =? cutoff | None => false end)
      edges.
Proof.
  unfold activeEdges.
  rewrite (fold_push_filter
             (fun e => (false && JS.le (getDate (timestamp e)) (Fin cutoff))
                       || (negb false && JS.strict_eq (getDate (timestamp e)) (Fin cutoff)))).
  simpl. apply filter_ext. intros e. unfold dayOfMonth.
  destruct (timestamp e) as [|yr m d]; [done|].
  unfold JS.strict_eq; simpl.
  destruct (Z.eqb_spec d cutoff) as [->|Hne].
  - by rewrite Z.compare_refl.
  - destruct (d ?= cutoff) eqn:Hc; try done.
    by apply Z.compare_eq_iff in Hc.
Qed.

(** C3: in accumulate mode the active events are exactly the events whose
    day of month is at most the cutoff, in single-day mode exactly those
    whose day of month is the cutoff, each kept once and in order; for
    events on days 1, 5 and 10 and the cutoff 5 that is days 1 and 5, and
    day 5 alone. *)
Theorem active_window_exact (edges : list EdgeEvent) (cutoff : Z) :
  (forall e, In e (activeEdges edges (Fin cutoff) true)
             <-> In e edges /\ exists d, dayOfMonth e = Some d /\ d <= cutoff)
  /\ (forall e, In e (activeEdges edges (Fin cutoff) false)
                <-> In e edges /\ dayOfMonth e = Some cutoff)
  /\ activeEdges edges (Fin cutoff) true
     = List.filter
         (fun e => match dayOfMonth e with Some d => d <=? cutoff | None => false end)
         edges
  /\ activeEdges edges (Fin cutoff) false
     = List.filter
         (fun e => match dayOfMonth e with Some d => d =? cutoff | None => false end)
         edges
  /\ activeEdges [onDay 1; onDay 5; onDay 10] (Fin 5) true = [onDay 1; onDay 5]
  /\ activeEdges [onDay 1; onDay 5; onDay 10] (Fin 5) false = [onDay 5].
Proof.
  split; [|split; [|split; [|split; [|split]]]].
  - intros e. rewrite activeEdges_accumulate, filter_In.
    destruct (dayOfMonth e) as [d|]; split.
    + intros [Hin Hd]. split; [done|]. exists d. split; [done|lia].
    + intros [Hin (d' & [= <-] & Hd)]. split; [done|lia].
    + intros [_ [=]].
    + intros [_ (d' & [=] & _)].
  - intros e. rewrite activeEdges_single, filter_In.
    destruct (dayOfMonth e) as [d|]; split.
    + intros [Hin Hd]. split; [done|]. f_equal. lia.
    + intros [Hin [= ->]]. split; [done|lia].
    + intros [_ [=]].
    + intros [_ [=]].
  - apply activeEdges_accumulate.
  - apply activeEdges_single.
  - reflexivity.
  - reflexivity.
Qed.

(** ** Keys of links *)

Lemma forall_chars_impl (p q : ascii -> bool) (s : string) :
  (forall c, p c = true -> q c = true) ->
  forall_chars p s = true -> forall_chars q s = true.
Proof.
  intros Hpq. induction s as [|c s IH]; simpl; [done|].
  rewrite !andb_true_iff. intros [Hc Hs]. split; [by apply Hpq|by apply IH].
Qed.

Lemma pretty_N_char_numeral (d : N) : numeral_char (pretty_N_char d) = true.
Proof. unfold pretty_N_char. by repeat case_match. Qed.

Lemma pretty_N_go_numeral (n : N) (s : string) :
  forall_chars numeral_char s = true ->
  forall_chars numeral_char (pretty_N_go n s) = true.
Proof.
  revert s. induction (N.lt_wf_0 n) as [n _ IH]; intros s Hs.
  destruct (decide (n = 0)%N) as [->|Hn]; [by rewrite pretty_N_go_0|].
  rewrite pretty_N_go_step by lia. apply IH.
  - apply N.div_lt; lia.
  - simpl. by rewrite pretty_N_char_numeral.
Qed.

Lemma pretty_Z_numeral (z : Z) : forall_chars numeral_char (pretty z) = true.
Proof.
  assert (forall p : positive, forall_chars numeral_char (pretty p) = true) as Hpos.
  { intros p. unfold pretty, pretty_positive, pretty, pretty_N.
    case_decide; [done|]. by apply pretty_N_go_numeral. }
  destruct z as [|p|p]; [done|apply Hpos|].
  change (pretty (Z.neg p)) with ("-" +:+ pretty p). simpl. apply Hpos.
Qed.

Lemma String_of_field_not_bar (o : option Z) :
  forall_chars not_bar (String_of_field o) = true.
Proof.
  destruct o as [z|]; [|done]. simpl.
  apply (forall_chars_impl numeral_char); [|apply pretty_Z_numeral].
  intros c. unfold numeral_char, not_bar, digit.
  destruct (decide (c = "|"%char)) as [->|Hc]; [done|].
  by rewrite (bool_decide_eq_false_2 _ Hc).
Qed.

Lemma String_of_field_inj (o1 o2 : option Z) :
  String_of_field o1 = String_of_field o2 -> o1 = o2.
Proof.
  destruct o1 as [z1|], o2 as [z2|]; simpl; intros Heq.
  - f_equal. by apply (inj pretty).
  - pose proof (pretty_Z_numeral z1) as Hn. by rewrite Heq in Hn.
  - pose proof (pretty_Z_numeral z2) as Hn. by rewrite <- Heq in Hn.
  - done.
Qed.

(** Text before and after the first bar: the two halves of a key. *)
Lemma bar_split (a b c d : string) :
  forall_chars not_bar a = true -> forall_chars not_bar c = true ->
  a +:+ "|" +:+ b = c +:+ "|" +:+ d -> a = c /\ b = d.
Proof.
  revert c. induction a as [|x a IH]; intros [|z c] Ha Hc Heq;
    simpl in Ha, Hc; cbn in Heq.
  - by simplify_eq.
  - apply andb_true_iff in Hc as [Hz _]. by simplify_eq.
  - apply andb_true_iff in Ha as [Hx _]. by simplify_eq.
  - apply andb_true_iff in Ha as [_ Ha]. apply andb_true_iff in Hc as [_ Hc].
    injection Heq as -> Heq.
    destruct (IH c Ha Hc Heq) as [-> ->]. done.
Qed.

Lemma linkKey_ordered (a b : option Z) :
  linkKey a b
  = String_of_field (fst (ordered a b)) +:+ "|" +:+ String_of_field (snd (ordered a b)).
Proof. unfold linkKey, ordered. by destruct (JS.lt _ _). Qed.

Lemma linkKey_inj (a b c d : option Z) :
  linkKey a b = linkKey c d -> ordered a b = ordered c d.
Proof.
  rewrite !linkKey_ordered. intros Heq.
  apply bar_split in Heq as [H1 H2]; try apply String_of_field_not_bar.
  apply String_of_field_inj in H1, H2.
  destruct (ordered a b), (ordered c d); simpl in *; congruence.
Qed.

Lemma ordered_numbers (a b : Z) :
  ordered (Some a) (Some b) = (Some (Z.min a b), Some (Z.max a b)).
Proof.
  unfold ordered, JS.lt; simpl.
  destruct (Z.compare_spec a b) as [->|Hlt|Hgt].
  - by rewrite Z.min_id, Z.max_id.
  - by rewrite Z.min_l, Z.max_r by lia.
  - by rewrite Z.min_r, Z.max_l by lia.
Qed.

Lemma samePair_key (a b : Z) (s t : option Z) :
  samePair a b s t = bool_decide (linkKey s t = linkKey (Some a) (Some b)).
Proof.
  apply eq_true_iff_eq. unfold samePair.
  rewrite orb_true_iff, !bool_decide_eq_true. split.
  - intros [[-> ->]|[-> ->]]; [done|].
    rewrite !linkKey_ordered, !ordered_numbers.
    by rewrite Z.min_comm, Z.max_comm.
  - intros Heq%linkKey_inj. rewrite ordered_numbers in Heq.
    unfold ordered in Heq.
    destruct s as [s|], t as [t|]; simpl in Heq;
      try (unfold JS.lt in Heq; simpl in Heq; congruence).
    unfold JS.lt in Heq; simpl in Heq.
    assert ((s = a /\ t = b) \/ (s = b /\ t = a)) as [[-> ->]|[-> ->]];
      [|by left|by right].
    destruct (Z.compare_spec s t); injection Heq as H1 H2; lia.
Qed.

(** ** The map of links *)

Lemma Map_get_set {V : Type} (k k' : string) (v : V) (m : list (string * V)) :
  Map_get k (Map_set k' v m) = if decide (k = k') then Some v else Map_get k m.
Proof.
  induction m as [|[k0 v0] m IH]; simpl.
  - by repeat case_decide.
  - destruct (decide (k' = k0)) as [->|Hne]; simpl.
    + by repeat case_decide.
    + rewrite IH. repeat case_decide; congruence.
Qed.

Lemma Map_get_None {V : Type} (k : string) (m : list (string * V)) :
  Map_get k m = None <-> ~ In k (map fst m).
Proof.
  induction m as [|[k0 v0] m IH]; simpl; [tauto|].
  case_decide as Hk.
  - split; [done|]. intros Hno. destruct Hno. by left.
  - rewrite IH. split.
    + intros Hno [Heq|Hin]; [congruence|tauto].
    + intros Hno Hin. apply Hno. by right.
Qed.

Lemma Map_set_keys {V : Type} (k : string) (v : V) (m : list (string * V)) :
  map fst (Map_set k v m)
  = match Map_get k m with
    | Some _ => map fst m
    | None => map fst m ++ [k]
    end.
Proof.
  induction m as [|[k0 v0] m IH]; simpl; [done|].
  case_decide; simpl; [by subst|].
  rewrite IH. by destruct (Map_get k m).
Qed.

Lemma Map_set_NoDup {V : Type} (k : string) (v : V) (m : list (string * V)) :
  List.NoDup (map fst m) -> List.NoDup (map fst (Map_set k v m)).
Proof.
  intros Hm. rewrite Map_set_keys.
  destruct (Map_get k m) eqn:Hget; [done|].
  apply Map_get_None in Hget.
  apply NoDup_ListNoDup, NoDup_app. split; [by apply NoDup_ListNoDup|].
  split; [|apply NoDup_singleton].
  intros k' Hin%list_elem_of_In ->%list_elem_of_singleton. done.
Qed.

Lemma Map_get_In {V : Type} (k : string) (v : V) (m : list (string * V)) :
  List.NoDup (map fst m) -> In (k, v) m -> Map_get k m = Some v.
Proof.
  induction m as [|[k0 v0] m IH]; simpl; [done|].
  intros [Hk0 Hm]%List.NoDup_cons_iff [[= -> ->]|Hin].
  - by case_decide.
  - case_decide as Hk; [|by apply IH].
    subst k0. destruct Hk0. apply in_map_iff. by exists (k, v).
Qed.

(** The values whose key is [K], when a predicate on values tells the key. *)
Lemma Map_values_filter {V : Type} (p : V -> bool) (K : string) (m : list (string * V)) :
  List.NoDup (map fst m) ->
  (forall k v, In (k, v) m -> p v = bool_decide (k = K)) ->
  List.filter p (Map_values m)
  = match Map_get K m with Some v => [v] | None => [] end.
Proof.
  unfold Map_values.
  induction m as [|[k0 v0] m IH]; simpl; [done|].
  intros [Hk0 Hm]%List.NoDup_cons_iff Hp.
  rewrite (Hp k0 v0) by by left.
  specialize (IH Hm (fun k v Hin => Hp k v (or_intror Hin))).
  destruct (decide (K = k0)) as [->|Hne].
  - rewrite bool_decide_eq_true_2 by done. f_equal.
    rewrite IH. apply Map_get_None in Hk0. by rewrite Hk0.
  - rewrite bool_decide_eq_false_2 by done. exact IH.
Qed.

Lemma linkMapOf_last (es : list EdgeEvent) (e : EdgeEvent) :
  linkMapOf (es ++ [e]) = addEvent (linkMapOf es) e.
Proof. unfold linkMapOf. by rewrite fold_left_app. Qed.

Lemma linkMapOf_get (es : list EdgeEvent) (k : string) :
  Map_get k (linkMapOf es) = linkFor k es.
Proof.
  revert k. induction es as [|e es IH] using rev_ind; intros k; [done|].
  rewrite linkMapOf_last. unfold addEvent. rewrite Map_get_set.
  unfold linkFor. rewrite List.filter_app. simpl.
  fold (keyOf e). case_decide as Hk.
  - subst k. rewrite bool_decide_eq_true_2 by done.
    rewrite IH. unfold linkFor.
    destruct (List.filter _ es) as [|e0 r]; [done|].
    cbn [total l_source l_target events]. fold (contribution e).
    rewrite <- sumD_snoc. change [contribution e] with (map contribution [e]).
    by rewrite <- map_app.
  - rewrite bool_decide_eq_false_2 by done. rewrite app_nil_r. apply IH.
Qed.

Lemma linkMapOf_NoDup (es : list EdgeEvent) : List.NoDup (map fst (linkMapOf es)).
Proof.
  induction es as [|e es IH] using rev_ind; [constructor|].
  rewrite linkMapOf_last. by apply Map_set_NoDup.
Qed.

(** The contributions of events that are integers add up exactly as long
    as their magnitudes add up to at most 2^53. *)
Lemma sumD_whole (es : list EdgeEvent) :
  Forall whole es -> magnitude es <= 2 ^ 53 ->
  sumD (map contribution es) = Double.ofZ (sumZ (map units es)).
Proof.
  intros Hwhole Hmag.
  assert (map contribution es = map Double.ofZ (map units es)) as ->.
  { rewrite map_map. apply map_ext_in. intros e He.
    rewrite List.Forall_forall in Hwhole. by apply Hwhole. }
  apply sumD_exact. unfold magnitude in Hmag. by rewrite map_map.
Qed.

Lemma linkFor_key (k : string) (es : list EdgeEvent) (l : LinkAgg) :
  linkFor k es = Some l -> linkKey (l_source l) (l_target l) = k.
Proof.
  unfold linkFor. destruct (List.filter _ es) as [|e0 r] eqn:Hf; [done|].
  intros [= <-]. simpl.
  assert (In e0 (List.filter (fun e => bool_decide (keyOf e = k)) es)) as Hin
    by (rewrite Hf; by left).
  apply filter_In in Hin as [_ Hk]. by apply bool_decide_eq_true in Hk.
Qed.

(** ** Link aggregation (C1) *)

(** C1: for every active event set and every pair of person ids [a], [b],
    the links joining [a] and [b] are: none when no active event joins them,
    and otherwise exactly one, whose events are the active events joining
    them in either orientation and whose total is the sum of their
    contributions, added up in doubles in the order of the events; that sum
    is the exact one when the contributions are integers whose magnitudes
    add up to at most 2^53; the key has the smaller id first; no two links
    share a key; the links of a graph are those of its active events; the
    events 3->7 (weight 2) and 7->3 (weight 5) give the single link of
    total 7, and the events 3->7 (weight 2^53) and 7->3 (weight 1) the
    single link of total 2^53, the sum 2^53 + 1 being no double. *)
Theorem one_link_per_pair (active : list EdgeEvent) (a b : Z) :
  let evs := List.filter (fun e => samePair a b (source e) (target e)) active in
  List.filter (fun l => samePair a b (l_source l) (l_target l)) (linksOf active)
  = match evs with
    | [] => []
    | e0 :: _ => [mkLink (source e0) (target e0) (sumD (map contribution evs)) evs]
    end
  /\ (Forall whole evs -> magnitude evs <= 2 ^ 53 ->
      sumD (map contribution evs) = Double.ofZ (sumZ (map units evs)))
  /\ linkKey (Some a) (Some b) = pretty (Z.min a b) +:+ "|" +:+ pretty (Z.max a b)
  /\ List.NoDup (map (fun l => linkKey (l_source l) (l_target l)) (linksOf active))
  /\ (forall p day accumulate g,
        graph (Some p) day accumulate = Some g ->
        g_links g = linksOf (activeEdges (edges p) day accumulate))
  /\ linksOf [event37; event73]
     = [mkLink (Some 3) (Some 7) (Double.ofZ 7) [event37; event73]]
  /\ linksOf [heavy37; light73]
     = [mkLink (Some 3) (Some 7) (Double.ofZ (2 ^ 53)) [heavy37; light73]].
Proof.
  intros evs. split; [|split; [|split; [|split; [|split; [|split]]]]].
  - unfold linksOf.
    rewrite (Map_values_filter _ (linkKey (Some a) (Some b))).
    + rewrite linkMapOf_get. unfold linkFor, evs.
      rewrite (filter_ext (fun e => bool_decide (keyOf e = linkKey (Some a) (Some b)))
                          (fun e => samePair a b (source e) (target e)));
        [by destruct (List.filter _ active)|].
      intros e. by rewrite samePair_key.
    + apply linkMapOf_NoDup.
    + intros k l Hin.
      apply Map_get_In in Hin; [|apply linkMapOf_NoDup].
      rewrite linkMapOf_get in Hin. apply linkFor_key in Hin.
      rewrite samePair_key. by rewrite Hin.
  - apply sumD_whole.
  - by rewrite linkKey_ordered, ordered_numbers.
  - pose proof (linkMapOf_NoDup active) as Hnd.
    unfold linksOf, Map_values. rewrite map_map.
    erewrite map_ext_in; [exact Hnd|].
    intros [k l] Hin. simpl.
    apply Map_get_In in Hin; [|done].
    rewrite linkMapOf_get in Hin. by apply linkFor_key in Hin.
  - by intros p day accumulate g [= <-].
  - vm_compute. reflexivity.
  - vm_compute. reflexivity.
Qed.

(** ** Degrees (C2) *)

Lemma orZero_ofZ (z : Z) : orZero (Double.ofZ z) = Double.ofZ z.
Proof.
  unfold orZero, Double.or_else, Double.truthy, Double.ofZ. cbn [Qnum inject_Z].
  by destruct (Z.eqb_spec z 0) as [->|].
Qed.

Lemma orZero_or_else (o : option double) :
  orZero (Double.or_else o (Double.ofZ 0)) = Double.or_else o (Double.ofZ 0).
Proof.
  unfold orZero. destruct o as [a|]; cbn [Double.or_else]; [|done].
  destruct (Double.truthy a) eqn:Ha; [by rewrite Ha|done].
Qed.

Lemma orZero_idemp (d : double) : orZero (orZero d) = orZero d.
Proof. apply (orZero_or_else (Some d)). Qed.

Lemma credit_fold_orZero (cs : list double) (d : double) :
  orZero (fold_left (fun d t => Double.add (orZero d) t) cs (orZero d))
  = orZero (fold_left (fun d t => Double.add (orZero d) t) cs d).
Proof.
  destruct cs as [|c cs]; simpl; [apply orZero_idemp|]. by rewrite orZero_idemp.
Qed.

Lemma credits_cons (p : option Z) (l : LinkAgg) (links : list LinkAgg) :
  credits p (l :: links) = credits p [l] ++ credits p links.
Proof. unfold credits. cbn [flat_map]. by rewrite app_nil_r. Qed.

Lemma degStep_lookup (deg : gmap (option Z) double) (l : LinkAgg) (p : option Z) :
  Double.or_else (degStep deg l !! p) (Double.ofZ 0)
  = orZero (fold_left (fun d t => Double.add (orZero d) t) (credits p [l])
                      (Double.or_else (deg !! p) (Double.ofZ 0))).
Proof.
  unfold degStep, credits. cbn [flat_map]. rewrite app_nil_r.
  destruct (decide (l_target l = p)) as [Ht|Ht], (decide (l_source l = p)) as [Hs|Hs].
  - rewrite Ht, Hs. rewrite !lookup_insert_eq. cbn [app fold_left].
    by rewrite orZero_or_else.
  - rewrite Ht. rewrite lookup_insert_eq, lookup_insert_ne by done.
    cbn [app fold_left]. by rewrite orZero_or_else.
  - rewrite Hs. rewrite lookup_insert_ne, lookup_insert_eq by done.
    cbn [app fold_left]. by rewrite orZero_or_else.
  - rewrite !lookup_insert_ne by done. cbn [app fold_left].
    by rewrite orZero_or_else.
Qed.

Lemma degMap_from (links : list LinkAgg) (deg0 : gmap (option Z) double) (p : option Z) :
  Double.or_else (fold_left degStep links deg0 !! p) (Double.ofZ 0)
  = orZero (fold_left (fun d t => Double.add (orZero d) t) (credits p links)
                      (Double.or_else (deg0 !! p) (Double.ofZ 0))).
Proof.
  revert deg0. induction links as [|l links IH]; intros deg0.
  - cbn [fold_left credits flat_map]. by rewrite orZero_or_else.
  - cbn [fold_left]. rewrite IH, degStep_lookup.
    rewrite (credits_cons p l links), fold_left_app.
    by rewrite credit_fold_orZero.
Qed.

Lemma degMap_lookup (links : list LinkAgg) (p : option Z) :
  Double.or_else (degMap links !! p) (Double.ofZ 0) = incidentTotal p links.
Proof.
  unfold degMap. rewrite degMap_from. by rewrite lookup_empty.
Qed.

(** The credits of integers add up exactly as long as their magnitudes add
    up to at most 2^53. *)
Lemma credit_fold_exact (zs : list Z) (a : Z) :
  Z.abs a + sumZ (map Z.abs zs) <= 2 ^ 53 ->
  fold_left (fun d t => Double.add (orZero d) t) (map Double.ofZ zs) (Double.ofZ a)
  = Double.ofZ (a + sumZ zs).
Proof.
  revert a. induction zs as [|z zs IH]; intros a Hb; simpl.
  - f_equal. lia.
  - assert (0 <= sumZ (map Z.abs zs)) as Hpos.
    { clear. induction zs as [|y zs IH]; simpl; lia. }
    simpl in Hb. rewrite orZero_ofZ, add_ofZ by lia.
    rewrite IH by lia. f_equal. lia.
Qed.

Lemma incidentTotal_exact (p : option Z) (links : list LinkAgg) (zs : list Z) :
  credits p links = map Double.ofZ zs -> sumZ (map Z.abs zs) <= 2 ^ 53 ->
  incidentTotal p links = Double.ofZ (sumZ zs).
Proof.
  intros Hcs Hb. unfold incidentTotal. rewrite Hcs.
  rewrite credit_fold_exact by (simpl; lia). by rewrite orZero_ofZ.
Qed.

(** C2: for every list of links, the degree computed for a person is the sum
    over the links of the link's total, once for each endpoint that is the
    person (the full total goes to both endpoints), added up in doubles in
    the order of the links; that sum is the exact one when the totals are
    integers whose magnitudes add up to at most 2^53; a person that no link
    touches gets 0; so it is for the persons of every graph the component
    builds; with the single link (3, 7, total 7) the persons 3 and 7 get 7
    and a third person gets 0; with links of totals 2^53 and 1 at person 3
    the degree of person 3 is 2^53, the sum 2^53 + 1 being no double. *)
Theorem degree_is_incident_total (persons : list NodeRec) (links : list LinkAgg) :
  nodesWithDeg persons links
  = map (fun n => mkNode (id n) (name n) (role n) (team n) (location n) (email n)
                         (incidentTotal (id n) links) (x n) (y n)) persons
  /\ map degree (nodesWithDeg persons links)
     = map (fun n => incidentTotal (id n) links) persons
  /\ (forall p zs,
        credits p links = map Double.ofZ zs -> sumZ (map Z.abs zs) <= 2 ^ 53 ->
        incidentTotal p links = Double.ofZ (sumZ zs))
  /\ (forall p, (forall l, In l links -> l_source l <> p /\ l_target l <> p) ->
                credits p links = [] /\ incidentTotal p links = Double.ofZ 0)
  /\ (forall p day accumulate g,
        graph (Some p) day accumulate = Some g ->
        map degree (g_nodes g)
        = map (fun n => incidentTotal (id n) (g_links g)) (nodes p))
  /\ map degree (nodesWithDeg [person 3; person 7; person 9]
                              [mkLink (Some 3) (Some 7) (Double.ofZ 7) [event37; event73]])
     = [Double.ofZ 7; Double.ofZ 7; Double.ofZ 0]
  /\ map degree (nodesWithDeg [person 3; person 7; person 9]
                              [mkLink (Some 3) (Some 7) (Double.ofZ (2 ^ 53)) [heavy37];
                               mkLink (Some 9) (Some 3) (Double.ofZ 1) [light73]])
     = [Double.ofZ (2 ^ 53); Double.ofZ (2 ^ 53); Double.ofZ 1].
Proof.
  assert (forall ns ls,
            nodesWithDeg ns ls
            = map (fun n => mkNode (id n) (name n) (role n) (team n) (location n)
                                   (email n) (incidentTotal (id n) ls) (x n) (y n))
                  ns) as Hnodes.
  { intros ns ls. unfold nodesWithDeg. apply map_ext. intros n. unfold withDegree.
    by rewrite degMap_lookup. }
  split; [apply Hnodes|]. split; [|split; [|split; [|split; [|split]]]].
  - rewrite Hnodes, map_map. done.
  - intros p zs. apply incidentTotal_exact.
  - intros p Hno.
    assert (credits p links = []) as Hnil.
    { unfold credits. induction links as [|l links IH]; [done|]. cbn [flat_map].
      destruct (Hno l) as [Hs Ht]; [by left|].
      rewrite !decide_False by done. simpl. apply IH.
      intros l' Hin. apply Hno. by right. }
    split; [done|]. unfold incidentTotal. by rewrite Hnil.
  - intros p day accumulate g [= <-]. cbn [g_nodes g_links].
    rewrite Hnodes, map_map. done.
  - vm_compute. reflexivity.
  - vm_compute. reflexivity.
Qed.

(** ** Normalisation of rows *)

Lemma toNum_of_number (v : any) (n : double) :
  ToNumber v = Within n ->
  toNum v = Within (if Double.isFinite n then Some n else None).
Proof. unfold toNum. by intros ->. Qed.



Lemma edgeOfRow_fields (d : EdgeRow.t) (e : EdgeEvent) :
  edgeOfRow d = Within e ->
  toNum (EdgeRow.event_id d) = Within (event_id e)
  /\ toNum (EdgeRow.source d) ≫= integer = Within (source e)
  /\ toNum (EdgeRow.target d) ≫= integer = Within (target e)
  /\ toNum (EdgeRow.duration_minutes d) = Within (duration_minutes e)
  /\ toNum (EdgeRow.weight d) = Within (weight e)
  /\ timestamp e = EdgeRow.timestamp d.
Proof.
  unfold edgeOfRow.
  destruct (toNum (EdgeRow.event_id d)) as [i|]; [|done].
  destruct (toNum (EdgeRow.source d) ≫= integer) as [s|]; [|done].
  destruct (toNum (EdgeRow.target d) ≫= integer) as [t|]; [|done].
  destruct (toNum (EdgeRow.duration_minutes d)) as [m|]; [|done].
  destruct (toNum (EdgeRow.weight d)) as [w|]; [|done].
  by intros [= <-].
Qed.

Lemma addEvent_total (linkMap : list (string * LinkAgg)) (e : EdgeEvent) :
  exists l,
    Map_get (keyOf e) (addEvent linkMap e) = Some l
    /\ total l
       = Double.add
           (match Map_get (keyOf e) linkMap with
            | Some l0 => total l0
            | None => Double.ofZ 0
            end)
           (contribution e).
Proof.
  unfold addEvent. fold (keyOf e). rewrite Map_get_set, decide_True by done.
  eexists. split; [done|]. simpl. by destruct (Map_get (keyOf e) linkMap).
Qed.

(** ** The default weight (C5) *)

(** C5: an event whose weight cell is absent, or coerces to NaN, to an
    infinity or to 0, contributes exactly 1 to the total of its link; an
    event whose weight is a positive finite number, whole or fractional,
    contributes that number; no event contributes 0.  The contribution is
    added to the total as doubles are: the new total is the double nearest to
    the exact sum, which is the exact sum as long as total and contribution
    are integers and the sum stays within 2^53 (at a total of 2^53 a
    contribution of 1 is rounded away). *)
Theorem weight_default (d : EdgeRow.t) (e : EdgeEvent) (n : double) :
  edgeOfRow d = Within e ->
  ToNumber (EdgeRow.weight d) = Within n ->
  contribution e
  = match n with
    | Double.NaN | Double.PosInf | Double.NegInf => Double.ofZ 1
    | Double.Fin q => if Qnum q =? 0 then Double.ofZ 1 else Double.Fin q
    end
  /\ (EdgeRow.weight d = Undefined -> contribution e = Double.ofZ 1)
  /\ (forall q, n = Double.Fin q -> (0 < q)%Q -> contribution e = Double.Fin q)
  /\ Double.truthy (contribution e) = true
  /\ (forall linkMap, exists l,
        Map_get (keyOf e) (addEvent linkMap e) = Some l
        /\ total l
           = Double.add
               (match Map_get (keyOf e) linkMap with
                | Some l0 => total l0
                | None => Double.ofZ 0
                end)
               (contribution e))
  /\ (forall t c, Z.abs (t + c) <= 2 ^ 53 ->
        Double.add (Double.ofZ t) (Double.ofZ c) = Double.ofZ (t + c))
  /\ Double.add (Double.ofZ (2 ^ 53)) (Double.ofZ 1) = Double.ofZ (2 ^ 53).
Proof.
  intros (_ & _ & _ & _ & Hw & _)%edgeOfRow_fields Hn.
  rewrite (toNum_of_number _ _ Hn) in Hw. injection Hw as Hw.
  assert (contribution e
          = match n with
            | Double.NaN | Double.PosInf | Double.NegInf => Double.ofZ 1
            | Double.Fin q => if Qnum q =? 0 then Double.ofZ 1 else Double.Fin q
            end) as Hc.
  { unfold contribution. rewrite <- Hw. destruct n as [| | |q]; try done.
    cbn [Double.isFinite Double.or_else Double.truthy].
    by destruct (Qnum q =? 0). }
  split; [exact Hc|]. split; [|split; [|split; [|split; [|split]]]].
  - intros Hu. rewrite Hu in Hn. injection Hn as <-. exact Hc.
  - intros q -> Hq. rewrite Hc.
    destruct (Z.eqb_spec (Qnum q) 0) as [H0|]; [|done].
    unfold Qlt in Hq. simpl in Hq. lia.
  - rewrite Hc. destruct n as [| | |q]; try done.
    destruct (Z.eqb_spec (Qnum q) 0) as [H0|H0]; [done|].
    cbn [Double.truthy]. by apply negb_true_iff, Z.eqb_neq.
  - intros linkMap. apply addEvent_total.
  - intros t c. apply add_ofZ.
  - vm_compute. reflexivity.
Qed.

(** [weight_default] at rows whose weight cell reads 0, Infinity, 3 and
    1.5. *)
Lemma weight_default_witness :
  contribution (mkEdge (Some (Double.ofZ 1)) (Some 3) (Some 7) (LocalDate 2025 8 1) (Str "meeting")
                       (Some (Double.ofZ 30)) (Str "Alpha") (Some (Double.ofZ 0)) (Str ""))
  = Double.ofZ 1
  /\ contribution (mkEdge (Some (Double.ofZ 1)) (Some 3) (Some 7) (LocalDate 2025 8 1) (Str "meeting")
                          (Some (Double.ofZ 30)) (Str "Alpha") None (Str ""))
     = Double.ofZ 1
  /\ contribution (mkEdge (Some (Double.ofZ 1)) (Some 3) (Some 7) (LocalDate 2025 8 1) (Str "meeting")
                          (Some (Double.ofZ 30)) (Str "Alpha") (Some (Double.ofZ 3)) (Str ""))
     = Double.ofZ 3
  /\ contribution (mkEdge (Some (Double.ofZ 1)) (Some 3) (Some 7) (LocalDate 2025 8 1) (Str "meeting")
                          (Some (Double.ofZ 30)) (Str "Alpha") (Some (Double.Fin (3 # 2))) (Str ""))
     = Double.Fin (3 # 2).
Proof.
  split; [|split; [|split]].
  - exact (proj1 (weight_default (rowOfWeight (Str "0")) _ (Double.ofZ 0) eq_refl eq_refl)).
  - exact (proj1 (weight_default (rowOfWeight (Str "Infinity")) _ Double.PosInf
                    eq_refl eq_refl)).
  - exact (proj1 (weight_default (rowOfWeight (Str "3")) _ (Double.ofZ 3) eq_refl eq_refl)).
  - exact (proj1 (weight_default (rowOfWeight (Str "1.5")) _ (Double.Fin (3 # 2))
                    eq_refl eq_refl)).
Defined.

(** ** The reader of numeric literals *)


Lemma is_digit_spec (c : ascii) :
  Grammar.is_digit c = true <-> exists d, digit c = Some d.
Proof. unfold Grammar.is_digit. rewrite bool_decide_eq_true. done. Qed.

Lemma not_digit_spec (c : ascii) : Grammar.is_digit c = false <-> digit c = None.
Proof.
  unfold Grammar.is_digit. rewrite bool_decide_eq_false.
  destruct (digit c) as [d|].
  - split; [intros Hno; destruct Hno; by eexists|done].
  - split; [done|by intros _ [d' ?]].
Qed.

Lemma digits_all (s : string) (acc : Z) :
  (exists z, digits acc s = Some z) <-> forall_chars Grammar.is_digit s = true.
Proof.
  revert acc. induction s as [|c s IH]; intros acc; simpl.
  - split; [done|]. intros _. by eexists.
  - destruct (digit c) as [d|] eqn:Hd.
    + rewrite (proj2 (is_digit_spec c)) by by eexists. simpl. apply IH.
    + rewrite (proj2 (not_digit_spec c)) by done. simpl.
      split; [by intros [z ?]|done].
Qed.



Lemma span_digits_app (ds r : string) :
  forall_chars Grammar.is_digit ds = true -> stops r ->
  span_digits (ds +:+ r) = (ds, r).
Proof.
  intros Hds Hr. induction ds as [|c ds IH].
  - destruct r as [|c r]; [done|]. simpl in *. by rewrite Hr.
  - change (span_digits (String c (ds +:+ r)) = (String c ds, r)).
    simpl in Hds. apply andb_true_iff in Hds as [Hc Hds].
    apply is_digit_spec in Hc as [d Hd]. simpl. rewrite Hd, IH by done. done.
Qed.







Lemma string_app_nil_r (s : string) : s +:+ "" = s.
Proof.
  induction s as [|a s IH]; [done|].
  change (String a (s +:+ "") = String a s). by rewrite IH.
Qed.








(** ** What the links hold *)






Lemma Map_set_absent {V : Type} (k : string) (v : V) (m : list (string * V)) :
  Map_get k m = None -> Map_set k v m = m ++ [(k, v)].
Proof.
  induction m as [|[k0 v0] m IH]; simpl; [done|].
  case_decide; [done|]. intros Hget. by rewrite IH.
Qed.

Lemma Map_set_present {V : Type} (k : string) (v old : V) (m : list (string * V)) :
  Map_get k m = Some old ->
  exists m1 m2, m = m1 ++ (k, old) :: m2 /\ Map_set k v m = m1 ++ (k, v) :: m2.
Proof.
  induction m as [|[k0 v0] m IH]; simpl; [done|].
  case_decide as Hk.
  - intros [= ->]. subst k0. by exists [], m.
  - intros Hget. destruct (IH Hget) as (m1 & m2 & -> & ->).
    by exists ((k0, v0) :: m1), m2.
Qed.

(** The links before and after one more event: a link is appended, or the
    link of the key gets the contribution and the event. *)
Lemma linksOf_last (es : list EdgeEvent) (e : EdgeEvent) :
  (linkFor (keyOf e) es = None
   /\ linksOf (es ++ [e])
      = linksOf es ++ [mkLink (source e) (target e)
                               (Double.add (Double.ofZ 0) (contribution e)) [e]])
  \/ (exists l ls1 ls2,
        linkFor (keyOf e) es = Some l
        /\ linksOf es = ls1 ++ l :: ls2
        /\ linksOf (es ++ [e])
           = ls1 ++ mkLink (l_source l) (l_target l) (Double.add (total l) (contribution e))
                           (events l ++ [e]) :: ls2).
Proof.
  unfold linksOf, Map_values. rewrite linkMapOf_last. unfold addEvent.
  fold (keyOf e). fold (contribution e). rewrite <- (linkMapOf_get es (keyOf e)).
  destruct (Map_get (keyOf e) (linkMapOf es)) as [l|] eqn:Hget.
  - right. destruct (Map_set_present (keyOf e)
                       (mkLink (l_source l) (l_target l)
                               (Double.add (total l) (contribution e)) (events l ++ [e]))
                       l _ Hget) as (m1 & m2 & Hm & ->).
    exists l, (map snd m1), (map snd m2). split; [done|].
    rewrite Hm, !map_app. done.
  - left. split; [done|]. rewrite Map_set_absent by done.
    rewrite map_app. done.
Qed.

Lemma linksOf_events (active : list EdgeEvent) :
  Permutation (concat (map events (linksOf active))) active.
Proof.
  induction active as [|e es IH] using rev_ind; [done|].
  destruct (linksOf_last es e) as [[_ ->]|(l & ls1 & ls2 & _ & Hes & ->)].
  - rewrite map_app, concat_app. simpl.
    by apply Permutation_app_tail.
  - rewrite Hes in IH. rewrite map_app, concat_app in IH |- *. simpl in *.
    rewrite <- IH. rewrite <- !app_assoc.
    apply Permutation_app_head, Permutation_app_head.
    apply (Permutation_app_comm [e]).
Qed.

Lemma linksOf_link (active : list EdgeEvent) (l : LinkAgg) :
  In l (linksOf active) ->
  events l <> []
  /\ total l = sumD (map contribution (events l))
  /\ forall e, In e (events l) ->
       In e active /\ keyOf e = linkKey (l_source l) (l_target l).
Proof.
  intros Hin.
  assert (linkFor (linkKey (l_source l) (l_target l)) active = Some l) as Hfor.
  { unfold linksOf, Map_values in Hin.
    apply in_map_iff in Hin as ([k l'] & <- & Hin). simpl.
    apply Map_get_In in Hin; [|apply linkMapOf_NoDup].
    rewrite linkMapOf_get in Hin. by rewrite (linkFor_key _ _ _ Hin). }
  unfold linkFor in Hfor.
  destruct (List.filter _ active) as [|e0 r] eqn:Hf; [done|].
  injection Hfor as <-. cbn [events total l_source l_target] in *.
  split; [done|]. split; [done|].
  intros e He. rewrite <- Hf in He. apply filter_In in He as [He Hk].
  by apply bool_decide_eq_true in Hk.
Qed.

Lemma sumZ_Permutation (l1 l2 : list Z) : Permutation l1 l2 -> sumZ l1 = sumZ l2.
Proof. induction 1; simpl; lia. Qed.

Lemma sumZ_concat (ls : list (list Z)) : sumZ (concat ls) = sumZ (map sumZ ls).
Proof. induction ls as [|l ls IH]; simpl; [done|]. by rewrite sumZ_app, IH. Qed.

Lemma sumZ_abs (zs : list Z) : Z.abs (sumZ zs) <= sumZ (map Z.abs zs).
Proof. induction zs as [|z zs IH]; simpl; lia. Qed.

Lemma magnitude_nonneg (es : list EdgeEvent) : 0 <= magnitude es.
Proof. unfold magnitude. induction es as [|e es IH]; simpl; lia. Qed.

(** The magnitudes of the events of the links add up to that of the active
    events. *)
Lemma magnitude_links (active : list EdgeEvent) :
  sumZ (map (fun l => magnitude (events l)) (linksOf active)) = magnitude active.
Proof.
  unfold magnitude at 2.
  rewrite <- (sumZ_Permutation _ _
                (Permutation_map (fun e => Z.abs (units e)) (linksOf_events active))).
  rewrite concat_map, sumZ_concat, !map_map. done.
Qed.

Lemma sumZ_member (f : LinkAgg -> Z) (l : LinkAgg) (ls : list LinkAgg) :
  (forall l', 0 <= f l') -> In l ls -> f l <= sumZ (map f ls).
Proof.
  intros Hf. induction ls as [|l0 ls IH]; [done|]. simpl.
  assert (0 <= sumZ (map f ls)).
  { clear IH. induction ls as [|l1 ls IH]; simpl; [done|]. specialize (Hf l1). lia. }
  intros [->|Hin]; [lia|]. specialize (IH Hin). specialize (Hf l0). lia.
Qed.

(** With contributions that are integers whose magnitudes add up to at most
    2^53, the total of every link is the exact sum of the contributions of
    its events. *)
Lemma linksOf_whole (active : list EdgeEvent) (l : LinkAgg) :
  Forall whole active -> magnitude active <= 2 ^ 53 ->
  In l (linksOf active) ->
  total l = Double.ofZ (totalZ l) /\ Z.abs (totalZ l) <= magnitude (events l).
Proof.
  intros Hwhole Hmag Hin.
  destruct (linksOf_link active l Hin) as (_ & -> & Hevents).
  assert (magnitude (events l) <= magnitude active) as Hle.
  { rewrite <- (magnitude_links active).
    apply (sumZ_member (fun l => magnitude (events l))); [|done].
    intros l'. apply magnitude_nonneg. }
  split.
  - apply sumD_whole; [|lia].
    apply List.Forall_forall. intros e He.
    rewrite List.Forall_forall in Hwhole. apply Hwhole. by apply Hevents.
  - unfold totalZ, magnitude. rewrite <- (map_map units Z.abs). apply sumZ_abs.
Qed.

(** ** Degrees of integer contributions *)

Lemma ordered_endpoints (a b c d p : option Z) :
  ordered a b = ordered c d ->
  (if decide (a = p) then 1 else 0) + (if decide (b = p) then 1 else 0)
  = (if decide (c = p) then 1 else 0) + (if decide (d = p) then 1 else 0).
Proof.
  unfold ordered. destruct (JS.lt _ _), (JS.lt _ _); intros [= -> ->]; lia.
Qed.

Lemma link_endpoints (p : option Z) (l : LinkAgg) (e : EdgeEvent) :
  keyOf e = linkKey (l_source l) (l_target l) ->
  endpointsAt p e
  = (if decide (l_source l = p) then 1 else 0) + (if decide (l_target l = p) then 1 else 0).
Proof.
  intros Hkey%linkKey_inj. unfold endpointsAt. by apply ordered_endpoints.
Qed.

Lemma sumZ_map_scale {A : Type} (c : Z) (f : A -> Z) (l : list A) :
  sumZ (map (fun a => f a * c) l) = sumZ (map f l) * c.
Proof. induction l as [|a l IH]; simpl; [lia|]. rewrite IH. lia. Qed.

(** What the links credit to a person, the totals being exact: each event
    once for each of its endpoints that is the person, and no more than
    twice the magnitude of the events in all. *)
Lemma creditsZ_events (active : list EdgeEvent) (p : option Z) :
  sumZ (creditsZ p (linksOf active))
  = sumZ (map (fun e => units e * endpointsAt p e) active)
  /\ sumZ (map Z.abs (creditsZ p (linksOf active))) <= 2 * magnitude active.
Proof.
  rewrite <- (sumZ_Permutation _ _
                (Permutation_map (fun e => units e * endpointsAt p e)
                                 (linksOf_events active))).
  rewrite <- (magnitude_links active).
  rewrite concat_map, sumZ_concat, !map_map.
  pose proof (linksOf_link active) as Hlink.
  induction (linksOf active) as [|l ls IH]; [done|].
  destruct IH as [IH1 IH2]; [intros l' Hl'; apply Hlink; by right|].
  destruct (Hlink l) as (_ & _ & Hev); [by left|].
  assert (sumZ (map (fun e => units e * endpointsAt p e) (events l))
          = totalZ l * ((if decide (l_source l = p) then 1 else 0)
                        + (if decide (l_target l = p) then 1 else 0))) as Hl.
  { unfold totalZ. rewrite <- sumZ_map_scale. f_equal.
    apply map_ext_in. intros e He. f_equal. apply link_endpoints. by apply Hev. }
  assert (Z.abs (totalZ l) <= magnitude (events l)) as Habs.
  { unfold totalZ, magnitude. rewrite <- (map_map units Z.abs). apply sumZ_abs. }
  unfold creditsZ in *. cbn [flat_map map sumZ fold_right].
  fold (sumZ (map (fun l => sumZ (map (fun e => units e * endpointsAt p e) (events l))) ls)).
  fold (sumZ (map (fun l => magnitude (events l)) ls)).
  rewrite !map_app, !sumZ_app, IH1, Hl.
  split.
  - repeat case_decide; simpl; lia.
  - repeat case_decide; simpl; lia.
Qed.

Lemma credits_whole (p : option Z) (links : list LinkAgg) :
  (forall l, In l links -> total l = Double.ofZ (totalZ l)) ->
  credits p links = map Double.ofZ (creditsZ p links).
Proof.
  intros Hw. unfold credits, creditsZ.
  induction links as [|l ls IH]; [done|]. cbn [flat_map].
  rewrite !map_app, IH by (intros l' Hl'; apply Hw; by right).
  rewrite (Hw l) by (by left). by repeat case_decide.
Qed.

(** With contributions that are integers whose magnitudes add up to at most
    2^52, the degree of a person is exact: the sum over the events of the
    contribution, once for each endpoint that is the person. *)
Lemma degree_whole (active : list EdgeEvent) (p : option Z) :
  Forall whole active -> 2 * magnitude active <= 2 ^ 53 ->
  incidentTotal p (linksOf active)
  = Double.ofZ (sumZ (map (fun e => units e * endpointsAt p e) active)).
Proof.
  intros Hwhole Hmag.
  pose proof (magnitude_nonneg active) as Hpos.
  destruct (creditsZ_events active p) as [<- Hbound].
  apply incidentTotal_exact; [|lia].
  apply credits_whole. intros l Hl.
  by apply (linksOf_whole active); [|lia|].
Qed.

Lemma sumZ_le {A : Type} (f g : A -> Z) (l : list A) :
  (forall a, f a <= g a) -> sumZ (map f l) <= sumZ (map g l).
Proof. intros Hfg. induction l as [|a l IH]; simpl; [done|]. specialize (Hfg a). lia. Qed.

(** ** Malformed and missing cells (C6) *)






(** ** Playback (C7, C10) *)

Lemma d3_extent_max (values : list number) (ext : option number * option number) :
  Forall dateValue values ->
  ext = (None, None) \/ (exists a b, ext = (Some (Fin a), Some (Fin b))) ->
  let ext' :=
    fold_left
      (fun ext value =>
         match ext with
         | (Some mn, Some mx) =>
             (if JS.gt mn value then Some value else Some mn,
              if JS.lt mx value then Some value else Some mx)
         | _ => if JS.ge value value then (Some value, Some value) else ext
         end)
      values ext in
  ext' = (None, None) \/ (exists a b, ext' = (Some (Fin a), Some (Fin b))).
Proof.
  intros Hvalues. revert ext.
  induction Hvalues as [|v values Hv _ IH]; intros ext Hext; simpl; [done|].
  apply IH.
  destruct Hv as [->|[z ->]], Hext as [->|(a & b & ->)]; simpl.
  - by left.
  - right. by exists a, b.
  - right. exists z, z. unfold JS.ge, JS.le; simpl. by rewrite Z.compare_refl.
  - right. unfold JS.gt, JS.lt; simpl.
    destruct (z ?= a), (b ?= z); eauto.
Qed.

Lemma parsed_days (nodesCSV : option (list NodeRow.t)) (edgesCSV : option (list EdgeRow.t))
    (monthKey : string) (p : Parsed) :
  parsed nodesCSV edgesCSV monthKey = Within (Some p) ->
  exists dim : Z, days p = Fin dim /\ 30 <= dim.
Proof.
  unfold parsed.
  destruct nodesCSV as [nrows|], edgesCSV as [erows|]; try done.
  destruct (mapM nodeOfRow nrows) as [ns|]; [|done].
  destruct (mapM edgeOfRow erows) as [edgesAll|]; [|done].
  intros [= <-]. simpl.
  pose proof (d3_extent_max
                (map (fun e => getDate (timestamp e)) (monthFilter edgesAll monthKey))
                (None, None)) as Hext.
  fold (d3_extent (map (fun e => getDate (timestamp e)) (monthFilter edgesAll monthKey)))
    in Hext.
  destruct Hext as [->|(a & b & ->)].
  - apply List.Forall_forall. intros v (e & <- & _)%in_map_iff.
    destruct (timestamp e); [by left|right; by eexists].
  - by left.
  - exists 30. done.
  - simpl. destruct b as [|pb|nb]; simpl.
    + exists 30. done.
    + unfold Math_max, JS.compare.
      destruct (Z.compare_spec (Z.pos pb) 30) as [Heq|Hlt|Hgt].
      * exists (Z.pos pb). split; [done|lia].
      * exists 30. done.
      * exists (Z.pos pb). split; [done|lia].
    + exists 30. done.
Qed.

Lemma playbackTick_present (p : Parsed) (dim : Z) (daysInMonth : number) (d : Z) :
  days p = Fin dim -> 30 <= dim ->
  playbackTick (Some p) daysInMonth (Fin d)
  = if decide (d + 1 > dim) then Fin 1 else Fin (d + 1).
Proof.
  intros Hdays Hdim. unfold playbackTick, number_or. rewrite Hdays.
  destruct dim as [|pd|nd]; [lia| |lia].
  cbn [truthy_number JS.add]. unfold JS.gt, JS.lt, JS.compare.
  destruct (Z.compare_spec (Z.pos pd) (d + 1)); case_decide; try done; lia.
Qed.

(** C7: with a parsed dataset present, a tick moves the selected day to the
    next day, and to day 1 when the next day would exceed the days-in-month
    figure (the figure of the dataset, at least 30, which the component
    also keeps as its daysInMonth state); a tick at day = daysInMonth gives
    day 1. *)
Theorem playback_advances_and_wraps
    (nodesCSV : option (list NodeRow.t)) (edgesCSV : option (list EdgeRow.t))
    (monthKey : string) (p : Parsed) (daysInMonth0 day0 : number) (d : Z) :
  parsed nodesCSV edgesCSV monthKey = Within (Some p) ->
  exists dim : Z,
    fst (syncDays (Some p) daysInMonth0 day0) = Fin dim
    /\ 30 <= dim
    /\ (d + 1 <= dim -> playbackTick (Some p) (Fin dim) (Fin d) = Fin (d + 1))
    /\ (d + 1 > dim -> playbackTick (Some p) (Fin dim) (Fin d) = Fin 1)
    /\ playbackTick (Some p) (Fin dim) (Fin dim) = Fin 1
    /\ playbackTick (Some p) (Fin dim) (Fin dim) <> Fin (dim + 1).
Proof.
  intros (dim & Hdays & Hdim)%parsed_days. exists dim.
  split; [done|]. split; [done|].
  split; [|split; [|split]].
  - intros Hd. rewrite (playbackTick_present p dim) by done.
    by rewrite decide_False by lia.
  - intros Hd. rewrite (playbackTick_present p dim) by done.
    by rewrite decide_True by lia.
  - rewrite (playbackTick_present p dim) by done.
    by rewrite decide_True by lia.
  - rewrite (playbackTick_present p dim) by done.
    rewrite decide_True by lia. intros [= Heq]. lia.
Qed.

(** [playback_advances_and_wraps] at two empty row sets, on day 29. *)
Lemma playback_advances_and_wraps_witness :
  exists dim : Z,
    fst (syncDays (Some (mkParsed [] [] (Fin 30))) (Fin 30) (Fin 1)) = Fin dim
    /\ 30 <= dim
    /\ (29 + 1 <= dim ->
        playbackTick (Some (mkParsed [] [] (Fin 30))) (Fin dim) (Fin 29) = Fin (29 + 1))
    /\ (29 + 1 > dim ->
        playbackTick (Some (mkParsed [] [] (Fin 30))) (Fin dim) (Fin 29) = Fin 1)
    /\ playbackTick (Some (mkParsed [] [] (Fin 30))) (Fin dim) (Fin dim) = Fin 1
    /\ playbackTick (Some (mkParsed [] [] (Fin 30))) (Fin dim) (Fin dim) <> Fin (dim + 1).
Proof.
  exact (playback_advances_and_wraps (Some []) (Some []) "2025-09"
           (mkParsed [] [] (Fin 30)) (Fin 30) (Fin 1) 29 eq_refl).
Defined.

(** C10: without a parsed dataset (one of the two row sets is missing) a
    tick returns the day it was given, whatever the daysInMonth state, so
    the day stays where it is for any number of ticks. *)
Theorem playback_stalls_without_data (n : nat) (daysInMonth d : number) :
  playback n None daysInMonth d = d
  /\ playbackTick None daysInMonth d = d
  /\ (forall edgesCSV monthKey, parsed None edgesCSV monthKey = Within None)
  /\ (forall nodesCSV monthKey, parsed nodesCSV None monthKey = Within None).
Proof.
  split; [|split; [done|split]].
  - induction n as [|n IH]; [done|]. simpl. exact IH.
  - done.
  - intros [nrows|] monthKey; done.
Qed.

(** ** Hover picking (C8) *)

Lemma lt_spec (a b : Q) : Double.lt (Double.Fin a) (Double.Fin b) = true <-> (a < b)%Q.
Proof.
  unfold Double.lt, Double.compare.
  destruct (Qcompare_spec a b); split; intros; try done; lra.
Qed.

Lemma lt_false_spec (a b : Q) :
  Double.lt (Double.Fin a) (Double.Fin b) = false <-> (b <= a)%Q.
Proof.
  unfold Double.lt, Double.compare.
  destruct (Qcompare_spec a b); split; intros; try done; lra.
Qed.

Lemma le_false_spec (a b : Q) :
  Double.le (Double.Fin a) (Double.Fin b) = false <-> (b < a)%Q.
Proof.
  unfold Double.le, Double.compare.
  destruct (Qcompare_spec a b); split; intros; try done; lra.
Qed.

Ltac double_order :=
  repeat match goal with
         | a : double |- _ => destruct a
         end;
  try done;
  rewrite ?lt_spec, ?lt_false_spec, ?le_false_spec in *;
  try done; try lra.

Lemma lt_trans (a b c : double) :
  Double.lt a b = true -> Double.lt b c = true -> Double.lt a c = true.
Proof. double_order. Qed.

Lemma le_false_below (a b c : double) :
  Double.lt b c = true -> Double.lt a c = false -> Double.le a b = false.
Proof. double_order. Qed.

Lemma le_false_trans (a b c : double) :
  Double.le a b = false -> Double.lt c b = true -> Double.le a c = false.
Proof. double_order. Qed.

Lemma le_false_lt (b c : double) : Double.lt c b = true -> Double.le b c = false.
Proof. double_order. Qed.

Section PickingProperties.

(** The engine's Math.hypot, whatever it is. *)
Variable hypot : double -> double -> double.

Lemma pointerDistance_computed (px py : double) (n : NodeRec) :
  pointerDistance hypot px py n = computed hypot px py n.
Proof. unfold pointerDistance, computed. by destruct (x n), (y n). Qed.

Lemma pickStep_invariant (px py : double) (seen : list NodeRec)
    (st : option NodeRec * double) (n : NodeRec) :
  pickInvariant hypot px py seen st ->
  pickInvariant hypot px py (seen ++ [n]) (pickStep hypot px py st n).
Proof.
  destruct st as [best bestD]. unfold pickInvariant, pickStep. cbn [fst snd].
  rewrite pointerDistance_computed.
  destruct best as [b|].
  - intros (-> & Hb & before & after & -> & Hbefore & Hafter).
    destruct (Double.lt (computed hypot px py n) (computed hypot px py b)) eqn:Hlt;
      cbn [fst snd].
    + split; [done|]. split; [by eapply lt_trans|].
      exists (before ++ b :: after), []. split; [done|]. split; [|by intros m []].
      intros m [Hm|[<-|Hm]]%in_app_iff.
      * eapply le_false_trans; [by apply Hbefore|done].
      * by apply le_false_lt.
      * eapply le_false_below; [done|by apply Hafter].
    + split; [done|]. split; [done|].
      exists before, (after ++ [n]). split; [by rewrite <- app_assoc|].
      split; [done|]. intros m [Hm|[<-|[]]]%in_app_iff; [by apply Hafter|done].
  - intros [-> Hfar].
    destruct (Double.lt (computed hypot px py n) (Double.ofZ 20)) eqn:Hlt; cbn [fst snd].
    + split; [done|]. split; [done|].
      exists seen, []. split; [done|]. split; [|by intros m []].
      intros m Hm. eapply le_false_below; [done|by apply Hfar].
    + split; [done|]. intros m [Hm|[<-|[]]]%in_app_iff; [by apply Hfar|done].
Qed.

Lemma pickNode_fold (px py : double) (nodes : list NodeRec) :
  pickNode hypot px py nodes
  = fst (fold_left (pickStep hypot px py) nodes (None, Double.ofZ 20)).
Proof. by destruct nodes. Qed.

Lemma pick_fold_invariant (px py : double) (nodes : list NodeRec) :
  pickInvariant hypot px py nodes
                (fold_left (pickStep hypot px py) nodes (None, Double.ofZ 20)).
Proof.
  induction nodes as [|n nodes IH] using rev_ind.
  - split; [done|]. by intros m [].
  - rewrite fold_left_app. simpl. by apply pickStep_invariant.
Qed.

Lemma pick_fold_degree (px py : double) (deg : gmap (option Z) double)
    (nodes : list NodeRec) (st : option NodeRec * double) :
  fold_left (pickStep hypot px py) (map (withDegree deg) nodes)
            (withDegree deg <$> fst st, snd st)
  = (withDegree deg <$> fst (fold_left (pickStep hypot px py) nodes st),
     snd (fold_left (pickStep hypot px py) nodes st)).
Proof.
  revert st. induction nodes as [|n nodes IH]; intros st; simpl; [done|].
  rewrite <- IH. f_equal. unfold pickStep.
  change (pointerDistance hypot px py (withDegree deg n))
    with (pointerDistance hypot px py n).
  simpl. by destruct (Double.lt _ _).
Qed.

(** What the loop returns, on the computed distances. *)
Lemma pickNode_computed (px py : double) (nodes : list NodeRec) :
  match pickNode hypot px py nodes with
  | Some n =>
      Double.lt (computed hypot px py n) (Double.ofZ 20) = true
      /\ exists before after,
           nodes = before ++ n :: after
           /\ (forall m, In m before ->
                 Double.le (computed hypot px py m) (computed hypot px py n) = false)
           /\ (forall m, In m after ->
                 Double.lt (computed hypot px py m) (computed hypot px py n) = false)
  | None =>
      forall m, In m nodes -> Double.lt (computed hypot px py m) (Double.ofZ 20) = false
  end.
Proof.
  rewrite pickNode_fold.
  pose proof (pick_fold_invariant px py nodes) as Hinv.
  unfold pickInvariant in Hinv.
  destruct (fst (fold_left (pickStep hypot px py) nodes (None, Double.ofZ 20))) as [n|].
  - by destruct Hinv as (_ & Hn & Hsplit).
  - by destruct Hinv as [_ Hfar].
Qed.

End PickingProperties.

Lemma square_lt (h b : Q) : (0 <= h)%Q -> (0 <= b)%Q -> (h * h < b * b)%Q -> (h < b)%Q.
Proof. intros Hh Hb Hsq. nra. Qed.

Lemma square_le (h b : Q) : (0 <= h)%Q -> (0 <= b)%Q -> (h <= b)%Q -> (h * h <= b * b)%Q.
Proof. intros Hh Hb Hle. nra. Qed.

(** C8: pickNode returns the node whose computed distance to the pointer
    is least among those computed nearer than 20 (the first such node of
    the list when several are computed as near), and no node when none is
    computed nearer than 20, the computed distance of a node being the
    engine's hypot of the differences of the coordinates.  Where that
    computed distance is within a relative error eps of the straight-line
    distance, the node returned lies within 20 / (1 - eps) of the pointer
    and no node is nearer by more than the factor (1 + eps) / (1 - eps), and
    when none is returned every node is at 20 / (1 + eps) or more; so a node
    at 19 pixels is selected and a node at 21 pixels is not.  The degree of
    the nodes, hence their drawn size, has no part in the choice.  A hypot
    that rounds to the nearest double is that accurate (at the node (3, 19),
    to one part in 10^12), and with it the pointer at (0.1, 0.2) picks the
    node at (2.5, -1.75) before the one at (12.7, 15.3).  Of the nodes
    (3, 19) and (9, 17), both at the square root of 370 from the pointer,
    that hypot picks the first, and the hypot of V8, which computes a
    greater distance for the first, picks the second; both select a node at
    19 pixels and none at 21. *)
Theorem pickNode_nearest_within_radius (hypot : double -> double -> double)
    (px py : double) (nodes : list NodeRec) :
  match pickNode hypot px py nodes with
  | Some n =>
      Double.lt (computed hypot px py n) (Double.ofZ 20) = true
      /\ exists before after,
           nodes = before ++ n :: after
           /\ (forall m, In m before ->
                 Double.le (computed hypot px py m) (computed hypot px py n) = false)
           /\ (forall m, In m after ->
                 Double.lt (computed hypot px py m) (computed hypot px py n) = false)
  | None =>
      forall m, In m nodes -> Double.lt (computed hypot px py m) (Double.ofZ 20) = false
  end
  /\ (forall eps : Q,
        (forall m, In m nodes -> accurate eps hypot px py m) ->
        match pickNode hypot px py nodes with
        | Some n =>
            exists s, squared px py n = Some s
                      /\ ((1 - eps) * (1 - eps) * s < 400)%Q
                      /\ forall m, In m nodes ->
                           exists s', squared px py m = Some s'
                                      /\ ((1 - eps) * (1 - eps) * s
                                          <= (1 + eps) * (1 + eps) * s')%Q
        | None =>
            forall m, In m nodes ->
              exists s', squared px py m = Some s'
                         /\ (400 <= (1 + eps) * (1 + eps) * s')%Q
        end)
  /\ (forall (eps : Q) n s,
        (0 <= eps)%Q -> (eps <= 1 # 25)%Q -> accurate eps hypot px py n ->
        squared px py n = Some s ->
        ((s == 19 * 19)%Q -> pickNode hypot px py [n] = Some n)
        /\ ((s == 21 * 21)%Q -> pickNode hypot px py [n] = None))
  /\ (forall deg, pickNode hypot px py (map (withDegree deg) nodes)
                  = withDegree deg <$> pickNode hypot px py nodes)
  /\ pickNode hypotNearest (Double.ofZ 0) (Double.ofZ 0) [nodeAt 19 0] = Some (nodeAt 19 0)
  /\ pickNode hypotNearest (Double.ofZ 0) (Double.ofZ 0) [nodeAt 21 0] = None
  /\ pickNode hypotNearest (Double.ofZ 0) (Double.ofZ 0) [nodeAt 20 0] = None
  /\ pickNode hypotNearest (Double.ofZ 0) (Double.ofZ 0)
              [nodeAt 30 0; nodeAt 3 4; nodeAt 0 5; nodeAt 1 1; nodeAt 0 25]
     = Some (nodeAt 1 1)
  /\ accurate (1 # 1000000000000) hypotNearest (Double.ofZ 0) (Double.ofZ 0) (nodeAt 3 19)
  /\ accurate (1 # 1000000000000) hypotScaled (Double.ofZ 0) (Double.ofZ 0) (nodeAt 3 19)
  /\ pickNode hypotNearest (Double.ofZ 0) (Double.ofZ 0) [nodeAt 3 19; nodeAt 9 17]
     = Some (nodeAt 3 19)
  /\ pickNode hypotScaled (Double.ofZ 0) (Double.ofZ 0) [nodeAt 3 19; nodeAt 9 17]
     = Some (nodeAt 9 17)
  /\ pickNode hypotScaled (Double.ofZ 0) (Double.ofZ 0) [nodeAt 19 0] = Some (nodeAt 19 0)
  /\ pickNode hypotScaled (Double.ofZ 0) (Double.ofZ 0) [nodeAt 21 0] = None
  /\ pickNode hypotNearest (Double.round (1 # 10)) (Double.round (1 # 5))
              [nodeNear (127 # 10) (153 # 10); nodeNear (5 # 2) (- (7 # 4))]
     = Some (nodeNear (5 # 2) (- (7 # 4))).
Proof.
  pose proof (pickNode_computed hypot px py nodes) as Hpick.
  split; [exact Hpick|].
  repeat match goal with |- _ /\ _ => split end.
  - intros eps Hacc.
    destruct (pickNode hypot px py nodes) as [n|].
    + destruct Hpick as (Hn & before & after & Hnodes & Hbefore & Hafter).
      destruct (Hacc n) as (s & h & Hs & Hh & Hh0 & Hlo & Hhi).
      { rewrite Hnodes. apply in_app_iff. right. by left. }
      exists s. split; [done|].
      rewrite Hh in Hn. apply lt_spec in Hn. change (inject_Z 20) with 20%Q in Hn.
      assert (h * h < 400)%Q as Hsq by nra.
      split; [lra|].
      intros m Hm. destruct (Hacc m Hm) as (s' & h' & Hs' & Hh' & Hh0' & Hlo' & Hhi').
      exists s'. split; [done|].
      assert (h <= h')%Q as Hle.
      { rewrite Hnodes in Hm. apply in_app_iff in Hm as [Hm|[<-|Hm]].
        - specialize (Hbefore m Hm). rewrite Hh, Hh' in Hbefore.
          apply le_false_spec in Hbefore. lra.
        - rewrite Hh in Hh'. injection Hh' as <-. lra.
        - specialize (Hafter m Hm). rewrite Hh, Hh' in Hafter.
          by apply lt_false_spec in Hafter. }
      pose proof (square_le h h' Hh0 Hh0' Hle). lra.
    + intros m Hm. destruct (Hacc m Hm) as (s' & h' & Hs' & Hh' & Hh0' & Hlo' & Hhi').
      exists s'. split; [done|].
      specialize (Hpick m Hm). rewrite Hh' in Hpick. apply lt_false_spec in Hpick.
      change (inject_Z 20) with 20%Q in Hpick.
      pose proof (square_le 20 h' ltac:(lra) Hh0' Hpick). lra.
  - intros eps n s Heps0 Heps (s0 & h & Hs0 & Hh & Hh0 & Hlo & Hhi) Hs.
    rewrite Hs in Hs0. injection Hs0 as <-.
    unfold pickNode, pickStep. cbn [fold_left fst snd].
    rewrite pointerDistance_computed, Hh.
    split; intros Heq; rewrite Heq in Hlo, Hhi.
    + assert (Double.lt (Double.Fin h) (Double.ofZ 20) = true) as ->; [|done].
      apply lt_spec. apply square_lt; [done|done|].
      change (inject_Z 20) with 20%Q. nra.
    + assert (Double.lt (Double.Fin h) (Double.ofZ 20) = false) as ->; [|done].
      apply lt_false_spec. change (inject_Z 20) with 20%Q.
      destruct (Qlt_le_dec h 20) as [Hlt|Hge]; [|done].
      exfalso. nra.
  - intros deg. rewrite !pickNode_fold.
    exact (f_equal fst (pick_fold_degree hypot px py deg nodes (None, Double.ofZ 20))).
  - vm_compute. reflexivity.
  - vm_compute. reflexivity.
  - vm_compute. reflexivity.
  - vm_compute. reflexivity.
  - eexists _, _. split; [reflexivity|]. split; [vm_compute; reflexivity|].
    repeat split; vm_compute; intros H; discriminate H.
  - eexists _, _. split; [reflexivity|]. split; [vm_compute; reflexivity|].
    repeat split; vm_compute; intros H; discriminate H.
  - vm_compute. reflexivity.
  - vm_compute. reflexivity.
  - vm_compute. reflexivity.
  - vm_compute. reflexivity.
  - vm_compute. reflexivity.
Qed.

(** ** Demo events (C9) *)

Section DemoProperties.

Variable RndState : Type.
Variable rnd : RndState -> Q * RndState.

(** Every draw lies in [0, 1). *)
Hypothesis rnd_range :
  forall st, (0 <= fst (rnd st))%Q /\ (fst (rnd st) < 1)%Q.

Lemma floorRnd_range (n : Z) (st : RndState) :
  0 < n -> 0 <= fst (floorRnd RndState rnd n st) < n.
Proof.
  intros Hn. unfold floorRnd.
  destruct (rnd_range st) as [H0 H1]. destruct (rnd st) as [u st']. cbn [fst] in *.
  assert (inject_Z 0 < inject_Z n)%Q as Hq by (rewrite <- Zlt_Qlt; exact Hn).
  change (inject_Z 0) with 0%Q in Hq.
  split.
  - rewrite <- (Qfloor_Z 0). apply Qfloor_resp_le. change (inject_Z 0) with 0%Q.
    apply Qmult_le_0_compat; [exact H0|by apply Qlt_le_weak].
  - rewrite Zlt_Qlt. eapply Qle_lt_trans; [apply Qfloor_le|].
    rewrite <- (Qmult_1_l (inject_Z n)) at 2.
    by apply Qmult_lt_compat_r.
Qed.

Lemma remap_differs (a b : Z) :
  1 <= a <= 100 -> 1 <= b <= 100 ->
  let b' := if bool_decide (b = a) then Z.rem b 100 + 1 else b in
  1 <= b' <= 100 /\ b' <> a.
Proof.
  intros Ha Hb. simpl. case_bool_decide as Heq; [|done].
  subst b. rewrite Z.rem_mod_nonneg by lia.
  destruct (decide (a = 100)) as [->|Hne]; [done|].
  rewrite Z.mod_small by lia. lia.
Qed.

Lemma demoEdge_endpoints (k : Z) (st : RndState) :
  let e := fst (demoEdge RndState rnd 100 k st) in
  1 <= DemoEdge.source e <= 100
  /\ 1 <= DemoEdge.target e <= 100
  /\ DemoEdge.target e <> DemoEdge.source e.
Proof.
  unfold demoEdge.
  pose proof (floorRnd_range 100 st) as Ha.
  destruct (floorRnd RndState rnd 100 st) as [a0 st1].
  pose proof (floorRnd_range 100 st1) as Hb.
  destruct (floorRnd RndState rnd 100 st1) as [b0 st2].
  destruct (floorRnd RndState rnd 30 st2) as [d0 st3].
  destruct (floorRnd RndState rnd 24 st3) as [hour st4].
  destruct (floorRnd RndState rnd 60 st4) as [minute st5].
  destruct (floorRnd RndState rnd (Z.of_nat (length types)) st5) as [ty st6].
  destruct (floorRnd RndState rnd 90 st6) as [dur st7].
  destruct (floorRnd RndState rnd 3 st7) as [w st8].
  simpl in *.
  destruct (remap_differs (a0 + 1) (b0 + 1)) as [Hrange Hdiff]; [lia|lia|].
  split; [lia|]. split; [exact Hrange|exact Hdiff].
Qed.

Lemma demoEdges_all (P : DemoEdge.t -> Prop) (N : Z) :
  (forall k st, P (fst (demoEdge RndState rnd N k st))) ->
  forall count k st e, In e (demoEdges RndState rnd N count k st) -> P e.
Proof.
  intros HP count. induction count as [|count IH]; intros k st e; simpl; [done|].
  specialize (HP k st). destruct (demoEdge RndState rnd N k st) as [e0 st'].
  intros [<-|Hin]; [exact HP|]. by eapply IH.
Qed.

Lemma demoEdges_length (N : Z) (count : nat) (k : Z) (st : RndState) :
  length (demoEdges RndState rnd N count k st) = count.
Proof.
  revert k st. induction count as [|count IH]; intros k st; simpl; [done|].
  destruct (demoEdge RndState rnd N k st) as [e0 st']. simpl. by rewrite IH.
Qed.

(** C9: whatever the random source draws in [0, 1), generateDemo builds 1200
    events, and in each of them source and target are ids in 1..100 that
    differ: a target drawn equal to the source is remapped to
    (target mod 100) + 1, which is again in 1..100 and is not the source. *)
Theorem demo_has_no_self_loop (seed : RndState) :
  length (snd (generateDemo RndState rnd seed)) = 1200%nat
  /\ (forall e, In e (snd (generateDemo RndState rnd seed)) ->
        1 <= DemoEdge.source e <= 100
        /\ 1 <= DemoEdge.target e <= 100
        /\ DemoEdge.target e <> DemoEdge.source e)
  /\ (forall a, 1 <= a <= 100 ->
        1 <= Z.rem a 100 + 1 <= 100 /\ Z.rem a 100 + 1 <> a).
Proof.
  split; [|split].
  - unfold generateDemo. cbn [snd]. apply demoEdges_length.
  - unfold generateDemo. cbn [snd]. intros e.
    apply (demoEdges_all
             (fun e => 1 <= DemoEdge.source e <= 100
                       /\ 1 <= DemoEdge.target e <= 100
                       /\ DemoEdge.target e <> DemoEdge.source e)).
    intros k st. apply demoEdge_endpoints.
  - intros a Ha.
    pose proof (remap_differs a a Ha Ha) as Hremap. simpl in Hremap.
    by rewrite bool_decide_eq_true_2 in Hremap.
Qed.

End DemoProperties.

Lemma lcg_range (st : Z) : (0 <= fst (lcg st))%Q /\ (fst (lcg st) < 1)%Q.
Proof.
  unfold lcg. cbn [fst].
  pose proof (Z.mod_pos_bound (toInt32 (1664525 * st + 1013904223)) (2 ^ 32)) as Hm.
  unfold Qle, Qlt. simpl in *. lia.
Qed.

(** [demo_has_no_self_loop] at the generator [lcg] seeded with [lcgSeed]. *)
Lemma demo_has_no_self_loop_witness :
  length (snd (generateDemo Z lcg lcgSeed)) = 1200%nat
  /\ (forall e, In e (snd (generateDemo Z lcg lcgSeed)) ->
        1 <= DemoEdge.source e <= 100
        /\ 1 <= DemoEdge.target e <= 100
        /\ DemoEdge.target e <> DemoEdge.source e)
  /\ (forall a, 1 <= a <= 100 ->
        1 <= Z.rem a 100 + 1 <= 100 /\ Z.rem a 100 + 1 <> a).
Proof.
  exact (demo_has_no_self_loop Z lcg lcg_range lcgSeed).
Defined.

(** * Further properties of the component *)

(** ** The window from one day to the next *)

Lemma filter_sublist_impl {A : Type} (p q : A -> bool) (l : list A) :
  (forall a, p a = true -> q a = true) ->
  sublist (List.filter p l) (List.filter q l).
Proof.
  intros Hpq. induction l as [|a l IH]; simpl; [done|].
  destruct (p a) eqn:Hp.
  - rewrite (Hpq a Hp). by apply sublist_skip.
  - destruct (q a); [by apply sublist_cons|done].
Qed.

Lemma filter_sublist_self {A : Type} (p : A -> bool) (l : list A) :
  sublist (List.filter p l) l.
Proof.
  induction l as [|a l IH]; simpl; [done|].
  destruct (p a); [by apply sublist_skip|by apply sublist_cons].
Qed.

Lemma filter_length_split {A : Type} (p q r : A -> bool) (l : list A) :
  (forall a, r a = p a || q a) -> (forall a, p a && q a = false) ->
  length (List.filter r l)
  = (length (List.filter p l) + length (List.filter q l))%nat.
Proof.
  intros Hr Hpq. induction l as [|a l IH]; simpl; [done|].
  rewrite Hr. specialize (Hpq a).
  destruct (p a), (q a); simpl in *; try done; rewrite IH; lia.
Qed.

Lemma activeEdges_NaN (edges : list EdgeEvent) (accumulate : bool) :
  activeEdges edges NaN accumulate = [].
Proof.
  unfold activeEdges.
  rewrite (fold_push_filter
             (fun e => (accumulate && JS.le (getDate (timestamp e)) NaN)
                       || (negb accumulate && JS.strict_eq (getDate (timestamp e)) NaN))).
  simpl. induction edges as [|e edges IH]; simpl; [done|].
  assert (JS.le (getDate (timestamp e)) NaN = false) as ->
    by by destruct (getDate (timestamp e)).
  assert (JS.strict_eq (getDate (timestamp e)) NaN = false) as ->
    by by destruct (getDate (timestamp e)).
  rewrite !andb_false_r. exact IH.
Qed.

(** Moving the cutoff from day [c] to day [c + 1] in accumulate mode keeps
    the active events in place and adds exactly the events of day [c + 1];
    windows grow with the cutoff; the single-day window is part of the
    accumulated one, and every window is part of the events of the month;
    with a cutoff that is NaN no event is active in either mode. *)
Theorem window_grows_day_by_day (edges : list EdgeEvent) (c : Z) :
  length (activeEdges edges (Fin (c + 1)) true)
  = (length (activeEdges edges (Fin c) true)
     + length (activeEdges edges (Fin (c + 1)) false))%nat
  /\ (forall c', c <= c' ->
        sublist (activeEdges edges (Fin c) true) (activeEdges edges (Fin c') true))
  /\ sublist (activeEdges edges (Fin c) false) (activeEdges edges (Fin c) true)
  /\ (forall accumulate, sublist (activeEdges edges (Fin c) accumulate) edges)
  /\ (forall accumulate, activeEdges edges NaN accumulate = []).
Proof.
  split; [|split; [|split; [|split]]].
  - rewrite !activeEdges_accumulate, activeEdges_single.
    apply filter_length_split; intros e; destruct (dayOfMonth e) as [d|]; try done; lia.
  - intros c' Hc. rewrite !activeEdges_accumulate.
    apply filter_sublist_impl. intros e. destruct (dayOfMonth e) as [d|]; [lia|done].
  - rewrite activeEdges_accumulate, activeEdges_single.
    apply filter_sublist_impl. intros e. destruct (dayOfMonth e) as [d|]; [lia|done].
  - intros [|]; [rewrite activeEdges_accumulate|rewrite activeEdges_single];
      apply filter_sublist_self.
  - intros accumulate. apply activeEdges_NaN.
Qed.

(** ** What aggregation keeps *)

(** Aggregation loses nothing: the events kept in the links are the active
    events, each once, and every link holds at least one event, all of its
    own key, with a total that is the sum of their contributions, added up
    in doubles in the order of the events.  When the contributions are
    integers whose magnitudes add up to at most 2^53, every total is the
    exact sum, and the totals of the links add up, exactly, to the
    contributions of the active events. *)
Theorem aggregation_keeps_every_event (active : list EdgeEvent) :
  Permutation (concat (map events (linksOf active))) active
  /\ (forall l, In l (linksOf active) ->
        events l <> []
        /\ total l = sumD (map contribution (events l))
        /\ forall e, In e (events l) ->
             In e active /\ keyOf e = linkKey (l_source l) (l_target l))
  /\ (Forall whole active -> magnitude active <= 2 ^ 53 ->
      (forall l, In l (linksOf active) ->
         total l = Double.ofZ (sumZ (map units (events l))))
      /\ sumD (map total (linksOf active)) = Double.ofZ (sumZ (map units active))).
Proof.
  split; [apply linksOf_events|]. split; [apply linksOf_link|].
  intros Hwhole Hmag.
  assert (forall l, In l (linksOf active) -> total l = Double.ofZ (totalZ l)) as Htotal.
  { intros l Hl. by apply (linksOf_whole active). }
  split; [exact Htotal|].
  rewrite (map_ext_in total (fun l => Double.ofZ (totalZ l))) by exact Htotal.
  rewrite <- (map_map totalZ Double.ofZ).
  destruct (sumD_exact (map totalZ (linksOf active))) as [-> _].
  - rewrite <- (magnitude_links active) in Hmag.
    etrans; [|exact Hmag]. rewrite map_map.
    clear. induction (linksOf active) as [|l ls IH]; [done|]. simpl.
    assert (Z.abs (totalZ l) <= magnitude (events l)).
    { unfold totalZ, magnitude. rewrite <- (map_map units Z.abs). apply sumZ_abs. }
    lia.
  - f_equal.
    rewrite <- (sumZ_Permutation _ _ (Permutation_map units (linksOf_events active))).
    rewrite concat_map, sumZ_concat, !map_map. done.
Qed.

(** ** Degrees read off the events *)

Lemma sumZ_map_add {A : Type} (f g : A -> Z) (l : list A) :
  sumZ (map (fun a => f a + g a) l) = sumZ (map f l) + sumZ (map g l).
Proof. induction l as [|a l IH]; simpl; [done|]. rewrite IH. lia. Qed.

Lemma sumZ_map_times {A : Type} (c : Z) (f : A -> Z) (l : list A) :
  sumZ (map (fun a => c * f a) l) = c * sumZ (map f l).
Proof. induction l as [|a l IH]; simpl; [lia|]. rewrite IH. lia. Qed.

Lemma sumZ_indicator (p : option Z) (ids : list (option Z)) :
  List.NoDup ids -> In p ids ->
  sumZ (map (fun i => if decide (p = i) then 1 else 0) ids) = 1.
Proof.
  induction ids as [|i ids IH]; [done|].
  intros [Hi Hnd]%List.NoDup_cons_iff [->|Hin]; simpl.
  - rewrite decide_True by done.
    assert (sumZ (map (fun i => if decide (p = i) then 1 else 0) ids) = 0) as ->; [|done].
    clear IH Hnd. induction ids as [|j ids IH]; [done|]. simpl.
    rewrite decide_False by (intros ->; apply Hi; by left).
    apply IH. intros Hin. apply Hi. by right.
  - rewrite decide_False by (intros ->; done). by rewrite IH.
Qed.

(** When the contributions are integers whose magnitudes add up to at most
    2^52, the degree the component computes through the links is the degree
    read off the events: for each person, the sum over the active events of
    the event's contribution, once for each endpoint of the event that is
    the person; an event between two other persons adds nothing. *)
Theorem degree_counts_active_events (persons : list NodeRec) (active : list EdgeEvent) :
  Forall whole active -> 2 * magnitude active <= 2 ^ 53 ->
  map degree (nodesWithDeg persons (linksOf active))
  = map (fun n => Double.ofZ
                    (sumZ (map (fun e => units e * endpointsAt (id n) e) active)))
        persons
  /\ (forall p day accumulate g n,
        graph (Some p) day accumulate = Some g ->
        activeEdges (edges p) day accumulate = active ->
        In n (g_nodes g) ->
        degree n
        = Double.ofZ (sumZ (map (fun e => units e * endpointsAt (id n) e) active)))
  /\ (forall p e, source e <> p -> target e <> p -> units e * endpointsAt p e = 0).
Proof.
  intros Hwhole Hmag. split; [|split].
  - unfold nodesWithDeg. rewrite map_map. apply map_ext. intros n.
    unfold withDegree. simpl. by rewrite degMap_lookup, degree_whole.
  - intros p day accumulate g n [= <-] Hactive. cbn [g_nodes]. rewrite Hactive.
    unfold nodesWithDeg. intros (n0 & <- & _)%in_map_iff.
    unfold withDegree. simpl. by rewrite degMap_lookup, degree_whole.
  - intros p e Hs Ht. unfold endpointsAt. rewrite !decide_False by done. lia.
Qed.

(** [degree_counts_active_events] at the events between persons 3 and 7. *)
Lemma degree_counts_active_events_witness :
  map degree (nodesWithDeg [person 3; person 7; person 9] (linksOf [event37; event73]))
  = [Double.ofZ 7; Double.ofZ 7; Double.ofZ 0].
Proof.
  apply (proj1 (degree_counts_active_events [person 3; person 7; person 9]
                  [event37; event73]
                  ltac:(repeat constructor) ltac:(vm_compute; discriminate))).
Defined.

(** When the persons have pairwise distinct ids, every active event has
    both endpoints among them and the contributions are integers whose
    magnitudes add up to at most 2^52, the degrees add up to twice the
    contributions of the active events: each event is credited once at each
    end. *)
Theorem degrees_add_up_to_twice_the_weight (persons : list NodeRec)
    (active : list EdgeEvent) :
  List.NoDup (map id persons) ->
  (forall e, In e active -> In (source e) (map id persons) /\ In (target e) (map id persons)) ->
  Forall whole active -> 2 * magnitude active <= 2 ^ 53 ->
  sumD (map degree (nodesWithDeg persons (linksOf active)))
  = Double.ofZ (2 * sumZ (map units active)).
Proof.
  intros Hnd Hends Hwhole Hmag.
  assert (map degree (nodesWithDeg persons (linksOf active))
          = map Double.ofZ
                (map (fun i => sumZ (map (fun e => units e * endpointsAt i e) active))
                     (map id persons))) as ->.
  { unfold nodesWithDeg. rewrite !map_map. apply map_ext. intros n.
    unfold withDegree. simpl. by rewrite degMap_lookup, degree_whole. }
  assert (forall f : option Z -> EdgeEvent -> Z,
            sumZ (map (fun i => sumZ (map (f i) active)) (map id persons))
            = sumZ (map (fun e => sumZ (map (fun i => f i e) (map id persons))) active))
    as Hswap.
  { intros f. clear Hnd Hends Hwhole Hmag. induction active as [|e es IH]; simpl.
    - by induction (map id persons) as [|i ids IHids].
    - rewrite sumZ_map_add. by f_equal. }
  assert (forall e, In e active ->
            sumZ (map (fun i => Z.abs (units e) * endpointsAt i e) (map id persons))
            = 2 * Z.abs (units e)
            /\ sumZ (map (fun i => units e * endpointsAt i e) (map id persons))
               = 2 * units e) as Hevent.
  { intros e He. destruct (Hends e He) as [Hs Ht].
    rewrite !sumZ_map_times. unfold endpointsAt. rewrite sumZ_map_add.
    rewrite !sumZ_indicator by done. lia. }
  destruct (sumD_exact
              (map (fun i => sumZ (map (fun e => units e * endpointsAt i e) active))
                   (map id persons))) as [-> _].
  - rewrite map_map.
    etrans; [|exact Hmag].
    etrans; [apply (sumZ_le _ (fun i => sumZ (map (fun e => Z.abs (units e) * endpointsAt i e) active)))|].
    + intros i. etrans; [apply sumZ_abs|]. rewrite map_map.
      apply Z.eq_le_incl. f_equal. apply map_ext. intros e.
      unfold endpointsAt. repeat case_decide; lia.
    + rewrite (Hswap (fun i e => Z.abs (units e) * endpointsAt i e)).
      unfold magnitude. rewrite <- sumZ_map_times.
      apply Z.eq_le_incl. f_equal. apply map_ext_in. intros e He.
      by apply Hevent.
  - f_equal. rewrite (Hswap (fun i e => units e * endpointsAt i e)).
    rewrite <- sumZ_map_times. f_equal. apply map_ext_in. intros e He.
    by apply Hevent.
Qed.

Lemma degrees_add_up_to_twice_the_weight_witness :
  sumD (map degree (nodesWithDeg [person 3; person 7; person 9]
                                 (linksOf [event37; event73])))
  = Double.ofZ (2 * sumZ (map units [event37; event73])).
Proof.
  apply degrees_add_up_to_twice_the_weight.
  - simpl. repeat (apply List.NoDup_cons; [simpl; intuition congruence|]).
    apply List.NoDup_nil.
  - intros e [<-|[<-|[]]]; simpl; auto.
  - repeat constructor.
  - vm_compute. discriminate.
Defined.

(** ** The days of the scrubber *)

Lemma d3_extent_last (values : list number) (v : number) :
  d3_extent (values ++ [v]) = extentStep (d3_extent values) v.
Proof. unfold d3_extent. by rewrite fold_left_app. Qed.

Lemma extentStep_number (a b z : Z) :
  extentStep (Some (Fin a), Some (Fin b)) (Fin z)
  = (Some (Fin (Z.min a z)), Some (Fin (Z.max b z))).
Proof.
  unfold extentStep, JS.gt, JS.lt; simpl.
  destruct (Z.compare_spec z a), (Z.compare_spec b z);
    do 2 f_equal; f_equal; lia.
Qed.

Lemma d3_extent_bounds (values : list number) :
  Forall dateValue values ->
  (d3_extent values = (None, None) /\ forall v, In v values -> v = NaN)
  \/ (exists a b, d3_extent values = (Some (Fin a), Some (Fin b))
                  /\ In (Fin a) values /\ In (Fin b) values
                  /\ forall z, In (Fin z) values -> a <= z <= b).
Proof.
  induction values as [|v values IH] using rev_ind; intros Hvalues.
  - left. split; [done|]. by intros v [].
  - apply Forall_app in Hvalues as [Hvalues Hv].
    rewrite Forall_singleton in Hv. unfold dateValue in Hv.
    rewrite d3_extent_last.
    destruct (IH Hvalues) as [[Hext Hnan]|(a & b & Hext & Ha & Hb & Hbounds)];
      rewrite Hext; destruct Hv as [Hv|[z Hv]]; subst v.
    + left. split; [done|]. intros v [Hin|[<-|[]]]%in_app_iff; [by apply Hnan|done].
    + right. exists z, z. split.
      { unfold extentStep, JS.ge, JS.le; simpl. by rewrite Z.compare_refl. }
      split; [apply in_app_iff; right; by left|].
      split; [apply in_app_iff; right; by left|].
      intros z' [Hin|[[= ->]|[]]]%in_app_iff; [by apply Hnan in Hin|lia].
    + right. exists a, b. split; [done|].
      split; [apply in_app_iff; by left|]. split; [apply in_app_iff; by left|].
      intros z' [Hin|[[=]|[]]]%in_app_iff. by apply Hbounds.
    + right. exists (Z.min a z), (Z.max b z). split; [apply extentStep_number|].
      split; [|split].
      * apply in_app_iff. destruct (Z.min_spec a z) as [[_ ->]|[_ ->]];
          [by left|right; by left].
      * apply in_app_iff. destruct (Z.max_spec b z) as [[_ ->]|[_ ->]];
          [right; by left|by left].
      * intros z' [Hin|[[= ->]|[]]]%in_app_iff; [apply Hbounds in Hin; lia|lia].
Qed.

Lemma mapM_within {A B : Type} (f : A -> modelled B) (l : list A) (l' : list B) :
  mapM f l = Within l' -> Forall2 (fun a b => f a = Within b) l l'.
Proof.
  revert l'. induction l as [|a l IH]; intros l'; simpl.
  - intros [= <-]. constructor.
  - destruct (f a) as [b|] eqn:Hfa; [|done]. simpl.
    destruct (mapM f l) as [k|]; [|done]. simpl.
    intros [= <-]. constructor; [done|]. by apply IH.
Qed.

Lemma parsed_fields (nodesCSV : option (list NodeRow.t)) (edgesCSV : option (list EdgeRow.t))
    (monthKey : string) (p : Parsed) :
  parsed nodesCSV edgesCSV monthKey = Within (Some p) ->
  exists nrows erows edgesAll,
    nodesCSV = Some nrows /\ edgesCSV = Some erows
    /\ Forall2 (fun d n => nodeOfRow d = Within n) nrows (nodes p)
    /\ Forall2 (fun d e => edgeOfRow d = Within e) erows edgesAll
    /\ edges p = monthFilter edgesAll monthKey
    /\ days p
       = Math_max
           (number_or
              (snd (d3_extent (map (fun e => getDate (timestamp e)) (edges p))))
              (Fin 30))
           (Fin 30).
Proof.
  unfold parsed.
  destruct nodesCSV as [nrows|], edgesCSV as [erows|]; try done.
  destruct (mapM nodeOfRow nrows) as [ns|] eqn:Hns; [|done].
  destruct (mapM edgeOfRow erows) as [edgesAll|] eqn:Hes; [|done].
  intros [= <-]. exists nrows, erows, edgesAll. simpl.
  repeat split; try done; by apply mapM_within.
Qed.

(** With both row sets present, [parsed] keeps one person per row of
    nodesCSV, in order, each with degree 0; its events are the rows of
    edgesCSV whose timestamp has the month key, in order; and the number of
    days it offers is the greater of 30 and the last day of month on which
    the month has an event.  So no event of the month lies beyond the
    scrubber, and at its last day the accumulated window holds every event
    of the month that has a valid timestamp. *)
Theorem scrubber_reaches_every_event
    (nodesCSV : option (list NodeRow.t)) (edgesCSV : option (list EdgeRow.t))
    (monthKey : string) (p : Parsed) :
  parsed nodesCSV edgesCSV monthKey = Within (Some p) ->
  exists nrows erows edgesAll dim,
    nodesCSV = Some nrows /\ edgesCSV = Some erows
    /\ Forall2 (fun d n => nodeOfRow d = Within n) nrows (nodes p)
    /\ Forall (fun n => degree n = Double.ofZ 0) (nodes p)
    /\ Forall2 (fun d e => edgeOfRow d = Within e) erows edgesAll
    /\ edges p = List.filter (fun e => bool_decide (fmtMonth (timestamp e) = monthKey))
                             edgesAll
    /\ days p = Fin dim /\ 30 <= dim
    /\ (forall e d, In e (edges p) -> dayOfMonth e = Some d -> d <= dim)
    /\ (dim = 30 \/ exists e, In e (edges p) /\ dayOfMonth e = Some dim)
    /\ activeEdges (edges p) (days p) true
       = List.filter (fun e => bool_decide (timestamp e <> InvalidDate)) (edges p).
Proof.
  intros (nrows & erows & edgesAll & -> & -> & Hns & Hes & Hedges & Hdays)%parsed_fields.
  assert (exists dim : Z,
            days p = Fin dim /\ 30 <= dim
            /\ (forall e d, In e (edges p) -> dayOfMonth e = Some d -> d <= dim)
            /\ (dim = 30 \/ exists e, In e (edges p) /\ dayOfMonth e = Some dim))
    as (dim & Hdim & H30 & Hle & Hreach).
  { rewrite Hdays.
    destruct (d3_extent_bounds (map (fun e => getDate (timestamp e)) (edges p)))
      as [[-> Hnan]|(a & b & -> & _ & Hb & Hbounds)].
    - apply List.Forall_forall. intros v (e & <- & _)%in_map_iff.
      destruct (timestamp e); [by left|right; by eexists].
    - exists 30. split; [done|]. split; [done|]. split; [|by left].
      intros e d Hin Hd. unfold dayOfMonth in Hd.
      assert (getDate (timestamp e) = NaN) as Hno
        by (apply Hnan, in_map_iff; by exists e).
      by destruct (timestamp e).
    - assert (forall e d, In e (edges p) -> dayOfMonth e = Some d -> d <= b) as Hmax.
      { intros e d Hin Hd. apply (Hbounds d). apply in_map_iff. exists e.
        split; [|done]. unfold dayOfMonth in Hd.
        destruct (timestamp e); simplify_eq. done. }
      apply in_map_iff in Hb as (eb & Heb & Hinb).
      assert (dayOfMonth eb = Some b) as Hdb.
      { unfold dayOfMonth. destruct (timestamp eb); simplify_eq/=. done. }
      cbn [snd number_or].
      destruct b as [|pb|nb]; cbn [truthy_number].
      + exists 30. split; [done|]. split; [done|]. split; [|by left].
        intros e d Hin Hd. specialize (Hmax e d Hin Hd). lia.
      + unfold Math_max, JS.compare.
        destruct (Z.compare_spec (Z.pos pb) 30) as [Heq|Hlt|Hgt].
        * exists (Z.pos pb). split; [done|]. split; [lia|]. split; [done|].
          right. by exists eb.
        * exists 30. split; [done|]. split; [done|]. split; [|by left].
          intros e d Hin Hd. specialize (Hmax e d Hin Hd). lia.
        * exists (Z.pos pb). split; [done|]. split; [lia|]. split; [done|].
          right. by exists eb.
      + exists 30. split; [done|]. split; [done|]. split; [|by left].
        intros e d Hin Hd. specialize (Hmax e d Hin Hd). lia. }
  exists nrows, erows, edgesAll, dim.
  split; [done|]. split; [done|]. split; [done|]. split.
  { clear -Hns. induction Hns as [|d n nrows ns Hd _ IH]; constructor; [|done].
    unfold nodeOfRow in Hd. destruct (toNum (NodeRow.id d) ≫= integer); [|done].
    by injection Hd as <-. }
  split; [done|]. split; [done|].
  split; [done|]. split; [done|]. split; [done|]. split; [done|].
  rewrite Hdim, activeEdges_accumulate.
  apply filter_ext_in. intros e Hin.
  destruct (dayOfMonth e) as [d|] eqn:Hd.
  - specialize (Hle e d Hin Hd). unfold dayOfMonth in Hd.
    destruct (timestamp e); [done|].
    rewrite bool_decide_eq_true_2 by done. lia.
  - unfold dayOfMonth in Hd. destruct (timestamp e); [|done].
    by rewrite bool_decide_eq_false_2 by (intros H; by apply H).
Qed.

(** [scrubber_reaches_every_event] at one person row and three event rows,
    two of them of October 2025, the later one on the 31st. *)
Lemma scrubber_reaches_every_event_witness :
  exists dim : Z,
    days (mkParsed [person 3]
            [mkEdge (Some (Double.ofZ 31)) (Some 1) (Some 2) (LocalDate 2025 9 31) (Str "meeting")
                    (Some (Double.ofZ 30)) (Str "Alpha") (Some (Double.ofZ 1)) (Str "");
             mkEdge (Some (Double.ofZ 5)) (Some 1) (Some 2) (LocalDate 2025 9 2) (Str "meeting")
                    (Some (Double.ofZ 30)) (Str "Alpha") (Some (Double.ofZ 1)) (Str "")]
            (Fin 31)) = Fin dim
    /\ 30 <= dim
    /\ exists e,
         In e [mkEdge (Some (Double.ofZ 31)) (Some 1) (Some 2) (LocalDate 2025 9 31) (Str "meeting")
                      (Some (Double.ofZ 30)) (Str "Alpha") (Some (Double.ofZ 1)) (Str "");
               mkEdge (Some (Double.ofZ 5)) (Some 1) (Some 2) (LocalDate 2025 9 2) (Str "meeting")
                      (Some (Double.ofZ 30)) (Str "Alpha") (Some (Double.ofZ 1)) (Str "")]
         /\ dayOfMonth e = Some dim.
Proof.
  destruct (scrubber_reaches_every_event
              (Some [NodeRow.mk (Str "3") (Str "User") (Str "Engineer") (Str "Platform")
                                (Str "Remote") (Str "user@example.com")])
              (Some [EdgeRow.mk (Str "31") (Str "1") (Str "2") (LocalDate 2025 9 31)
                                (Str "meeting") (Str "30") (Str "Alpha") (Str "1") Undefined;
                     EdgeRow.mk (Str "7") (Str "1") (Str "2") (LocalDate 2025 8 5)
                                (Str "meeting") (Str "30") (Str "Alpha") (Str "1") Undefined;
                     EdgeRow.mk (Str "5") (Str "1") (Str "2") (LocalDate 2025 9 2)
                                (Str "meeting") (Str "30") (Str "Alpha") (Str "1") Undefined])
              "2025-10"
              (mkParsed [person 3]
                 [mkEdge (Some (Double.ofZ 31)) (Some 1) (Some 2) (LocalDate 2025 9 31) (Str "meeting")
                         (Some (Double.ofZ 30)) (Str "Alpha") (Some (Double.ofZ 1)) (Str "");
                  mkEdge (Some (Double.ofZ 5)) (Some 1) (Some 2) (LocalDate 2025 9 2) (Str "meeting")
                         (Some (Double.ofZ 30)) (Str "Alpha") (Some (Double.ofZ 1)) (Str "")]
                 (Fin 31)) eq_refl)
    as (nrows & erows & edgesAll & dim & _ & _ & _ & _ & _ & _ & Hdim & H30 & _ & Hlast & _).
  exists dim. split; [done|]. split; [done|].
  destruct Hlast as [->|Hlast]; [done|done].
Defined.
(** ** Playback over the month *)

Lemma playback_present (p : Parsed) (dim : Z) (n : nat) (d : Z) :
  days p = Fin dim -> 30 <= dim -> 1 <= d <= dim ->
  playback n (Some p) (Fin dim) (Fin d) = Fin ((d - 1 + Z.of_nat n) mod dim + 1).
Proof.
  intros Hdays Hdim. revert d. induction n as [|n IH]; intros d Hd.
  - simpl. rewrite Z.add_0_r, Z.mod_small by lia. f_equal. lia.
  - cbn [playback]. rewrite (playbackTick_present p dim) by done.
    case_decide as Hwrap.
    + rewrite IH by lia. assert (d = dim) as -> by lia.
      replace (dim - 1 + Z.of_nat (S n)) with (1 - 1 + Z.of_nat n + 1 * dim) by lia.
      by rewrite Z.mod_add by lia.
    + rewrite IH by lia.
      by replace (d + 1 - 1 + Z.of_nat n) with (d - 1 + Z.of_nat (S n)) by lia.
Qed.

(** With a dataset present, the effect that follows it brings the selected
    day down to the number of days when it is beyond, and leaves it
    otherwise; from a day within 1..days, playback stays within 1..days for
    any number of ticks, is at day ((d - 1 + n) mod days) + 1 after n ticks,
    and is back on the day it started from after [days] ticks. *)
Theorem playback_cycles_through_the_month
    (nodesCSV : option (list NodeRow.t)) (edgesCSV : option (list EdgeRow.t))
    (monthKey : string) (p : Parsed) (daysInMonth0 : number) (d : Z) (n : nat) :
  parsed nodesCSV edgesCSV monthKey = Within (Some p) ->
  exists dim : Z,
    syncDays (Some p) daysInMonth0 (Fin d) = (Fin dim, Fin (Z.min d dim))
    /\ (1 <= d <= dim ->
        playback n (Some p) (Fin dim) (Fin d) = Fin ((d - 1 + Z.of_nat n) mod dim + 1)
        /\ (exists d', playback n (Some p) (Fin dim) (Fin d) = Fin d' /\ 1 <= d' <= dim)
        /\ playback (Z.to_nat dim) (Some p) (Fin dim) (Fin d) = Fin d).
Proof.
  intros (dim & Hdays & Hdim)%parsed_days. exists dim. split.
  - unfold syncDays. rewrite Hdays. unfold JS.gt, JS.lt, JS.compare.
    destruct (Z.compare_spec dim d); do 2 f_equal; lia.
  - intros Hd. rewrite !(playback_present p dim) by done.
    split; [done|]. split.
    + eexists. split; [done|].
      pose proof (Z.mod_pos_bound (d - 1 + Z.of_nat n) dim). lia.
    + f_equal. rewrite Z2Nat.id by lia.
      replace (d - 1 + dim) with (d - 1 + 1 * dim) by lia.
      rewrite Z.mod_add, Z.mod_small by lia. lia.
Qed.

Lemma playback_cycles_through_the_month_witness :
  exists dim : Z,
    syncDays (Some (mkParsed [] [] (Fin 30))) (Fin 31) (Fin 28)
    = (Fin dim, Fin (Z.min 28 dim))
    /\ (1 <= 28 <= dim ->
        playback 5 (Some (mkParsed [] [] (Fin 30))) (Fin dim) (Fin 28)
        = Fin ((28 - 1 + Z.of_nat 5) mod dim + 1)
        /\ (exists d', playback 5 (Some (mkParsed [] [] (Fin 30))) (Fin dim) (Fin 28)
                       = Fin d' /\ 1 <= d' <= dim)
        /\ playback (Z.to_nat dim) (Some (mkParsed [] [] (Fin 30))) (Fin dim) (Fin 28)
           = Fin 28).
Proof.
  exact (playback_cycles_through_the_month (Some []) (Some []) "2025-09"
           (mkParsed [] [] (Fin 30)) (Fin 31) 28 5 eq_refl).
Defined.

(** ** The hover panel *)

Lemma groupOf_rollupAdd (k k' : any) (groups : list (any * Z)) :
  groupOf k' (rollupAdd k groups)
  = if decide (k' = k) then Some (default 0 (groupOf k groups) + 1)
    else groupOf k' groups.
Proof.
  induction groups as [|[k0 n] groups IH]; simpl.
  - by destruct (decide (k' = k)).
  - destruct (decide (k = k0)) as [->|Hne]; simpl.
    + by destruct (decide (k' = k0)).
    + rewrite IH. destruct (decide (k' = k0)) as [->|]; [|done].
      by rewrite decide_False by done.
Qed.

Lemma rollupAdd_keys (k k' : any) (groups : list (any * Z)) :
  In k' (map fst (rollupAdd k groups)) <-> k' = k \/ In k' (map fst groups).
Proof.
  induction groups as [|[k0 n] groups IH]; simpl; [intuition congruence|].
  destruct (decide (k = k0)) as [->|Hne]; simpl; [intuition congruence|].
  rewrite IH. intuition congruence.
Qed.

Lemma rollupAdd_NoDup (k : any) (groups : list (any * Z)) :
  List.NoDup (map fst groups) -> List.NoDup (map fst (rollupAdd k groups)).
Proof.
  induction groups as [|[k0 n] groups IH]; simpl.
  - intros _. apply List.NoDup_cons; [by intros []|apply List.NoDup_nil].
  - intros [Hk0 Hnd]%List.NoDup_cons_iff.
    destruct (decide (k = k0)) as [->|Hne]; simpl.
    + by apply List.NoDup_cons.
    + apply List.NoDup_cons; [|by apply IH].
      rewrite rollupAdd_keys. intros [->|Hin]; done.
Qed.

Lemma rollupAdd_sum (k : any) (groups : list (any * Z)) :
  sumZ (map snd (rollupAdd k groups)) = sumZ (map snd groups) + 1.
Proof.
  induction groups as [|[k0 n] groups IH]; simpl; [done|].
  destruct (decide (k = k0)); simpl; lia.
Qed.

Lemma groupOf_In (k : any) (n : Z) (groups : list (any * Z)) :
  List.NoDup (map fst groups) -> (In (k, n) groups <-> groupOf k groups = Some n).
Proof.
  induction groups as [|[k0 n0] groups IH]; simpl; [intuition congruence|].
  intros [Hk0 Hnd]%List.NoDup_cons_iff.
  destruct (decide (k = k0)) as [->|Hne].
  - split; [|intros [= ->]; by left].
    intros [[= ->]|Hin]; [done|].
    destruct Hk0. apply in_map_iff. by exists (k0, n).
  - rewrite <- IH by done. split; [|by right].
    intros [[= <- _]|Hin]; done.
Qed.

Lemma rollup_groups {A : Type} (key : A -> any) (values : list A) :
  List.NoDup (map fst (d3_rollup_length values key))
  /\ sumZ (map snd (d3_rollup_length values key)) = Z.of_nat (length values)
  /\ forall k,
       groupOf k (d3_rollup_length values key)
       = let n := Z.of_nat (length (List.filter (fun v => bool_decide (key v = k)) values)) in
         if decide (n = 0) then None else Some n.
Proof.
  unfold d3_rollup_length.
  induction values as [|v values (Hnd & Hsum & Hget)] using rev_ind.
  - split; [apply List.NoDup_nil|]. by split.
  - rewrite fold_left_app. simpl. split; [by apply rollupAdd_NoDup|]. split.
    + rewrite rollupAdd_sum, Hsum, length_app. simpl. lia.
    + intros k. rewrite groupOf_rollupAdd, List.filter_app, length_app. simpl.
      destruct (decide (k = key v)) as [->|Hne].
      * rewrite bool_decide_eq_true_2 by done. rewrite Hget. simpl.
        repeat case_decide; simpl; try lia; f_equal; lia.
      * rewrite bool_decide_eq_false_2 by done. rewrite Hget. simpl.
        by rewrite Nat.add_0_r.
Qed.

Lemma hoverEvents_window (es : list EdgeEvent) (day : number) (accumulate : bool)
    (i : option Z) :
  hoverEvents es day accumulate i
  = List.filter (touches i) (activeEdges es day accumulate).
Proof.
  unfold hoverEvents, activeEdges. rewrite fold_push_filter. simpl.
  induction es as [|e es IH]; simpl; [done|]. rewrite IH.
  unfold touches.
  destruct accumulate, (JS.le _ _), (JS.strict_eq _ _); simpl; try done;
    rewrite <- bool_decide_or; by destruct (bool_decide _).
Qed.

(** The hover panel is null exactly when there is no hovered node, no graph
    or no dataset.  Otherwise its count is the number of events of the
    active window that have the hovered person at one end, and its groups
    partition these events by type: the types are pairwise distinct, a type
    is listed exactly when some such event has it, with the number of the
    events that have it, and the numbers add up to the count. *)
Theorem hover_panel_counts_by_type (hoverInfo : option HoverInfo) (g : option Graph)
    (p : option Parsed) (day : number) (accumulate : bool) :
  (hoverStats hoverInfo g p day accumulate = None
   <-> hoverInfo = None \/ g = None \/ p = None)
  /\ forall st, hoverStats hoverInfo g p day accumulate = Some st ->
       exists h p',
         hoverInfo = Some h /\ p = Some p'
         /\ let shown := List.filter (touches (id (node h)))
                                     (activeEdges (edges p') day accumulate) in
            count st = Z.of_nat (length shown)
            /\ List.NoDup (map fst (byType st))
            /\ (forall k n, In (k, n) (byType st) <-> 1 <= n /\ n = ofType k shown)
            /\ sumZ (map snd (byType st)) = count st.
Proof.
  split.
  - unfold hoverStats. destruct hoverInfo, g, p; intuition congruence.
  - intros st. unfold hoverStats.
    destruct hoverInfo as [h|], g as [g'|], p as [p'|]; try done.
    intros [= <-]. exists h, p'. split; [done|]. split; [done|].
    rewrite hoverEvents_window. cbn [count byType].
    set (shown := List.filter _ _).
    destruct (rollup_groups event_type shown) as (Hnd & Hsum & Hget).
    split; [done|]. split; [done|]. split; [|done].
    intros k n. rewrite groupOf_In by done. rewrite Hget. unfold ofType. simpl.
    case_decide as Hn; split.
    + done.
    + intros [H1 ->]. lia.
    + intros [= <-]. split; [lia|done].
    + by intros [_ ->].
Qed.




(** ** Radius and colour of a node *)

Lemma round_nonneg (q : Q) :
  (0 <= q)%Q -> Double.le (Double.ofZ 0) (Double.round q) = true.
Proof.
  intros Hq. unfold Double.round.
  assert (0 <= Qnum (Qred q)) as Hnum.
  { pose proof (Qred_correct q) as Heq. rewrite <- Heq in Hq.
    unfold Qle in Hq. simpl in Hq. lia. }
  destruct (Z.eqb_spec (Z.abs (Qnum (Qred q))) 0) as [|Hne]; [done|].
  assert (0 < Qnum (Qred q)) as Hpos by lia.
  rewrite (proj2 (Z.ltb_lt _ _) Hpos).
  case_match; [done|].
  unfold Double.le, Double.ofZ, Double.compare.
  set (m := if 0 <=? _ then _ else _).
  assert (0 <= m) as Hm.
  { unfold m, Double.nearest_even.
    assert (forall a b, 0 <= a -> 0 < b ->
              0 <= match 2 * (a mod b) ?= b with
                   | Eq => if Z.even (a / b) then a / b else a / b + 1
                   | Lt => a / b
                   | Gt => a / b + 1
                   end) as Hne'.
    { intros a b Ha Hb. pose proof (Z.div_pos a b Ha Hb). by repeat case_match; lia. }
    case_match; apply Hne'; try lia;
      try (apply Z.mul_pos_pos; [lia|apply Z.pow_pos_nonneg; lia]);
      try (apply Z.mul_nonneg_nonneg; [lia|apply Z.pow_nonneg; lia]). }
  assert (0 <= Double.scaled (Z.sgn (Qnum (Qred q)) * m)
                              (Z.max (Double.ilog2 (Z.abs (Qnum (Qred q)))
                                                   (Z.pos (Qden (Qred q))) - 52) (-1074)))%Q
    as Hs.
  { unfold Double.scaled. rewrite Qred_correct.
    rewrite Z.sgn_pos by done. rewrite Z.mul_1_l.
    case_match; unfold Qle; simpl.
    - pose proof (Z.pow_nonneg 2 (Z.max (Double.ilog2 (Z.abs (Qnum (Qred q)))
                                                       (Z.pos (Qden (Qred q))) - 52) (-1074))).
      nia.
    - lia. }
  change (inject_Z 0) with 0%Q.
  destruct (Qcompare_spec 0 (Double.scaled (Z.sgn (Qnum (Qred q)) * m)
                               (Z.max (Double.ilog2 (Z.abs (Qnum (Qred q)))
                                                    (Z.pos (Qden (Qred q))) - 52) (-1074))));
    try done. lra.
Qed.

Lemma nonneg_cases (a : double) :
  Double.le (Double.ofZ 0) a = true <-> a = Double.PosInf \/ exists q, a = Double.Fin q /\ (0 <= q)%Q.
Proof.
  unfold Double.le, Double.ofZ, Double.compare. change (inject_Z 0) with 0%Q.
  destruct a as [| | |q].
  - split; [done|]. by intros [|(q & ? & _)].
  - split; [by left|done].
  - split; [done|]. by intros [|(q & ? & _)].
  - destruct (Qcompare_spec 0 q); split; try done.
    + intros _. right. exists q. split; [done|]. lra.
    + intros _. right. exists q. split; [done|]. lra.
    + intros [|(q' & [= <-] & Hq)]; [done|]. lra.
Qed.

Lemma add_nonneg (a b : double) :
  Double.le (Double.ofZ 0) a = true -> Double.le (Double.ofZ 0) b = true ->
  Double.le (Double.ofZ 0) (Double.add a b) = true.
Proof.
  intros [->|(qa & -> & Ha)]%nonneg_cases [->|(qb & -> & Hb)]%nonneg_cases; try done.
  cbn [Double.add]. apply round_nonneg. lra.
Qed.

Lemma orZero_nonneg (a : double) :
  Double.le (Double.ofZ 0) a = true -> Double.le (Double.ofZ 0) (orZero a) = true.
Proof. intros Ha. unfold orZero, Double.or_else. by destruct (Double.truthy a). Qed.

Lemma sumD_nonneg (l : list double) :
  Forall (fun a => Double.le (Double.ofZ 0) a = true) l ->
  Double.le (Double.ofZ 0) (sumD l) = true.
Proof.
  induction l as [|a l IH] using rev_ind; [done|].
  intros [Hl Ha]%Forall_app. rewrite Forall_singleton in Ha.
  rewrite sumD_snoc. by apply add_nonneg; [apply IH|].
Qed.

Lemma incidentTotal_nonneg (p : option Z) (links : list LinkAgg) :
  Forall (fun l => Double.le (Double.ofZ 0) (total l) = true) links ->
  Double.le (Double.ofZ 0) (incidentTotal p links) = true.
Proof.
  intros Hlinks. unfold incidentTotal. apply orZero_nonneg.
  assert (Forall (fun a => Double.le (Double.ofZ 0) a = true) (credits p links)) as Hcs.
  { apply List.Forall_forall. intros t (l & Hl & Ht)%in_flat_map.
    rewrite List.Forall_forall in Hlinks. specialize (Hlinks l Hl).
    apply in_app_iff in Ht as [Ht|Ht]; case_decide; try done;
      by destruct Ht as [<-|[]]. }
  assert (Double.le (Double.ofZ 0) (Double.ofZ 0) = true) as H0 by done.
  revert H0. generalize (Double.ofZ 0) at 2 4 as d.
  induction Hcs as [|t cs Ht _ IH]; intros d Hd; [done|]. cbn [fold_left].
  apply IH. apply add_nonneg; [by apply orZero_nonneg|done].
Qed.

Lemma nodeRadius_cases (n : NodeRec) :
  (Double.lt (degree n) (Double.ofZ 0) = true /\ nodeRadius n = RadiusNaN)
  \/ (Double.lt (degree n) (Double.ofZ 0) = false
      /\ exists s, nodeRadius n = TwoPlus (Sqrt s) /\ (0 <= s)%Q /\ (s <= 100)%Q
                   /\ match degree n with
                      | Double.NaN => (s == 0)%Q
                      | Double.PosInf => (s == 100)%Q
                      | Double.NegInf => False
                      | Double.Fin q => (s == Qmin q 100)%Q
                      end).
Proof.
  unfold nodeRadius, Math_sqrt, Double.or_else, Double.truthy.
  destruct (degree n) as [| | |q].
  - right. split; [done|]. exists (inject_Z 0). repeat split; done.
  - right. split; [done|]. exists (inject_Z (10 * 10)). repeat split; done.
  - by left.
  - destruct (Z.eqb_spec (Qnum q) 0) as [H0|H0]; cbn [negb].
    + right. split.
      { apply lt_false_spec. unfold Qle. simpl. lia. }
      exists (inject_Z 0). split; [done|]. split; [done|]. split; [done|].
      assert (q == 0)%Q as -> by (unfold Qeq; simpl; lia). done.
    + destruct (Z.ltb_spec (Qnum q) 0) as [Hneg|Hpos].
      * left. split; [|done]. apply lt_spec. unfold Qlt. simpl. lia.
      * right. assert (0 <= q)%Q as Hq by (unfold Qle; simpl; lia).
        split; [apply lt_false_spec; by change (inject_Z 0) with 0%Q|].
        unfold distance_lt, pixels. cbn [square]. change (inject_Z (10 * 10)) with 100%Q.
        destruct (Qcompare_spec q 100) as [Heq|Hlt|Hgt].
        -- exists 100%Q. repeat split; try done. rewrite Heq. by rewrite Q.min_id.
        -- exists q. repeat split; try done; [lra|]. rewrite Q.min_l; [done|lra].
        -- exists 100%Q. repeat split; try done. rewrite Q.min_r; [done|lra].
Qed.

Lemma Qred_lowest (q : Q) : Qred (Qred q) = Qred q.
Proof. apply Qred_complete, Qred_correct. Qed.

Lemma round_lowest (q : Q) : lowest (Double.round q).
Proof.
  unfold Double.round.
  repeat case_match; try done; unfold lowest, Double.scaled; apply Qred_lowest.
Qed.

Lemma add_lowest (a b : double) : lowest (Double.add a b).
Proof. destruct a, b; try done. apply round_lowest. Qed.

Lemma orZero_lowest (a : double) : lowest a -> lowest (orZero a).
Proof. intros Ha. unfold orZero, Double.or_else. by destruct (Double.truthy a). Qed.

Lemma incidentTotal_lowest (p : option Z) (links : list LinkAgg) :
  lowest (incidentTotal p links).
Proof.
  unfold incidentTotal. apply orZero_lowest.
  destruct (credits p links) as [|t cs] using rev_ind; [done|].
  rewrite fold_left_app. cbn [fold_left]. apply add_lowest.
Qed.

Lemma nodeRadius_finite (n : NodeRec) (q : Q) :
  degree n = Double.Fin q -> Qred q = q -> (0 <= q)%Q ->
  nodeRadius n = TwoPlus (Sqrt (Qmin q 100)).
Proof.
  intros Hdeg Hlow Hq.
  unfold nodeRadius, Math_sqrt, Double.or_else, Double.truthy. rewrite Hdeg.
  unfold Qmin, GenericMinMax.gmin.
  destruct (Z.eqb_spec (Qnum q) 0) as [H0|H0]; cbn [negb].
  - assert (q = 0%Q) as ->.
    { rewrite <- Hlow. apply (Qred_complete q 0). unfold Qeq. simpl. lia. }
    done.
  - destruct (Z.ltb_spec (Qnum q) 0) as [Hneg|Hpos].
    { unfold Qle in Hq. simpl in Hq. lia. }
    unfold distance_lt, pixels. cbn [square]. change (inject_Z (10 * 10)) with 100%Q.
    destruct (Qcompare_spec q 100) as [Heq|Hlt|Hgt]; try done.
    rewrite <- Hlow. by rewrite (Qred_complete q 100 Heq).
Qed.

Lemma le_spec (a b : Q) : Double.le (Double.Fin a) (Double.Fin b) = true <-> (a <= b)%Q.
Proof.
  unfold Double.le, Double.compare.
  destruct (Qcompare_spec a b); split; intros; try done; lra.
Qed.

Lemma contribution_nonneg (e : EdgeEvent) :
  (forall w, weight e = Some w -> Double.lt w (Double.ofZ 0) = false) ->
  Double.le (Double.ofZ 0) (contribution e) = true.
Proof.
  intros Hw. unfold contribution, Double.or_else.
  destruct (weight e) as [w|]; [|done].
  specialize (Hw w eq_refl).
  destruct (Double.truthy w) eqn:Ht; [|done].
  destruct w as [| | |q]; try done.
  apply le_spec. by apply lt_false_spec in Hw.
Qed.

Lemma graph_degree_nonneg (es : list EdgeEvent) (day : number) (accumulate : bool)
    (persons : list NodeRec) (m : NodeRec) :
  (forall e w, In e es -> weight e = Some w -> Double.lt w (Double.ofZ 0) = false) ->
  In m (nodesWithDeg persons (linksOf (activeEdges es day accumulate))) ->
  Double.le (Double.ofZ 0) (degree m) = true.
Proof.
  intros Hweights (m0 & <- & _)%in_map_iff. unfold withDegree. cbn [degree].
  rewrite degMap_lookup. apply incidentTotal_nonneg.
  apply List.Forall_forall. intros l Hl.
  destruct (linksOf_link _ _ Hl) as (_ & -> & Hev).
  apply sumD_nonneg. apply List.Forall_forall.
  intros c (e & <- & He)%in_map_iff.
  apply contribution_nonneg. intros w. apply Hweights.
  destruct (Hev e He) as [Hact _].
  unfold activeEdges in Hact. rewrite fold_push_filter in Hact.
  simpl in Hact. by apply List.filter_In in Hact as [Hact _].
Qed.

(** The radius of a node of the graph is 2 plus the square root of its
    degree, the degree being capped at 100 (a radius of 12), and it is NaN
    exactly when the degree is negative.  The degree is not negative when no
    event of the dataset has a negative weight, and then a node of greater
    degree never has a smaller radius. *)
Theorem radius_of_graph_nodes (p : Parsed) (day : number) (accumulate : bool)
    (g : Graph) (n : NodeRec) :
  graph (Some p) day accumulate = Some g ->
  In n (g_nodes g) ->
  (nodeRadius n = RadiusNaN <-> Double.lt (degree n) (Double.ofZ 0) = true)
  /\ (forall q, degree n = Double.Fin q -> (0 <= q)%Q ->
        nodeRadius n = TwoPlus (Sqrt (Qmin q 100)))
  /\ (Double.le (Double.ofZ 100) (degree n) = true -> nodeRadius n = TwoPlus (pixels 10))
  /\ ((forall e w, In e (edges p) -> weight e = Some w ->
         Double.lt w (Double.ofZ 0) = false) ->
      Double.le (Double.ofZ 0) (degree n) = true
      /\ forall m, In m (g_nodes g) -> Double.le (degree n) (degree m) = true ->
           exists a b, nodeRadius n = TwoPlus (Sqrt a) /\ nodeRadius m = TwoPlus (Sqrt b)
                       /\ (0 <= a)%Q /\ (a <= b)%Q /\ (b <= 100)%Q).
Proof.
  intros [= <-] Hin. cbn [g_nodes] in *.
  split; [|split; [|split]].
  - destruct (nodeRadius_cases n) as [[Hneg ->]|[Hpos (s & -> & _)]]; split; try done.
    by rewrite Hpos.
  - intros q Hq Hpos. apply nodeRadius_finite; [done| |done].
    apply in_map_iff in Hin as (n0 & <- & _).
    unfold withDegree in Hq. cbn [degree] in Hq. rewrite degMap_lookup in Hq.
    pose proof (incidentTotal_lowest (id n0)
                  (linksOf (activeEdges (edges p) day accumulate))) as Hlow.
    by rewrite Hq in Hlow.
  - intros Hbig. unfold nodeRadius, Math_sqrt, Double.or_else, Double.truthy.
    destruct (degree n) as [| | |q]; try done.
    apply le_spec in Hbig. change (inject_Z 100) with 100%Q in Hbig.
    assert (0 < Qnum q) as Hnum by (unfold Qle in Hbig; simpl in Hbig; lia).
    destruct (Z.eqb_spec (Qnum q) 0); [lia|]. cbn [negb].
    destruct (Z.ltb_spec (Qnum q) 0); [lia|].
    unfold distance_lt, pixels. cbn [square]. change (inject_Z (10 * 10)) with 100%Q.
    destruct (Qcompare_spec q 100); try done. lra.
  - intros Hweights.
    pose proof (fun m => graph_degree_nonneg (edges p) day accumulate (nodes p) m Hweights)
      as Hdeg.
    split; [by apply Hdeg|]. intros m Hm Hle.
    pose proof (Hdeg n Hin) as Hn. pose proof (Hdeg m Hm) as Hm0.
    destruct (nodeRadius_cases n) as [[Hneg _]|[_ (a & -> & Ha0 & Ha1 & Ha)]].
    { destruct (degree n); try done. apply le_spec in Hn. apply lt_spec in Hneg. lra. }
    destruct (nodeRadius_cases m) as [[Hneg _]|[_ (b & -> & Hb0 & Hb1 & Hb)]].
    { destruct (degree m); try done. apply le_spec in Hm0. apply lt_spec in Hneg. lra. }
    exists a, b. split; [done|]. split; [done|]. split; [done|]. split; [|done].
    destruct (degree n) as [| | |qn], (degree m) as [| | |qm]; try done.
    + lra.
    + rewrite Ha, Hb. lra.
    + apply le_spec in Hle. rewrite Ha, Hb.
      apply Q.min_le_compat_r. done.
Qed.

Lemma radius_of_graph_nodes_witness :
  nodeRadius (withDegree (degMap (linksOf (activeEdges (edges threePersons) (Fin 2) true)))
                         (person 7))
  = TwoPlus (Sqrt 7).
Proof.
  apply (proj1 (proj2 (radius_of_graph_nodes threePersons (Fin 2) true
                         (mkGraph
                            (nodesWithDeg (nodes threePersons)
                               (linksOf (activeEdges (edges threePersons) (Fin 2) true)))
                            (linksOf (activeEdges (edges threePersons) (Fin 2) true)))
                         (withDegree
                            (degMap (linksOf (activeEdges (edges threePersons) (Fin 2) true)))
                            (person 7))
                         eq_refl (or_intror (or_introl eq_refl)))) 7%Q).
  - vm_compute. reflexivity.
  - vm_compute. discriminate.
Defined.

Lemma rem_ten_cases (i : Z) :
  0 <= i -> In (Z.rem i 10) [0; 1; 2; 3; 4; 5; 6; 7; 8; 9].
Proof.
  intros Hi. pose proof (Z.rem_bound_pos i 10 Hi) as Hr. simpl.
  assert (Z.rem i 10 = 0 \/ Z.rem i 10 = 1 \/ Z.rem i 10 = 2 \/ Z.rem i 10 = 3
          \/ Z.rem i 10 = 4 \/ Z.rem i 10 = 5 \/ Z.rem i 10 = 6 \/ Z.rem i 10 = 7
          \/ Z.rem i 10 = 8 \/ Z.rem i 10 = 9) by lia.
  intuition.
Qed.

(** X10. Every person row that generateDemo builds has one of the ten teams, and
    teamColor gives each of the ten teams a colour of its own, none of them
    the fallback.  A value that is no key of the table gets the fallback
    colour, as a missing team does, unless it names a member that every
    object inherits (such as constructor): then teamColor returns that
    member and no colour. *)
Theorem demo_teams_have_their_own_colour :
  (forall i, 0 <= i ->
     exists t c, NodeRow.team (demoNode i) = Str t /\ In t teams
                 /\ teamColor (Str t) = Colour c /\ c <> "#cbd5e1")
  /\ (forall s t, In s teams -> In t teams ->
        teamColor (Str s) = teamColor (Str t) -> s = t)
  /\ (forall v, Map_get (ToPropertyKey v) teamColorMap = None ->
        (In (ToPropertyKey v) Object_prototype_names ->
         teamColor v = Inherited (ToPropertyKey v))
        /\ (~ In (ToPropertyKey v) Object_prototype_names ->
            teamColor v = Colour "#cbd5e1"))
  /\ teamColor Undefined = Colour "#cbd5e1"
  /\ teamColor (Str "constructor") = Inherited "constructor".
Proof.
  split; [|split; [|split; [|split]]].
  - intros i Hi. unfold demoNode. cbn [NodeRow.team].
    change (Z.of_nat (length teams)) with 10.
    pose proof (rem_ten_cases i Hi) as Hr.
    destruct Hr as [<-|[<-|[<-|[<-|[<-|[<-|[<-|[<-|[<-|[<-|[]]]]]]]]]]];
      (eexists _, _; split; [reflexivity|]; split; [simpl; tauto|];
       split; [reflexivity|discriminate]).
  - intros s t Hs Ht.
    simpl in Hs, Ht.
    destruct Hs as [<-|[<-|[<-|[<-|[<-|[<-|[<-|[<-|[<-|[<-|[]]]]]]]]]]];
      destruct Ht as [<-|[<-|[<-|[<-|[<-|[<-|[<-|[<-|[<-|[<-|[]]]]]]]]]]];
      (reflexivity || (vm_compute; discriminate)).
  - intros v Hget. unfold teamColor. rewrite Hget. split.
    + intros Hin. rewrite bool_decide_eq_true_2; [done|]. by apply list_elem_of_In.
    + intros Hin. rewrite bool_decide_eq_false_2; [done|]. by rewrite list_elem_of_In.
  - reflexivity.
  - reflexivity.
Qed.

(** ** The rows of the demo *)

Lemma index_types (i : Z) :
  0 <= i < Z.of_nat (length types) -> exists t, index types i = Str t /\ In t types.
Proof.
  change (Z.of_nat (length types)) with 7. intros Hi.
  assert (i = 0 \/ i = 1 \/ i = 2 \/ i = 3 \/ i = 4 \/ i = 5 \/ i = 6) as Hcases by lia.
  destruct Hcases as [->|[->|[->|[->|[->|[->| ->]]]]]];
    (eexists; split; [reflexivity|simpl; tauto]).
Qed.

Lemma toNum_Num (z : Z) :
  Z.abs z <= 2 ^ 53 -> toNum (Num (Fin z)) = Within (Some (Double.ofZ z)).
Proof.
  intros Hz. unfold toNum, ToNumber, Double.ofNumber.
  by rewrite bool_decide_eq_true_2 by (by apply round_ofZ).
Qed.

Lemma integer_ofZ (z : Z) :
  Z.abs z <= 2 ^ 53 -> integer (Some (Double.ofZ z)) = Within (Some z).
Proof.
  intros Hz. unfold integer. rewrite toZ_ofZ.
  by rewrite (proj2 (Z.leb_le _ _) Hz).
Qed.

Lemma demoNodes_ids (N : nat) :
  Z.of_nat N <= 2 ^ 53 ->
  exists ns,
    mapM nodeOfRow (demoNodes N) = Within ns
    /\ map id ns = map (fun i => Some (Z.of_nat i + 1)) (seq 0 N)
    /\ map team ns = map (fun d => NodeRow.team d) (demoNodes N)
    /\ Forall (fun n => degree n = Double.ofZ 0) ns.
Proof.
  intros HN.
  exists (map (fun i =>
                 mkNode (Some (Z.of_nat i + 1))
                        (NodeRow.name (demoNode (Z.of_nat i)))
                        (NodeRow.role (demoNode (Z.of_nat i)))
                        (NodeRow.team (demoNode (Z.of_nat i)))
                        (NodeRow.location (demoNode (Z.of_nat i)))
                        (NodeRow.email (demoNode (Z.of_nat i))) (Double.ofZ 0) None None)
              (seq 0 N)).
  split; [|split; [|split]].
  - unfold demoNodes. rewrite <- (map_id (seq 0 N)) at 1. rewrite map_map.
    assert (forall l, (forall i, In i l -> (i < N)%nat) ->
              mapM nodeOfRow (map (fun i => demoNode (Z.of_nat (Datatypes.id i))) l)
              = Within (map (fun i =>
                 mkNode (Some (Z.of_nat i + 1))
                        (NodeRow.name (demoNode (Z.of_nat i)))
                        (NodeRow.role (demoNode (Z.of_nat i)))
                        (NodeRow.team (demoNode (Z.of_nat i)))
                        (NodeRow.location (demoNode (Z.of_nat i)))
                        (NodeRow.email (demoNode (Z.of_nat i))) (Double.ofZ 0) None None) l))
      as Hall.
    { induction l as [|i l IH]; intros Hl; [done|].
      cbn [map mapM]. rewrite IH by (intros j Hj; apply Hl; by right).
      assert (i < N)%nat as Hi by (apply Hl; by left).
      unfold nodeOfRow at 1, Datatypes.id. cbn [NodeRow.id demoNode].
      rewrite toNum_Num by lia. cbn [mbind modelled_bind].
      rewrite integer_ofZ by lia. done. }
    apply Hall. intros i Hi. apply in_seq in Hi. lia.
  - by rewrite map_map.
  - unfold demoNodes. by rewrite !map_map.
  - apply List.Forall_forall. by intros n (i & <- & _)%in_map_iff.
Qed.

Section DemoRows.

Variable RndState : Type.
Variable rnd : RndState -> Q * RndState.

(** Every draw lies in [0, 1). *)
Hypothesis rnd_range :
  forall st, (0 <= fst (rnd st))%Q /\ (fst (rnd st) < 1)%Q.

Lemma demoEdge_fields (N k : Z) (st : RndState) :
  let e := fst (demoEdge RndState rnd N k st) in
  DemoEdge.event_id e = k + 1
  /\ 1 <= DemoEdge.day e <= 30
  /\ 0 <= DemoEdge.hour e <= 23
  /\ 0 <= DemoEdge.minute e <= 59
  /\ (exists t, DemoEdge.event_type e = Str t /\ In t types)
  /\ 15 <= DemoEdge.duration_minutes e <= 104
  /\ 1 <= DemoEdge.weight e <= 3
  /\ DemoEdge.project e = "Demo" /\ DemoEdge.note e = "".
Proof.
  unfold demoEdge.
  destruct (floorRnd RndState rnd N st) as [a0 st1].
  destruct (floorRnd RndState rnd N st1) as [b0 st2].
  pose proof (floorRnd_range RndState rnd rnd_range 30 st2) as Hd.
  destruct (floorRnd RndState rnd 30 st2) as [d0 st3].
  pose proof (floorRnd_range RndState rnd rnd_range 24 st3) as Hh.
  destruct (floorRnd RndState rnd 24 st3) as [hour st4].
  pose proof (floorRnd_range RndState rnd rnd_range 60 st4) as Hm.
  destruct (floorRnd RndState rnd 60 st4) as [minute st5].
  pose proof (floorRnd_range RndState rnd rnd_range (Z.of_nat (length types)) st5) as Hty.
  destruct (floorRnd RndState rnd (Z.of_nat (length types)) st5) as [ty st6].
  pose proof (floorRnd_range RndState rnd rnd_range 90 st6) as Hdur.
  destruct (floorRnd RndState rnd 90 st6) as [dur st7].
  pose proof (floorRnd_range RndState rnd rnd_range 3 st7) as Hw.
  destruct (floorRnd RndState rnd 3 st7) as [w st8].
  cbn [fst DemoEdge.event_id DemoEdge.day DemoEdge.hour DemoEdge.minute
       DemoEdge.event_type DemoEdge.duration_minutes DemoEdge.weight
       DemoEdge.project DemoEdge.note] in *.
  split; [done|]. split; [lia|]. split; [lia|]. split; [lia|].
  split; [apply index_types; apply Hty; done|].
  split; [lia|]. split; [lia|]. done.
Qed.

Lemma demoEdges_event_ids (N : Z) (count : nat) (k : Z) (st : RndState) :
  map DemoEdge.event_id (demoEdges RndState rnd N count k st)
  = map (fun j => k + Z.of_nat j + 1) (seq 0 count).
Proof.
  revert k st. induction count as [|count IH]; intros k st; [done|].
  cbn [demoEdges seq map].
  pose proof (demoEdge_fields N k st) as (Hid & _).
  destruct (demoEdge RndState rnd N k st) as [e st']. cbn [fst] in Hid.
  cbn [map]. rewrite IH, Hid, <- seq_shift, map_map. f_equal; [lia|].
  apply map_ext. intros j. lia.
Qed.

(** Whatever the random source draws in [0, 1), the rows generateDemo builds
    are well formed.  The 1200 events are numbered 1 to 1200 in order; each
    has a day in 1..30, an hour in 0..23, a minute in 0..59, one of the
    seven event types, a duration in 15..104 and a weight in 1..3.  The 100
    person rows normalise to persons of ids 1 to 100, pairwise distinct, and
    both ends of every event are ids of these persons. *)
Theorem demo_rows_are_well_formed (seed : RndState) :
  map DemoEdge.event_id (snd (generateDemo RndState rnd seed))
  = map (fun j => Z.of_nat j + 1) (seq 0 1200)
  /\ (forall e, In e (snd (generateDemo RndState rnd seed)) ->
        1 <= DemoEdge.day e <= 30
        /\ 0 <= DemoEdge.hour e <= 23
        /\ 0 <= DemoEdge.minute e <= 59
        /\ (exists t, DemoEdge.event_type e = Str t /\ In t types)
        /\ 15 <= DemoEdge.duration_minutes e <= 104
        /\ 1 <= DemoEdge.weight e <= 3)
  /\ exists ns,
       mapM nodeOfRow (fst (generateDemo RndState rnd seed)) = Within ns
       /\ map id ns = map (fun i => Some (Z.of_nat i + 1)) (seq 0 100)
       /\ List.NoDup (map id ns)
       /\ forall e, In e (snd (generateDemo RndState rnd seed)) ->
            In (Some (DemoEdge.source e)) (map id ns)
            /\ In (Some (DemoEdge.target e)) (map id ns).
Proof.
  unfold generateDemo. cbn [fst snd]. split; [|split].
  - rewrite demoEdges_event_ids. apply map_ext. intros j. lia.
  - intros e.
    apply (demoEdges_all RndState rnd
             (fun e => 1 <= DemoEdge.day e <= 30
                       /\ 0 <= DemoEdge.hour e <= 23
                       /\ 0 <= DemoEdge.minute e <= 59
                       /\ (exists t, DemoEdge.event_type e = Str t /\ In t types)
                       /\ 15 <= DemoEdge.duration_minutes e <= 104
                       /\ 1 <= DemoEdge.weight e <= 3)).
    intros k st.
    pose proof (demoEdge_fields (Z.of_nat 100) k st) as (_ & Hd & Hh & Hm & Ht & Hdur & Hw & _).
    done.
  - destruct (demoNodes_ids 100 ltac:(lia)) as (ns & Hns & Hids & _).
    exists ns. split; [done|]. split; [done|].
    assert (forall a, 1 <= a <= 100 -> In (Some a) (map id ns)) as Hin.
    { intros a Ha. rewrite Hids. apply in_map_iff. exists (Z.to_nat (a - 1)).
      split; [f_equal; lia|]. apply in_seq. lia. }
    split.
    + rewrite Hids. apply NoDup_ListNoDup, NoDup_fmap_2; [|apply NoDup_seq].
      intros i j [= Hij]. lia.
    + intros e He.
      pose proof (demoEdges_all RndState rnd
                    (fun e => 1 <= DemoEdge.source e <= 100
                              /\ 1 <= DemoEdge.target e <= 100
                              /\ DemoEdge.target e <> DemoEdge.source e)
                    (Z.of_nat 100)
                    (fun k st => demoEdge_endpoints RndState rnd rnd_range k st)
                    _ _ _ e He) as (Hs & Ht & _).
      split; by apply Hin.
Qed.

End DemoRows.

(** [demo_rows_are_well_formed] at the generator [lcg] seeded with [lcgSeed]. *)
Lemma demo_rows_are_well_formed_witness :
  map DemoEdge.event_id (snd (generateDemo Z lcg lcgSeed))
  = map (fun j => Z.of_nat j + 1) (seq 0 1200).
Proof.
  exact (proj1 (demo_rows_are_well_formed Z lcg lcg_range lcgSeed)).
Defined.

(** ** Month keys *)

Lemma string_app_inj_length (s1 s2 t1 t2 : string) :
  String.length t1 = String.length t2 ->
  s1 +:+ t1 = s2 +:+ t2 -> s1 = s2 /\ t1 = t2.
Proof.
  intros Hlen. revert s2. induction s1 as [|a s1 IH]; intros [|b s2] Heq.
  - done.
  - apply (f_equal String.length) in Heq.
    rewrite !string_length_app in Heq. simpl in Heq. lia.
  - apply (f_equal String.length) in Heq.
    rewrite !string_length_app in Heq. simpl in Heq. lia.
  - change (String a (s1 +:+ t1) = String b (s2 +:+ t2)) in Heq.
    injection Heq as -> Heq. destruct (IH _ Heq) as [-> ->]. done.
Qed.

Lemma month_text_inj (m1 m2 : Z) :
  0 <= m1 <= 11 -> 0 <= m2 <= 11 ->
  padStart 2 "0"%char (Number_toString (JS.add (Fin m1) (Fin 1)))
  = padStart 2 "0"%char (Number_toString (JS.add (Fin m2) (Fin 1))) ->
  m1 = m2.
Proof.
  intros H1 H2.
  assert (m1 = 0 \/ m1 = 1 \/ m1 = 2 \/ m1 = 3 \/ m1 = 4 \/ m1 = 5 \/ m1 = 6 \/ m1 = 7
          \/ m1 = 8 \/ m1 = 9 \/ m1 = 10 \/ m1 = 11) as Hc1 by lia.
  assert (m2 = 0 \/ m2 = 1 \/ m2 = 2 \/ m2 = 3 \/ m2 = 4 \/ m2 = 5 \/ m2 = 6 \/ m2 = 7
          \/ m2 = 8 \/ m2 = 9 \/ m2 = 10 \/ m2 = 11) as Hc2 by lia.
  clear H1 H2.
  destruct Hc1 as [->|[->|[->|[->|[->|[->|[->|[->|[->|[->|[->| ->]]]]]]]]]]];
    destruct Hc2 as [->|[->|[->|[->|[->|[->|[->|[->|[->|[->|[->| ->]]]]]]]]]]];
    intros Heq; (reflexivity || (vm_compute in Heq; discriminate Heq)).
Qed.

Lemma fmtMonth_inj (y1 m1 d1 y2 m2 d2 : Z) :
  0 <= m1 <= 11 -> 0 <= m2 <= 11 ->
  fmtMonth (LocalDate y1 m1 d1) = fmtMonth (LocalDate y2 m2 d2) ->
  y1 = y2 /\ m1 = m2.
Proof.
  intros H1 H2. unfold fmtMonth. cbn [getFullYear getMonth Number_toString].
  intros Heq. apply string_app_inj_length in Heq as [Hy Hm].
  - split; [by apply (inj pretty) in Hy|].
    cbn in Hm. injection Hm as Hm. by apply month_text_inj.
  - rewrite !string_length_app, !month_length by done. done.
Qed.

Lemma fmtMonth_valid (y m d : Z) :
  0 <= m <= 11 -> fmtMonth (LocalDate y m d) <> fmtMonth InvalidDate.
Proof.
  intros Hm. unfold fmtMonth. cbn [getFullYear getMonth Number_toString].
  intros Heq.
  pose proof (month_length m Hm) as Hlen.
  destruct (padStart 2 "0" (Number_toString (JS.add (Fin m) (Fin 1)))) as [|a [|b [|c r]]];
    try done.
  change (pretty y +:+ "-" +:+ String a (String b "") = "NaN-" +:+ "NaN") in Heq.
  apply string_app_inj_length in Heq as [_ Heq]; [|done]. done.
Qed.

(** The month key tells the months apart, whatever the year: two valid
    timestamps get the same key exactly when they lie in the same month of
    the same year, and no valid timestamp gets the key of an invalid one.
    So, for the key of a month, the month filter keeps exactly the events
    whose timestamp lies in that month of that year. *)
Theorem month_key_selects_one_month (edgesAll : list EdgeEvent) (yr m d : Z) :
  0 <= m <= 11 ->
  Forall (fun e => monthInRange (timestamp e)) edgesAll ->
  monthFilter edgesAll (fmtMonth (LocalDate yr m d)) = List.filter (inMonth yr m) edgesAll
  /\ (forall yr' m' d', 0 <= m' <= 11 ->
        (fmtMonth (LocalDate yr' m' d') = fmtMonth (LocalDate yr m d)
         <-> yr' = yr /\ m' = m))
  /\ fmtMonth InvalidDate <> fmtMonth (LocalDate yr m d).
Proof.
  intros Hm Hall. split; [|split].
  - unfold monthFilter. induction Hall as [|e es He _ IH]; [done|].
    cbn [List.filter]. rewrite IH.
    assert (bool_decide (fmtMonth (timestamp e) = fmtMonth (LocalDate yr m d))
            = inMonth yr m e) as ->; [|done].
    unfold inMonth. destruct (timestamp e) as [|yr' m' d'].
    + apply bool_decide_eq_false_2. intros Heq. by apply (fmtMonth_valid yr m d).
    + cbn in He. case_bool_decide as Heq.
      * apply fmtMonth_inj in Heq as [-> ->]; [|done|done].
        by rewrite !bool_decide_eq_true_2.
      * symmetry. apply andb_false_iff.
        destruct (decide (yr' = yr)) as [->|Hy];
          [|left; by apply bool_decide_eq_false_2].
        right. apply bool_decide_eq_false_2. intros ->. by apply Heq.
  - intros yr' m' d' Hm'. split; [by apply fmtMonth_inj|]. by intros [-> ->].
  - intros Heq. by apply (fmtMonth_valid yr m d).
Qed.

Lemma month_key_selects_one_month_witness :
  monthFilter [yearNine; event37; onDay 4] (fmtMonth (LocalDate 2025 8 1))
  = List.filter (inMonth 2025 8) [yearNine; event37; onDay 4].
Proof.
  apply (month_key_selects_one_month [yearNine; event37; onDay 4] 2025 8 1).
  - lia.
  - repeat constructor; simpl; lia.
Defined.

(** ** Numbers written as decimal text *)

Lemma digit_pretty_N_char (d : N) :
  (d < 10)%N -> digit (pretty_N_char d) = Some (Z.of_N d).
Proof.
  intros Hd.
  assert (d = 0 \/ d = 1 \/ d = 2 \/ d = 3 \/ d = 4 \/ d = 5 \/ d = 6 \/ d = 7
          \/ d = 8 \/ d = 9)%N as Hcases by lia.
  destruct Hcases as [->|[->|[->|[->|[->|[->|[->|[->|[->| ->]]]]]]]]]; reflexivity.
Qed.

Lemma digits_pretty_N_go (x : N) (s : string) :
  exists p, forall acc, digits acc (pretty_N_go x s) = digits (acc * p + Z.of_N x) s.
Proof.
  revert s. induction (N.lt_wf_0 x) as [x _ IH]; intros s.
  destruct (decide (x = 0)%N) as [->|Hx].
  - exists 1. intros acc. rewrite pretty_N_go_0. f_equal. lia.
  - destruct (IH (x `div` 10)%N) with (s := String (pretty_N_char (x `mod` 10)) s)
      as [p Hp]; [apply N.div_lt; lia|].
    exists (10 * p). intros acc. rewrite pretty_N_go_step by lia. rewrite Hp.
    cbn [digits]. rewrite digit_pretty_N_char by (apply N.mod_lt; lia).
    f_equal. pose proof (N.div_mod x 10). lia.
Qed.

Lemma digits_pretty_positive (p : positive) : digits 0 (pretty p) = Some (Z.pos p).
Proof.
  unfold pretty, pretty_positive, pretty, pretty_N. case_decide; [done|].
  destruct (digits_pretty_N_go (N.pos p) "") as [q Hq]. rewrite Hq. simpl. f_equal.
Qed.

Lemma forall_chars_rev_app (p : ascii -> bool) (s1 s2 : string) :
  forall_chars p (String.rev_app s1 s2) = forall_chars p s1 && forall_chars p s2.
Proof.
  revert s2. induction s1 as [|a s1 IH]; intros s2; simpl; [done|].
  rewrite IH. simpl. by destruct (p a), (forall_chars p s1).
Qed.

Lemma rev_app_rev_app (s1 s2 s3 : string) :
  String.rev_app (String.rev_app s1 s2) s3 = String.rev_app s2 (s1 +:+ s3).
Proof.
  revert s2 s3. induction s1 as [|a s1 IH]; intros s2 s3; simpl; [done|].
  by rewrite IH.
Qed.

Lemma trim_start_not_white (s : string) :
  forall_chars not_white s = true -> trim_start s = s.
Proof.
  destruct s as [|c s]; [done|]. simpl. unfold not_white.
  by destruct (white c).
Qed.

Lemma trim_not_white (s : string) :
  forall_chars not_white s = true -> trim s = s.
Proof.
  intros Hs. unfold trim. rewrite (trim_start_not_white s Hs).
  rewrite trim_start_not_white.
  - unfold String.rev. rewrite rev_app_rev_app. simpl. apply string_app_nil_r.
  - unfold String.rev. rewrite forall_chars_rev_app, Hs. done.
Qed.

Lemma numeral_char_cases (c : ascii) :
  numeral_char c = true ->
  not_white c = true /\ is_ascii c = true /\ c <> "I"%char.
Proof.
  unfold numeral_char, not_white, white, is_ascii, digit.
  intros [Hd| ->%bool_decide_eq_true]%orb_true_iff; [|done].
  apply bool_decide_eq_true in Hd.
  destruct (48 <=? nat_of_ascii c)%nat eqn:H1, (nat_of_ascii c <=? 57)%nat eqn:H2;
    try (by destruct Hd).
  apply Nat.leb_le in H1, H2.
  split; [|split].
  - apply negb_true_iff, orb_false_iff. split.
    + apply andb_false_iff. right. apply Nat.leb_gt. lia.
    + apply Nat.eqb_neq. lia.
  - apply Nat.ltb_lt. lia.
  - intros ->. change (nat_of_ascii "I") with 73%nat in H2. lia.
Qed.

Lemma digits_nonempty (s : string) (m : Z) :
  0 < m -> digits 0 s = Some m -> s <> "".
Proof. intros Hm Hd ->. simpl in Hd. injection Hd as <-. lia. Qed.

Lemma unsigned_of_digits (s : string) (m : Z) :
  s <> "" -> digits 0 s = Some m ->
  StrUnsignedDecimalLiteral s = Some (Decimal m 0).
Proof.
  intros Hne Hd.
  assert (forall_chars Grammar.is_digit s = true) as Hall
      by (apply (digits_all s 0); by exists m).
  unfold StrUnsignedDecimalLiteral.
  rewrite bool_decide_eq_false_2 by (intros ->; done).
  rewrite <- (string_app_nil_r s) at 1.
  rewrite (span_digits_app s "" Hall I).
  rewrite (bool_decide_eq_false_2 (s = "")) by done. cbn [andb].
  rewrite string_app_nil_r, Hd. done.
Qed.

Lemma nondecimal_of_digits (s : string) :
  forall_chars Grammar.is_digit s = true -> NonDecimalIntegerLiteral s = None.
Proof.
  intros Hall. unfold NonDecimalIntegerLiteral.
  destruct s as [|c0 s]; [done|]. destruct s as [|c r]; [by repeat case_match|].
  cbn [forall_chars] in Hall.
  apply andb_true_iff in Hall as [_ [Hc _]%andb_true_iff].
  assert (forall a, Grammar.is_digit a = false -> bool_decide (c = a) = false) as Hno.
  { intros a Ha. apply bool_decide_eq_false_2. intros <-. congruence. }
  rewrite !Hno by done. cbn [orb]. by repeat case_match.
Qed.

Lemma first_digit_unsigned (c : ascii) (r : string) :
  forall_chars Grammar.is_digit (String c r) = true ->
  bool_decide (c = "+"%char) = false /\ bool_decide (c = "-"%char) = false.
Proof.
  cbn [forall_chars]. intros [Hc _]%andb_true_iff.
  split; apply bool_decide_eq_false_2; intros ->; done.
Qed.

Lemma StringToNumber_positive (p : positive) :
  Z.pos p <= 2 ^ 53 ->
  StringToNumber (pretty (Z.pos p)) = Within (Double.ofZ (Z.pos p)).
Proof.
  intros Hp. pose proof (digits_pretty_positive p) as Hd.
  change (pretty (Z.pos p)) with (pretty p).
  assert (forall_chars Grammar.is_digit (pretty p) = true) as Hall
      by (apply (digits_all _ 0); by eexists).
  pose proof (digits_nonempty (pretty p) (Z.pos p) ltac:(lia) Hd) as Hne.
  pose proof (pretty_Z_numeral (Z.pos p)) as Hnum.
  change (pretty (Z.pos p)) with (pretty p) in Hnum.
  unfold StringToNumber.
  rewrite (forall_chars_impl numeral_char is_ascii) by
    (done || intros c Hc; by apply numeral_char_cases).
  cbn [negb].
  rewrite trim_not_white by
    (apply (forall_chars_impl numeral_char); [|done];
     intros c Hc; by apply numeral_char_cases).
  rewrite (nondecimal_of_digits _ Hall).
  rewrite (unsigned_of_digits _ _ Hne Hd).
  destruct (pretty p) as [|c r] eqn:Hs; [done|].
  destruct (first_digit_unsigned c r Hall) as [-> ->].
  unfold RoundMVResult.
  destruct (Z.leb_spec (10 ^ 20) (Z.pos p)); [lia|].
  unfold decimal. cbn [Z.leb Z.compare]. rewrite Z.pow_0_r, Z.mul_1_r.
  f_equal. apply round_ofZ. lia.
Qed.

Lemma StringToNumber_negative (p : positive) :
  Z.pos p <= 2 ^ 53 ->
  StringToNumber (pretty (Z.neg p)) = Within (Double.ofZ (Z.neg p)).
Proof.
  intros Hp. pose proof (digits_pretty_positive p) as Hd.
  assert (forall_chars Grammar.is_digit (pretty p) = true) as Hall
      by (apply (digits_all _ 0); by eexists).
  pose proof (digits_nonempty (pretty p) (Z.pos p) ltac:(lia) Hd) as Hne.
  pose proof (pretty_Z_numeral (Z.neg p)) as Hnum.
  unfold StringToNumber.
  rewrite (forall_chars_impl numeral_char is_ascii) by
    (done || intros c Hc; by apply numeral_char_cases).
  cbn [negb].
  rewrite trim_not_white by
    (apply (forall_chars_impl numeral_char); [|done];
     intros c Hc; by apply numeral_char_cases).
  change (pretty (Z.neg p)) with (String "-" (pretty p)).
  change (NonDecimalIntegerLiteral (String "-" (pretty p))) with (@None Z).
  cbv beta iota.
  rewrite bool_decide_eq_false_2 by done.
  rewrite bool_decide_eq_true_2 by done.
  rewrite (unsigned_of_digits _ _ Hne Hd).
  unfold RoundMVResult.
  destruct (Z.leb_spec (10 ^ 20) (Z.pos p)); [lia|].
  unfold decimal. cbn [Z.leb Z.compare]. rewrite Z.pow_0_r, Z.mul_1_r.
  change (- Z.pos p) with (Z.neg p).
  f_equal. apply round_ofZ. lia.
Qed.

(** A number printed in decimal and read back through toNum is the number
    itself: for every integer within the exactly representable range, the
    text that toString prints for it is normalised to that integer, as the
    number is.  So a person row whose id cell holds that text gets that id,
    the one the demo rows get from the number. *)
Theorem decimal_text_reads_back (z : Z) :
  Z.abs z <= 2 ^ 53 ->
  toNum (Str (Number_toString (Fin z))) = Within (Some (Double.ofZ z))
  /\ toNum (Num (Fin z)) = Within (Some (Double.ofZ z))
  /\ (forall d, NodeRow.id d = Str (Number_toString (Fin z)) ->
        exists n, nodeOfRow d = Within n /\ id n = Some z).
Proof.
  intros Hz.
  assert (toNum (Str (Number_toString (Fin z))) = Within (Some (Double.ofZ z))) as Hread.
  { cbn [Number_toString]. unfold toNum, ToNumber.
    destruct z as [|p|p].
    - reflexivity.
    - by rewrite StringToNumber_positive by lia.
    - by rewrite StringToNumber_negative by lia. }
  split; [exact Hread|]. split; [by apply toNum_Num|].
  intros d Hd. unfold nodeOfRow. rewrite Hd, Hread. cbn [mbind modelled_bind].
  rewrite integer_ofZ by done. by eexists.
Qed.

Lemma decimal_text_reads_back_witness :
  toNum (Str (Number_toString (Fin (-1200)))) = Within (Some (Double.ofZ (-1200))).
Proof.
  apply (proj1 (decimal_text_reads_back (-1200) ltac:(done))).
Defined.
